(** * VoxBridge: capture, segmentation and feedback gate

    A shallow embedding of the audio core of the translator:
    [silero_vad.py] (streaming segmentation), [loopback_capture.py] and
    [mic_capture.py] (capture callbacks, resampling, feedback gate),
    [audio_player.py] (bounded play queue), [argos_translate.py] and
    [whisper_asr.py] (collaborator wrappers).

    Conventions of the embedding.
    - Python [float] values (clock readings of [time.monotonic()], durations,
      probabilities, samples) are rationals [Q]: comparisons are those of
      the reals. Where a float is truncated to an integer (a sample count, a
      block size) the operations that lead to it round to double precision,
      [numpy.float64]; elsewhere arithmetic is exact.
    - A method that mutates [self] takes the object and returns the new one.
    - [time.monotonic()] is an explicit argument [now] of the method that
      reads it.
    - [logger] calls that the properties talk about are returned as a list
      of log records. *)

From Stdlib Require Import ZArith QArith Qround Qpower Lqa Lia List Bool.
From Stdlib Require String Ascii.
Import ListNotations.

(** ** config.py *)

Module config.
Definition SAMPLE_RATE : Z := 16000.
Definition CHUNK_DURATION_MS : Z := 30.
Definition MIN_SPEECH_DURATION_S : Q := 5 # 10.
Definition MAX_SPEECH_DURATION_S : Q := 15.
Definition VAD_THRESHOLD : Q := 4 # 10.
Definition VAD_MIN_SILENCE_MS : Z := 600.
Definition FEEDBACK_GATE_BUFFER_S : Q := 3 # 10.
Definition QUEUE_MAX_SIZE : Z := 50.
Definition ENABLE_TTS_OUTPUT : bool := true.
End config.

(** ** Python comparisons on floats, as booleans *)

(** [a >= b] *)
Definition Qge_bool (a b : Q) : bool := Qle_bool b a.
(** [a < b] *)
Definition Qlt_bool (a b : Q) : bool := negb (Qle_bool b a).

Lemma Qge_bool_true (a b : Q) : Qge_bool a b = true <-> (b <= a)%Q.
Proof. unfold Qge_bool. apply Qle_bool_iff. Qed.

Lemma Qge_bool_false (a b : Q) : Qge_bool a b = false <-> (a < b)%Q.
Proof.
  unfold Qge_bool. split; intro H.
  - apply Qnot_le_lt. intro L. apply Qle_bool_iff in L. congruence.
  - destruct (Qle_bool b a) eqn:E; [|reflexivity].
    apply Qle_bool_iff in E. apply Qlt_not_le in H. contradiction.
Qed.

Lemma Qlt_bool_true (a b : Q) : Qlt_bool a b = true <-> (a < b)%Q.
Proof.
  unfold Qlt_bool. rewrite negb_true_iff. apply (Qge_bool_false a b).
Qed.

Lemma Qlt_bool_false (a b : Q) : Qlt_bool a b = false <-> (b <= a)%Q.
Proof.
  unfold Qlt_bool. rewrite negb_false_iff. apply (Qge_bool_true a b).
Qed.

(** ** silero_vad.py *)

Module silero_vad.

(** Records that [process_chunk] hands to [logger.debug]. *)
Inductive LogRecord : Type :=
| VAD_Speech_started
| VAD_Speech_ended (duration : Q)
| VAD_Speech_too_short (duration : Q)
| VAD_Force_emit (elapsed : Q).

(** A record that announces an utterance assigned to [result]. *)
Definition is_emission (r : LogRecord) : bool :=
  match r with
  | VAD_Speech_ended _ | VAD_Force_emit _ => true
  | VAD_Speech_started | VAD_Speech_too_short _ => false
  end.

(** [self._silero_chunk_size = 512], set once in [__init__]. *)
Definition _silero_chunk_size : nat := 512.

Section SileroVAD.

(** One float32 sample. *)
Variable Sample : Type.
(** The torch module returned by [torch.hub.load]: it keeps a recurrent
    state between calls, so scoring returns the module as well. *)
Variable Model : Type.
(** [self.model(tensor, config.SAMPLE_RATE).item()] *)
Variable model_call : Model -> list Sample -> Z -> Q * Model.
(** [self.model.reset_states()] *)
Variable model_reset_states : Model -> Model.
(** [min(np.sqrt(np.mean(chunk ** 2)) * 20.0, 1.0)], the fallback score. *)
Variable energy_prob : list Sample -> Q.

Record SileroVAD : Type := mkSileroVAD {
  model : option Model;
  _speech_buffer : list (list Sample);
  _is_speaking : bool;
  _silence_start : option Q;
  _speech_start : option Q;
  _leftover : list Sample
}.

(** [SileroVAD.__init__] *)
Definition init : SileroVAD :=
  {| model := None; _speech_buffer := []; _is_speaking := false;
     _silence_start := None; _speech_start := None; _leftover := [] |}.

Definition set_silence_start (v : option Q) (self : SileroVAD) : SileroVAD :=
  {| model := model self; _speech_buffer := _speech_buffer self;
     _is_speaking := _is_speaking self; _silence_start := v;
     _speech_start := _speech_start self; _leftover := _leftover self |}.

Definition set_leftover (v : list Sample) (self : SileroVAD) : SileroVAD :=
  {| model := model self; _speech_buffer := _speech_buffer self;
     _is_speaking := _is_speaking self; _silence_start := _silence_start self;
     _speech_start := _speech_start self; _leftover := v |}.

Definition set_model (v : option Model) (self : SileroVAD) : SileroVAD :=
  {| model := v; _speech_buffer := _speech_buffer self;
     _is_speaking := _is_speaking self; _silence_start := _silence_start self;
     _speech_start := _speech_start self; _leftover := _leftover self |}.

(** [self._is_speaking = True; self._speech_start = now] *)
Definition start_speaking (now : Q) (self : SileroVAD) : SileroVAD :=
  {| model := model self; _speech_buffer := _speech_buffer self;
     _is_speaking := true; _silence_start := _silence_start self;
     _speech_start := Some now; _leftover := _leftover self |}.

(** [self._speech_buffer.append(chunk)] *)
Definition buffer_append (chunk : list Sample) (self : SileroVAD) : SileroVAD :=
  {| model := model self; _speech_buffer := _speech_buffer self ++ [chunk];
     _is_speaking := _is_speaking self; _silence_start := _silence_start self;
     _speech_start := _speech_start self; _leftover := _leftover self |}.

(** [SileroVAD.reset] *)
Definition reset (self : SileroVAD) : SileroVAD :=
  {| model := option_map model_reset_states (model self);
     _speech_buffer := []; _is_speaking := false;
     _silence_start := None; _speech_start := None; _leftover := [] |}.

(** [SileroVAD._get_speech_prob] *)
Definition _get_speech_prob (self : SileroVAD) (chunk : list Sample)
  : Q * SileroVAD :=
  match model self with
  | Some m =>
      let '(prob, m') := model_call m chunk config.SAMPLE_RATE in
      (prob, set_model (Some m') self)
  | None => (energy_prob chunk, self)
  end.

(** [len(utterance) / config.SAMPLE_RATE] *)
Definition duration_of (utterance : list Sample) : Q :=
  inject_Z (Z.of_nat (length utterance)) / inject_Z config.SAMPLE_RATE.

(** The local variables of [process_chunk] that the loop body updates
    besides [pos]: [self], [result], and the log written so far. *)
Record Frame : Type := mkFrame {
  fr_self : SileroVAD;
  fr_result : option (list Sample);
  fr_log : list LogRecord
}.

(** The silence branch once [VAD_MIN_SILENCE_MS] has passed
    (lines 113-127): finalize or discard, then [reset]. *)
Definition finalize_on_silence (self : SileroVAD)
    (result : option (list Sample)) (log : list LogRecord) : Frame :=
  let '(result, log) :=
    if (0 <? length (_speech_buffer self))%nat then
      let utterance := concat (_speech_buffer self) in
      let duration := duration_of utterance in
      if Qge_bool duration config.MIN_SPEECH_DURATION_S
      then (Some utterance, log ++ [VAD_Speech_ended duration])
      else (result, log ++ [VAD_Speech_too_short duration])
    else (result, log) in
  mkFrame (reset self) result log.

(** Lines 96-127: the threshold test and its two branches. *)
Definition classify (now : Q) (chunk : list Sample) (prob : Q)
    (self : SileroVAD) (result : option (list Sample))
    (log : list LogRecord) : Frame :=
  if Qge_bool prob config.VAD_THRESHOLD then
    let self := set_silence_start None self in
    let '(self, log) :=
      if negb (_is_speaking self)
      then (start_speaking now self, log ++ [VAD_Speech_started])
      else (self, log) in
    mkFrame (buffer_append chunk self) result log
  else
    if _is_speaking self then
      let self := buffer_append chunk self in
      match _silence_start self with
      | None => mkFrame (set_silence_start (Some now) self) result log
      | Some silence_start =>
          if Qge_bool ((now - silence_start) * 1000)
                      (inject_Z config.VAD_MIN_SILENCE_MS)
          then finalize_on_silence self result log
          else mkFrame self result log
      end
    else mkFrame self result log.

(** Lines 129-137: the force emit on [MAX_SPEECH_DURATION_S]. *)
Definition force_emit (now : Q) (fr : Frame) : Frame :=
  let self := fr_self fr in
  match _is_speaking self, _speech_start self with
  | true, Some speech_start =>
      let elapsed := now - speech_start in
      if Qge_bool elapsed config.MAX_SPEECH_DURATION_S then
        let '(result, log) :=
          if (0 <? length (_speech_buffer self))%nat
          then (Some (concat (_speech_buffer self)),
                fr_log fr ++ [VAD_Force_emit elapsed])
          else (fr_result fr, fr_log fr) in
        mkFrame (reset self) result log
      else fr
  | _, _ => fr
  end.

(** One iteration of the [while] loop on the window [chunk]. *)
Definition loop_body (now : Q) (chunk : list Sample) (fr : Frame) : Frame :=
  let '(prob, self) := _get_speech_prob (fr_self fr) chunk in
  force_emit now (classify now chunk prob self (fr_result fr) (fr_log fr)).

(** [audio_chunk[pos:pos + self._silero_chunk_size]] *)
Definition window_at (audio_chunk : list Sample) (pos : nat) : list Sample :=
  firstn _silero_chunk_size (skipn pos audio_chunk).

(** [while pos + self._silero_chunk_size <= len(audio_chunk): ...].
    Every iteration advances [pos], so [fuel] iterations are enough as
    soon as [fuel] reaches the number of windows
    (see [while_loop_runs_to_the_end]). *)
Fixpoint while_loop (fuel : nat) (now : Q) (audio_chunk : list Sample)
    (pos : nat) (fr : Frame) : nat * Frame :=
  match fuel with
  | O => (pos, fr)
  | S fuel' =>
      if (pos + _silero_chunk_size <=? length audio_chunk)%nat then
        while_loop fuel' now audio_chunk (pos + _silero_chunk_size)
          (loop_body now (window_at audio_chunk pos) fr)
      else (pos, fr)
  end.

(** Lines 83-85: the previous tail is put in front of the new chunk. *)
Definition prepend_leftover (self : SileroVAD) (audio_chunk : list Sample)
  : SileroVAD * list Sample :=
  if (0 <? length (_leftover self))%nat
  then (set_leftover [] self, _leftover self ++ audio_chunk)
  else (self, audio_chunk).

(** [SileroVAD.process_chunk], with the clock reading [now] of line 87.
    Returns the object, the returned utterance and the log records. *)
Definition process_chunk (self : SileroVAD) (now : Q)
    (audio_chunk : list Sample)
  : SileroVAD * option (list Sample) * list LogRecord :=
  let '(self, audio_chunk) := prepend_leftover self audio_chunk in
  let '(pos, fr) :=
    while_loop (length audio_chunk) now audio_chunk 0
      (mkFrame self None []) in
  let self :=
    if (pos <? length audio_chunk)%nat
    then set_leftover (skipn pos audio_chunk) (fr_self fr)
    else fr_self fr in
  (self, fr_result fr, fr_log fr).

(** A caller that feeds chunks in arrival order, each call with its own
    clock reading; it collects what every call returned. *)
Fixpoint feed (self : SileroVAD) (calls : list (Q * list Sample))
  : SileroVAD * list (option (list Sample) * list LogRecord) :=
  match calls with
  | [] => (self, [])
  | (now, audio_chunk) :: calls' =>
      let '(self', result, log) := process_chunk self now audio_chunk in
      let '(final, outs) := feed self' calls' in
      (final, (result, log) :: outs)
  end.

(** *** The loop *)

Lemma chunk_size_pos : (0 < _silero_chunk_size)%nat.
Proof. unfold _silero_chunk_size. lia. Qed.

(** A property of [pos] and the frame that every iteration keeps holds
    when the loop is left. *)
Lemma while_loop_invariant (P : nat -> Frame -> Prop) (now : Q)
    (audio_chunk : list Sample) :
  (forall pos fr,
      (pos + _silero_chunk_size <= length audio_chunk)%nat ->
      P pos fr ->
      P (pos + _silero_chunk_size)%nat
        (loop_body now (window_at audio_chunk pos) fr)) ->
  forall fuel pos fr,
    P pos fr ->
    P (fst (while_loop fuel now audio_chunk pos fr))
      (snd (while_loop fuel now audio_chunk pos fr)).
Proof.
  intros Hstep fuel. induction fuel as [|fuel IH]; intros pos fr HP.
  - exact HP.
  - cbn [while_loop].
    destruct (Nat.leb_spec (pos + _silero_chunk_size) (length audio_chunk))
      as [Hle|Hgt].
    + apply IH. apply Hstep; assumption.
    + exact HP.
Qed.

(** With enough fuel the loop stops because its condition fails, on a
    multiple of the window size. *)
Lemma while_loop_pos (now : Q) (audio_chunk : list Sample) :
  forall fuel pos fr,
    (length audio_chunk < pos + _silero_chunk_size * S fuel)%nat ->
    (pos <= length audio_chunk)%nat ->
    let pos' := fst (while_loop fuel now audio_chunk pos fr) in
    (pos' <= length audio_chunk < pos' + _silero_chunk_size)%nat /\
    exists k, pos' = (pos + _silero_chunk_size * k)%nat.
Proof.
  induction fuel as [|fuel IH]; intros pos fr Hfuel Hpos; cbn zeta.
  - cbn [while_loop fst]. split; [lia|]. exists 0%nat. lia.
  - cbn [while_loop].
    destruct (Nat.leb_spec (pos + _silero_chunk_size) (length audio_chunk))
      as [Hle|Hgt].
    + destruct (IH (pos + _silero_chunk_size)%nat
                  (loop_body now (window_at audio_chunk pos) fr))
        as [Hb [k Hk]].
      * rewrite Nat.mul_succ_r in Hfuel. lia.
      * exact Hle.
      * split; [exact Hb|]. exists (S k). rewrite Hk.
        rewrite Nat.mul_succ_r. lia.
    + cbn [fst]. split; [lia|]. exists 0%nat. lia.
Qed.

(** The fuel that [process_chunk] gives is enough: the loop ends on the
    last whole window. *)
Lemma while_loop_runs_to_the_end (now : Q) (audio_chunk : list Sample)
    (fr : Frame) :
  fst (while_loop (length audio_chunk) now audio_chunk 0 fr)
  = (_silero_chunk_size * (length audio_chunk / _silero_chunk_size))%nat.
Proof.
  pose proof chunk_size_pos as Hcs.
  destruct (while_loop_pos now audio_chunk (length audio_chunk) 0%nat fr)
    as [Hb [k Hk]].
  - rewrite Nat.mul_succ_r.
    assert (length audio_chunk <= _silero_chunk_size * length audio_chunk)%nat
      by (destruct _silero_chunk_size; [lia|]; cbn; lia).
    lia.
  - lia.
  - cbn zeta in *. rewrite Hk in *. cbn [Nat.add] in *.
    f_equal. apply Nat.div_unique with (r := (length audio_chunk - _silero_chunk_size * k)%nat); lia.
Qed.

(** *** Timers and the clock of one call *)

(** Within one call [now] is fixed: a timer started during the call has
    run for no time at all. *)
Lemma no_silence_at_once (now : Q) :
  Qge_bool ((now - now) * 1000) (inject_Z config.VAD_MIN_SILENCE_MS) = false.
Proof.
  apply Qge_bool_false. unfold config.VAD_MIN_SILENCE_MS, inject_Z. lra.
Qed.

Lemma no_flush_at_once (now : Q) :
  Qge_bool (now - now) config.MAX_SPEECH_DURATION_S = false.
Proof.
  apply Qge_bool_false. unfold config.MAX_SPEECH_DURATION_S. lra.
Qed.

(** Both timers, when set, were set during the call at [now]. *)
Definition quiet (now : Q) (self : SileroVAD) : Prop :=
  (forall t, _speech_start self = Some t -> t = now) /\
  (forall t, _silence_start self = Some t -> t = now).

(** A speech timer is either the one the call started with or one set
    during the call. *)
Definition from_entry (now : Q) (self0 self : SileroVAD) : Prop :=
  forall t, _speech_start self = Some t ->
            t = now \/ _speech_start self0 = Some t.

(** What the log record [r] says about the utterance [u] it announces:
    a silence finalization carries the duration of [u], which passed the
    minimum; a force emit carries the wall-clock time since the speech
    start the call was entered with, which reached the maximum. *)
Definition announces (now : Q) (self0 : SileroVAD) (u : list Sample)
    (r : LogRecord) : Prop :=
  match r with
  | VAD_Speech_ended d =>
      d = duration_of u /\ (config.MIN_SPEECH_DURATION_S <= duration_of u)%Q
  | VAD_Force_emit e =>
      (config.MAX_SPEECH_DURATION_S <= e)%Q /\
      exists t, _speech_start self0 = Some t /\ e = now - t
  | VAD_Speech_started | VAD_Speech_too_short _ => False
  end.

(** A discard is logged only under the minimum. *)
Definition discard_ok (r : LogRecord) : Prop :=
  match r with
  | VAD_Speech_too_short d => (d < config.MIN_SPEECH_DURATION_S)%Q
  | _ => True
  end.

(** [result] and the log agree: no utterance and no emission record, or
    one utterance and the one record that announces it, after which the
    timers are those of this call. *)
Definition linked (now : Q) (self0 : SileroVAD) (fr : Frame) : Prop :=
  match fr_result fr with
  | None =>
      filter is_emission (fr_log fr) = [] /\ from_entry now self0 (fr_self fr)
  | Some u =>
      exists r, filter is_emission (fr_log fr) = [r] /\
                announces now self0 u r /\ quiet now (fr_self fr)
  end /\ Forall discard_ok (fr_log fr).

Ltac break_match :=
  match goal with
  | |- context [match ?x with _ => _ end] =>
      lazymatch x with
      | context [match _ with _ => _ end] => fail
      | _ => destruct x eqn:?
      end
  end.

(** Scoring touches the model only. *)
Lemma _get_speech_prob_fields (self : SileroVAD) (chunk : list Sample) :
  let self' := snd (_get_speech_prob self chunk) in
  _speech_buffer self' = _speech_buffer self /\
  _is_speaking self' = _is_speaking self /\
  _silence_start self' = _silence_start self /\
  _speech_start self' = _speech_start self /\
  _leftover self' = _leftover self.
Proof.
  unfold _get_speech_prob. destruct (model self) as [m|]; cbn.
  - destruct (model_call m chunk config.SAMPLE_RATE); cbn. repeat split.
  - repeat split.
Qed.

(** A timer set at [now] cannot have expired at [now]. *)
Ltac timers_absurd :=
  match goal with
  | H : forall t, Some ?q = Some t -> t = ?now,
    E : Qge_bool ((?now - ?q) * 1000) _ = true |- _ =>
      pose proof (H q eq_refl); subst q;
      rewrite no_silence_at_once in E; discriminate E
  | H : forall t, Some ?q = Some t -> t = ?now,
    E : Qge_bool (?now - ?q) _ = true |- _ =>
      pose proof (H q eq_refl); subst q;
      rewrite no_flush_at_once in E; discriminate E
  end.

Ltac open_hyps :=
  repeat match goal with
    | H : exists _, _ |- _ => destruct H
    | H : _ /\ _ |- _ => destruct H
    end.

Ltac timer_goal :=
  intros; first [congruence | left; congruence | eauto].

Ltac log_goal :=
  rewrite ?Forall_app; repeat split; try assumption;
  repeat constructor; cbn [discard_ok];
  try (apply Qge_bool_false; assumption).

Ltac emission_goal :=
  rewrite ?filter_app; cbn [filter is_emission];
  repeat match goal with
    | H : filter is_emission _ = _ |- _ => rewrite H
    end;
  cbn [app].

Ltac announce_goal :=
  cbn [announces];
  first [ eassumption
        | split; [reflexivity | apply Qge_bool_true; assumption] ].

Ltac linked_goal :=
  open_hyps; try timers_absurd;
  (split; [|log_goal]); emission_goal;
  first [ eexists; split;
          [reflexivity | split; [announce_goal | split; timer_goal]]
        | split; [reflexivity | timer_goal] ].

Lemma classify_linked (now : Q) (self0 : SileroVAD) (chunk : list Sample)
    (prob : Q) (self : SileroVAD) (res : option (list Sample))
    (log : list LogRecord) :
  linked now self0 (mkFrame self res log) ->
  linked now self0 (classify now chunk prob self res log).
Proof.
  destruct self as [m buf sp sil st lo].
  unfold linked, classify, finalize_on_silence, quiet, from_entry; cbn.
  intros [Hres Hdis]. destruct res as [u0|];
    repeat (break_match; cbn in * ); linked_goal.
Qed.

Lemma force_emit_linked (now : Q) (self0 : SileroVAD) (fr : Frame) :
  linked now self0 fr -> linked now self0 (force_emit now fr).
Proof.
  destruct fr as [[m buf sp sil st lo] res log].
  unfold linked, force_emit, quiet, from_entry; cbn.
  intros [Hres Hdis]. destruct res as [u0|];
    repeat (break_match; cbn in * ); try linked_goal.
  (* the force emit itself: the timer is the one the call began with *)
  destruct Hres as [Hf Hst].
  destruct (Hst q eq_refl) as [-> | Hentry];
    [rewrite no_flush_at_once in Heqb0; discriminate Heqb0|].
  split; [|log_goal]. emission_goal.
  eexists; split; [reflexivity|]. split; [|split; timer_goal].
  cbn [announces]. split; [apply Qge_bool_true; exact Heqb0|].
  exists q. split; [exact Hentry|reflexivity].
Qed.

Lemma loop_body_linked (now : Q) (self0 : SileroVAD) (chunk : list Sample)
    (fr : Frame) :
  linked now self0 fr -> linked now self0 (loop_body now chunk fr).
Proof.
  intros H. unfold loop_body.
  pose proof (_get_speech_prob_fields (fr_self fr) chunk) as F.
  destruct (_get_speech_prob (fr_self fr) chunk) as [prob self].
  cbn [snd] in F. destruct F as (_ & _ & Fsil & Fst & _).
  apply force_emit_linked, classify_linked.
  destruct fr as [s res log]. unfold linked, quiet, from_entry in *.
  cbn [fr_self fr_result fr_log] in *. rewrite Fsil, Fst. exact H.
Qed.

(** What one call returns and logs: the shared core of the statements
    about emissions. *)
Lemma process_chunk_linked (self : SileroVAD) (now : Q)
    (audio_chunk : list Sample) :
  let '(_, result, log) := process_chunk self now audio_chunk in
  match result with
  | None => filter is_emission log = []
  | Some u =>
      exists r, filter is_emission log = [r] /\ announces now self u r
  end /\ Forall discard_ok log.
Proof.
  unfold process_chunk.
  destruct (prepend_leftover self audio_chunk) as [self1 audio] eqn:Hpre.
  assert (Hst : _speech_start self1 = _speech_start self).
  { unfold prepend_leftover in Hpre.
    destruct (0 <? length (_leftover self))%nat; inversion Hpre; reflexivity. }
  pose proof (while_loop_invariant (fun _ fr => linked now self fr) now audio
                (fun pos fr _ => loop_body_linked now self _ fr)
                (length audio) 0%nat (mkFrame self1 None [])) as Hinv.
  destruct (while_loop (length audio) now audio 0 (mkFrame self1 None []))
    as [pos fr].
  cbn [fst snd] in Hinv.
  assert (Hl : linked now self fr).
  { apply Hinv. unfold linked, from_entry. cbn.
    repeat split; [|constructor]. intros t Ht. right. congruence. }
  destruct Hl as [Hres Hdis]. split; [|exact Hdis].
  destruct (fr_result fr) as [u|].
  - destruct Hres as (r & Hf & Ha & _). exists r. split; assumption.
  - apply Hres.
Qed.


(** *** The leftover *)

Lemma prepend_leftover_spec (self : SileroVAD) (audio_chunk : list Sample) :
  let '(self1, audio) := prepend_leftover self audio_chunk in
  audio = _leftover self ++ audio_chunk /\
  _leftover self1 = [] /\
  _speech_buffer self1 = _speech_buffer self /\
  _is_speaking self1 = _is_speaking self /\
  _silence_start self1 = _silence_start self /\
  _speech_start self1 = _speech_start self.
Proof.
  unfold prepend_leftover.
  destruct (_leftover self) as [|x l] eqn:E; cbn; repeat split; assumption.
Qed.

(** Inside the loop the leftover stays empty: the body never writes it,
    except through [reset], which empties it. *)
Lemma loop_body_leftover (now : Q) (chunk : list Sample) (fr : Frame) :
  _leftover (fr_self fr) = [] ->
  _leftover (fr_self (loop_body now chunk fr)) = [].
Proof.
  intros H. unfold loop_body.
  pose proof (_get_speech_prob_fields (fr_self fr) chunk) as F.
  destruct (_get_speech_prob (fr_self fr) chunk) as [prob self].
  cbn [snd] in F. destruct F as (_ & _ & _ & _ & Flo).
  rewrite H in Flo. destruct self as [m buf sp sil st lo].
  cbn in Flo. subst lo.
  unfold force_emit, classify, finalize_on_silence; cbn.
  repeat (break_match; cbn in * ); reflexivity.
Qed.

(** *** Brief pauses *)

(** The silence timer, if running, has not reached
    [VAD_MIN_SILENCE_MS] at [now]. *)
Definition silence_brief (now : Q) (self : SileroVAD) : bool :=
  match _silence_start self with
  | None => true
  | Some silence_start =>
      Qlt_bool ((now - silence_start) * 1000)
               (inject_Z config.VAD_MIN_SILENCE_MS)
  end.

Lemma Qlt_bool_ge_bool (a b : Q) : Qlt_bool a b = negb (Qge_bool a b).
Proof. reflexivity. Qed.

Lemma silence_brief_at_once (now : Q) :
  Qlt_bool ((now - now) * 1000) (inject_Z config.VAD_MIN_SILENCE_MS) = true.
Proof. rewrite Qlt_bool_ge_bool, no_silence_at_once. reflexivity. Qed.

Lemma classify_brief (now : Q) (chunk : list Sample) (prob : Q)
    (self : SileroVAD) (res : option (list Sample)) (log : list LogRecord) :
  _is_speaking self = true ->
  silence_brief now self = true ->
  let fr' := classify now chunk prob self res log in
  _is_speaking (fr_self fr') = true /\
  silence_brief now (fr_self fr') = true /\
  _speech_start (fr_self fr') = _speech_start self /\
  _speech_buffer (fr_self fr') = _speech_buffer self ++ [chunk] /\
  fr_result fr' = res /\ fr_log fr' = log.
Proof.
  destruct self as [m buf sp sil st lo]. unfold silence_brief. cbn.
  intros -> Hsil. unfold classify; cbn.
  destruct (Qge_bool prob config.VAD_THRESHOLD); cbn.
  - repeat split.
  - destruct sil as [q|]; cbn.
    + pose proof Hsil as Hge. rewrite Qlt_bool_ge_bool in Hge.
      apply negb_true_iff in Hge. rewrite Hge. cbn. rewrite Hsil.
      repeat split.
    + rewrite silence_brief_at_once. repeat split.
Qed.

(** *** Statements about [process_chunk] *)

(** C7. One call of [process_chunk], on a chunk of any length and with any
    scores, returns at most one utterance: the log of the call holds at
    most one emission record (speech ended or force emit), and the call
    returns [None] exactly when it holds none. *)
Theorem process_chunk_at_most_one_utterance (self : SileroVAD) (now : Q)
    (audio_chunk : list Sample) :
  let '(_, result, log) := process_chunk self now audio_chunk in
  (length (filter is_emission log) <= 1)%nat /\
  (result = None <-> filter is_emission log = []).
Proof.
  pose proof (process_chunk_linked self now audio_chunk) as H.
  destruct (process_chunk self now audio_chunk) as [[self' result] log].
  destruct H as [H _]. destruct result as [u|].
  - destruct H as (r & Hf & _). rewrite Hf. cbn. split; [lia|].
    split; discriminate.
  - rewrite H. cbn. split; [lia|]. split; reflexivity.
Qed.

Lemma min_duration_samples (u : list Sample) :
  (config.MIN_SPEECH_DURATION_S <= duration_of u)%Q ->
  (8000 <= Z.of_nat (length u))%Z.
Proof.
  unfold duration_of, config.MIN_SPEECH_DURATION_S, config.SAMPLE_RATE.
  unfold Qle, Qdiv, Qmult, Qinv, inject_Z. cbn. lia.
Qed.

(** C1 (as the code has it). In every call of [process_chunk], from any
    state: an utterance returned on the silence path has
    [len / SAMPLE_RATE >= MIN_SPEECH_DURATION_S], that is at least 8000
    samples; an utterance returned by the force emit was emitted because
    the wall-clock time since the recorded speech start had reached
    [MAX_SPEECH_DURATION_S]; a call that returns nothing logged no
    emission; and every discard logged a duration under the minimum. *)
Theorem process_chunk_emission_bounds (self : SileroVAD) (now : Q)
    (audio_chunk : list Sample) :
  let '(_, result, log) := process_chunk self now audio_chunk in
  match result with
  | Some u =>
      (In (VAD_Speech_ended (duration_of u)) log /\
       (config.MIN_SPEECH_DURATION_S <= duration_of u)%Q /\
       (8000 <= Z.of_nat (length u))%Z)
      \/
      (exists speech_start,
          _speech_start self = Some speech_start /\
          In (VAD_Force_emit (now - speech_start)) log /\
          (config.MAX_SPEECH_DURATION_S <= now - speech_start)%Q)
  | None => filter is_emission log = []
  end /\ Forall discard_ok log.
Proof.
  pose proof (process_chunk_linked self now audio_chunk) as H.
  destruct (process_chunk self now audio_chunk) as [[self' result] log].
  destruct H as [H Hdis]. split; [|exact Hdis].
  destruct result as [u|]; [|exact H].
  destruct H as (r & Hf & Ha).
  assert (Hin : In r log).
  { apply (proj1 (filter_In is_emission r log)). rewrite Hf. now left. }
  destruct r as [|d|d|e]; cbn in Ha; try contradiction.
  - left. destruct Ha as [-> Hmin].
    repeat split; [exact Hin|exact Hmin|apply min_duration_samples, Hmin].
  - right. destruct Ha as (Hmax & t & Ht & ->). exists t.
    repeat split; assumption.
Qed.

(** C10. After every call of [process_chunk] the leftover is the tail of
    the previous leftover followed by the chunk, from the end of the last
    whole window on, and it is shorter than one window (512 samples). *)
Theorem process_chunk_leftover (self : SileroVAD) (now : Q)
    (audio_chunk : list Sample) :
  let '(self', _, _) := process_chunk self now audio_chunk in
  let audio := _leftover self ++ audio_chunk in
  _leftover self'
  = skipn (512 * (length audio / 512)) audio /\
  (length (_leftover self') < 512)%nat /\
  firstn (512 * (length audio / 512)) audio ++ _leftover self' = audio.
Proof.
  change 512%nat with _silero_chunk_size.
  unfold process_chunk.
  pose proof (prepend_leftover_spec self audio_chunk) as Hpre.
  destruct (prepend_leftover self audio_chunk) as [self1 audio].
  destruct Hpre as (Haudio & Hlo & _). rewrite <- Haudio. clear Haudio.
  pose proof (while_loop_invariant
                (fun _ fr => _leftover (fr_self fr) = []) now audio
                (fun pos fr _ => loop_body_leftover now _ fr)
                (length audio) 0%nat (mkFrame self1 None []) Hlo) as Hinv.
  pose proof (while_loop_runs_to_the_end now audio (mkFrame self1 None []))
    as Hpos.
  destruct (while_loop (length audio) now audio 0 (mkFrame self1 None []))
    as [pos fr].
  cbn [fst snd] in *. subst pos. cbn zeta.
  pose proof chunk_size_pos as Hcs.
  assert (Hne : _silero_chunk_size <> 0%nat) by lia.
  pose proof (Nat.Div0.mul_div_le (length audio) _silero_chunk_size) as Hle.
  pose proof (Nat.mul_succ_div_gt (length audio) _ Hne) as Hgt.
  rewrite Nat.mul_succ_r in Hgt.
  set (pos := (_silero_chunk_size * (length audio / _silero_chunk_size))%nat)
    in *.
  assert (Hleft : (if (pos <? length audio)%nat
                   then set_leftover (skipn pos audio) (fr_self fr)
                   else fr_self fr).(_leftover) = skipn pos audio).
  { destruct (Nat.ltb_spec pos (length audio)) as [Hlt|Hge]; cbn.
    - reflexivity.
    - rewrite Hinv. symmetry. apply skipn_all2. exact Hge. }
  rewrite Hleft. split; [reflexivity|]. split.
  - rewrite length_skipn. lia.
  - apply firstn_skipn.
Qed.

(** *** Further behaviour of [process_chunk] *)

(** The loop with a window to analyse runs its body on the first one. *)
Lemma while_loop_first_window (now : Q) (audio_chunk : list Sample)
    (fr : Frame) :
  (_silero_chunk_size <= length audio_chunk)%nat ->
  while_loop (length audio_chunk) now audio_chunk 0 fr
  = while_loop (length audio_chunk - 1) now audio_chunk _silero_chunk_size
      (loop_body now (window_at audio_chunk 0) fr).
Proof.
  intros Hlen. pose proof chunk_size_pos as Hcs.
  destruct (length audio_chunk) as [|n] eqn:E; [lia|].
  cbn [while_loop]. rewrite E.
  destruct (Nat.leb_spec (0 + _silero_chunk_size) (S n)) as [_|Hgt]; [|lia].
  replace (S n - 1)%nat with n by lia. reflexivity.
Qed.

(** The fuel left after the first window is still enough. *)
Lemma while_loop_rest_pos (now : Q) (audio_chunk : list Sample) (fr : Frame) :
  (_silero_chunk_size <= length audio_chunk)%nat ->
  fst (while_loop (length audio_chunk - 1) now audio_chunk
         _silero_chunk_size fr)
  = (_silero_chunk_size * (length audio_chunk / _silero_chunk_size))%nat.
Proof.
  intros Hlen. pose proof chunk_size_pos as Hcs.
  destruct (while_loop_pos now audio_chunk (length audio_chunk - 1)
              _silero_chunk_size fr) as [Hb [k Hk]].
  - rewrite Nat.mul_succ_r.
    assert (length audio_chunk - 1
            <= _silero_chunk_size * (length audio_chunk - 1))%nat by nia.
    lia.
  - exact Hlen.
  - cbn zeta in Hb, Hk.
    set (p := fst (while_loop (length audio_chunk - 1) now audio_chunk
                     _silero_chunk_size fr)) in *.
    replace p with (_silero_chunk_size * S k)%nat
      by (rewrite Nat.mul_succ_r; lia).
    f_equal.
    apply Nat.div_unique with (r := (length audio_chunk - p)%nat).
    + lia.
    + rewrite Nat.mul_succ_r. lia.
Qed.

(** The last step of [process_chunk]: the tail after the last whole window
    becomes the leftover. *)
Definition store_leftover (audio_chunk : list Sample) (self : SileroVAD)
  : SileroVAD :=
  set_leftover
    (skipn (_silero_chunk_size * (length audio_chunk / _silero_chunk_size))
           audio_chunk) self.

Lemma set_leftover_same (self : SileroVAD) :
  set_leftover (_leftover self) self = self.
Proof. destruct self; reflexivity. Qed.

(** [process_chunk] written over the concatenated audio, for a loop whose
    frame keeps an empty leftover. *)
Lemma process_chunk_unfold (self : SileroVAD) (now : Q)
    (audio_chunk : list Sample) :
  let audio := _leftover self ++ audio_chunk in
  let fr := snd (while_loop (length audio) now audio 0
                   (mkFrame (set_leftover [] self) None [])) in
  process_chunk self now audio_chunk
  = (store_leftover audio (fr_self fr), fr_result fr, fr_log fr).
Proof.
  cbn zeta. unfold process_chunk, prepend_leftover.
  assert (Hpre : (if (0 <? length (_leftover self))%nat
                  then (set_leftover [] self, _leftover self ++ audio_chunk)
                  else (self, audio_chunk))
                 = (set_leftover [] self, _leftover self ++ audio_chunk)).
  { destruct (_leftover self) as [|x l] eqn:E; cbn; [|reflexivity].
    rewrite <- E, set_leftover_same. reflexivity. }
  rewrite Hpre. set (audio := _leftover self ++ audio_chunk).
  pose proof (while_loop_invariant
                (fun _ fr => _leftover (fr_self fr) = []) now audio
                (fun pos fr _ => loop_body_leftover now _ fr)
                (length audio) 0%nat (mkFrame (set_leftover [] self) None [])
                eq_refl) as Hinv.
  pose proof (while_loop_runs_to_the_end now audio
                (mkFrame (set_leftover [] self) None [])) as Hpos.
  destruct (while_loop (length audio) now audio 0
              (mkFrame (set_leftover [] self) None [])) as [pos fr].
  cbn [fst snd] in *. subst pos. unfold store_leftover.
  pose proof (Nat.Div0.mul_div_le (length audio) _silero_chunk_size) as Hle.
  destruct (Nat.ltb_spec (_silero_chunk_size * (length audio / _silero_chunk_size))
              (length audio)) as [Hlt|Hge]; [reflexivity|].
  rewrite skipn_all2 by exact Hge.
  pose proof (set_leftover_same (fr_self fr)) as E. rewrite Hinv in E.
  rewrite E. reflexivity.
Qed.

(** Every buffered window is a whole analysis window. *)
Definition whole_windows (buffer : list (list Sample)) : Prop :=
  Forall (fun w => length w = _silero_chunk_size) buffer.

(** An utterance is a positive number of whole windows. *)
Definition whole_utterance (result : option (list Sample)) : Prop :=
  match result with
  | Some u => exists k, (0 < k)%nat /\ length u = (_silero_chunk_size * k)%nat
  | None => True
  end.

Lemma length_concat_whole (buffer : list (list Sample)) :
  whole_windows buffer ->
  length (concat buffer) = (_silero_chunk_size * length buffer)%nat.
Proof.
  induction 1 as [|w buffer Hw _ IH]; cbn [concat length].
  - lia.
  - rewrite length_app, Hw, IH, Nat.mul_succ_r. lia.
Qed.

Lemma whole_windows_append (buffer : list (list Sample)) (chunk : list Sample) :
  whole_windows buffer -> length chunk = _silero_chunk_size ->
  whole_windows (buffer ++ [chunk]).
Proof.
  intros Hb Hc. apply Forall_app. split; [exact Hb|].
  constructor; [exact Hc|constructor].
Qed.

Lemma length_window_at (audio_chunk : list Sample) (pos : nat) :
  (pos + _silero_chunk_size <= length audio_chunk)%nat ->
  length (window_at audio_chunk pos) = _silero_chunk_size.
Proof.
  intros H. unfold window_at. rewrite length_firstn, length_skipn. lia.
Qed.

Lemma classify_whole (now : Q) (chunk : list Sample) (prob : Q)
    (self : SileroVAD) (res : option (list Sample)) (log : list LogRecord) :
  length chunk = _silero_chunk_size ->
  whole_windows (_speech_buffer self) -> whole_utterance res ->
  let fr' := classify now chunk prob self res log in
  whole_windows (_speech_buffer (fr_self fr')) /\
  whole_utterance (fr_result fr').
Proof.
  intros Hc Hb Hr. destruct self as [m buf sp sil st lo]. cbn in Hb.
  pose proof (whole_windows_append buf chunk Hb Hc) as Hb'.
  assert (Hu : whole_utterance (Some (concat (buf ++ [chunk])))).
  { cbn. exists (length (buf ++ [chunk])). split.
    - rewrite length_app. cbn. lia.
    - apply length_concat_whole, Hb'. }
  unfold classify, finalize_on_silence; cbn.
  repeat (break_match; cbn in * );
    repeat match goal with H : (_, _) = (_, _) |- _ => inversion H; subst; clear H end;
    split; try assumption; try constructor.
Qed.

Lemma force_emit_whole (now : Q) (fr : Frame) :
  whole_windows (_speech_buffer (fr_self fr)) ->
  whole_utterance (fr_result fr) ->
  whole_windows (_speech_buffer (fr_self (force_emit now fr))) /\
  whole_utterance (fr_result (force_emit now fr)).
Proof.
  destruct fr as [[m buf sp sil st lo] res log]. cbn. intros Hb Hr.
  assert (Hu : (0 < length buf)%nat -> whole_utterance (Some (concat buf))).
  { intros Hpos. cbn. exists (length buf). split; [exact Hpos|].
    apply length_concat_whole, Hb. }
  unfold force_emit; cbn.
  repeat (break_match; cbn in * );
    repeat match goal with H : (_, _) = (_, _) |- _ => inversion H; subst; clear H end;
    split; try assumption; try constructor.
  all: apply Hu; lia.
Qed.

Lemma loop_body_whole (now : Q) (chunk : list Sample) (fr : Frame) :
  length chunk = _silero_chunk_size ->
  whole_windows (_speech_buffer (fr_self fr)) ->
  whole_utterance (fr_result fr) ->
  whole_windows (_speech_buffer (fr_self (loop_body now chunk fr))) /\
  whole_utterance (fr_result (loop_body now chunk fr)).
Proof.
  intros Hc Hb Hr. unfold loop_body.
  pose proof (_get_speech_prob_fields (fr_self fr) chunk) as F.
  destruct (_get_speech_prob (fr_self fr) chunk) as [prob self].
  cbn [snd] in F. destruct F as (Fbuf & _).
  rewrite <- Fbuf in Hb.
  destruct (classify_whole now chunk prob self (fr_result fr) (fr_log fr)
              Hc Hb Hr) as [K1 K2].
  apply force_emit_whole; assumption.
Qed.

Lemma process_chunk_whole (self : SileroVAD) (now : Q)
    (audio_chunk : list Sample) :
  whole_windows (_speech_buffer self) ->
  whole_windows (_speech_buffer (fst (fst (process_chunk self now audio_chunk))))
  /\ whole_utterance (snd (fst (process_chunk self now audio_chunk))).
Proof.
  intros Hb. rewrite process_chunk_unfold. cbn [fst snd].
  set (audio := _leftover self ++ audio_chunk).
  apply (while_loop_invariant
           (fun _ fr => whole_windows (_speech_buffer (fr_self fr)) /\
                        whole_utterance (fr_result fr)) now audio).
  - intros pos fr Hpos [H1 H2].
    apply loop_body_whole; [apply length_window_at, Hpos|exact H1|exact H2].
  - cbn. split; [exact Hb|exact I].
Qed.

(** X1. Fed from a state whose speech buffer holds whole windows (the
    initial state, for one), [process_chunk] only ever returns utterances
    made of a positive number of whole 512-sample windows, whatever the
    sizes of the chunks it is given, and the buffer keeps holding whole
    windows. *)
Theorem utterances_are_whole_windows (self : SileroVAD)
    (calls : list (Q * list Sample)) :
  Forall (fun w => length w = 512%nat) (_speech_buffer self) ->
  Forall (fun out =>
            match fst out with
            | Some u => exists k, (0 < k)%nat /\ length u = (512 * k)%nat
            | None => True
            end) (snd (feed self calls)) /\
  Forall (fun w => length w = 512%nat) (_speech_buffer (fst (feed self calls))).
Proof.
  change 512%nat with _silero_chunk_size.
  revert self. induction calls as [|[now audio_chunk] calls IH]; intros self Hb.
  - cbn. split; [constructor|exact Hb].
  - cbn [feed].
    pose proof (process_chunk_whole self now audio_chunk Hb) as [H1 H2].
    destruct (process_chunk self now audio_chunk) as [[self' result] log].
    cbn [fst snd] in H1, H2. specialize (IH self' H1).
    destruct (feed self' calls) as [final outs]. cbn [fst snd] in *.
    destruct IH as [I1 I2]. split; [|exact I2].
    constructor; [exact H2|exact I1].
Qed.

(** Idle, without a torch model, on a window that scores under the
    threshold: the body does nothing. *)
Lemma loop_body_idle_silent (now : Q) (chunk : list Sample) (fr : Frame) :
  _is_speaking (fr_self fr) = false ->
  model (fr_self fr) = None ->
  (energy_prob chunk < config.VAD_THRESHOLD)%Q ->
  loop_body now chunk fr = fr.
Proof.
  destruct fr as [[m buf sp sil st lo] res log]. cbn. intros -> -> Hq.
  apply Qge_bool_false in Hq.
  unfold loop_body, _get_speech_prob, classify, force_emit. cbn.
  rewrite Hq. reflexivity.
Qed.

Lemma store_leftover_set_leftover (audio : list Sample) (l : list Sample)
    (self : SileroVAD) :
  store_leftover audio (set_leftover l self) = store_leftover audio self.
Proof. reflexivity. Qed.


(** With timers set during this call, the body returns no utterance. *)
Lemma loop_body_quiet (now : Q) (chunk : list Sample) (fr : Frame) :
  quiet now (fr_self fr) ->
  quiet now (fr_self (loop_body now chunk fr)) /\
  fr_result (loop_body now chunk fr) = fr_result fr.
Proof.
  intros Hq. unfold loop_body.
  pose proof (_get_speech_prob_fields (fr_self fr) chunk) as F.
  destruct (_get_speech_prob (fr_self fr) chunk) as [prob self].
  cbn [snd] in F. destruct F as (_ & _ & Fsil & Fst & _).
  unfold quiet in Hq. rewrite <- Fsil, <- Fst in Hq.
  destruct fr as [s0 res log]. cbn [fr_self fr_result fr_log] in *. clear s0 Fsil Fst.
  destruct self as [m buf sp sil st lo]. cbn in Hq. destruct Hq as [Hst Hsil].
  assert (Hc : quiet now (fr_self (classify now chunk prob
                  (mkSileroVAD m buf sp sil st lo) res log)) /\
               fr_result (classify now chunk prob
                  (mkSileroVAD m buf sp sil st lo) res log) = res).
  { unfold classify, finalize_on_silence, quiet; cbn.
    repeat (break_match; cbn in * ); try timers_absurd;
      (split; [split; timer_goal|reflexivity]). }
  destruct (classify now chunk prob (mkSileroVAD m buf sp sil st lo) res log)
    as [[m' buf' sp' sil' st' lo'] res' log'].
  cbn in Hc. destruct Hc as [[Hst' Hsil'] ->].
  unfold force_emit, quiet; cbn.
  repeat (break_match; cbn in * ); try timers_absurd;
    (split; [split; timer_goal|reflexivity]).
Qed.


(** X4. Speaking, once the speech timer has reached
    [MAX_SPEECH_DURATION_S], and with the silence timer not expired: on
    audio with at least one window, whatever the scores, the call returns
    the buffer with the first window appended, however short that is; the
    minimum duration is not consulted, and nothing the later windows do
    replaces the utterance. *)
Theorem force_emit_returns_buffer (self : SileroVAD) (now : Q)
    (audio_chunk : list Sample) (speech_start : Q) :
  let audio := _leftover self ++ audio_chunk in
  _is_speaking self = true ->
  _speech_start self = Some speech_start ->
  (config.MAX_SPEECH_DURATION_S <= now - speech_start)%Q ->
  silence_brief now self = true ->
  (512 <= length audio)%nat ->
  snd (fst (process_chunk self now audio_chunk))
  = Some (concat (_speech_buffer self ++ [window_at audio 0])).
Proof.
  change 512%nat with _silero_chunk_size. cbn zeta.
  intros Hsp Hst Hmax Hbrief Hlen. rewrite process_chunk_unfold. cbn [fst snd].
  set (audio := _leftover self ++ audio_chunk) in *.
  rewrite (while_loop_first_window now audio _ Hlen).
  set (u := concat (_speech_buffer self ++ [window_at audio 0])).
  assert (Hfirst :
    quiet now (fr_self (loop_body now (window_at audio 0)
                          (mkFrame (set_leftover [] self) None []))) /\
    fr_result (loop_body now (window_at audio 0)
                 (mkFrame (set_leftover [] self) None [])) = Some u).
  { subst u. set (w0 := window_at audio 0) in *. clearbody w0.
    unfold loop_body. cbn [fr_self fr_result fr_log].
    pose proof (_get_speech_prob_fields (set_leftover [] self) w0) as F.
    destruct (_get_speech_prob (set_leftover [] self) w0) as [prob self1].
    cbn [snd] in F. destruct F as (Fbuf & Fsp & Fsil & Fst & _).
    cbn in Fbuf, Fsp, Fsil, Fst.
    assert (Hsp1 : _is_speaking self1 = true) by congruence.
    assert (Hbrief1 : silence_brief now self1 = true)
      by (unfold silence_brief in *; rewrite Fsil; exact Hbrief).
    destruct (classify_brief now w0 prob self1 None []
                Hsp1 Hbrief1) as (K1 & _ & K3 & K4 & K5 & _).
    destruct (classify now w0 prob self1 None [])
      as [[m buf sp sil st lo] res log].
    cbn in K1, K3, K4, K5. subst sp res.
    rewrite Fst, Hst in K3. rewrite Fbuf in K4. subst st buf.
    unfold force_emit; cbn. apply Qge_bool_true in Hmax. rewrite Hmax.
    destruct (_speech_buffer self ++ [w0]) as [|w ws] eqn:E;
      [destruct (_speech_buffer self); discriminate E|].
    cbn. split; [split; intros ? [=]|]. reflexivity. }
  destruct Hfirst as [Hq Hres].
  pose proof (while_loop_invariant
                (fun _ fr => quiet now (fr_self fr) /\ fr_result fr = Some u)
                now audio) as Hinv.
  apply Hinv.
  - intros pos fr _ [H1 H2].
    destruct (loop_body_quiet now (window_at audio pos) fr H1) as [K1 K2].
    split; [exact K1|congruence].
  - split; assumption.
Qed.

(** *** Chunk boundaries *)

(** The whole windows at the front of a block, in order. *)
Fixpoint windows (fuel : nat) (audio : list Sample) : list (list Sample) :=
  match fuel with
  | O => []
  | S fuel' =>
      if (_silero_chunk_size <=? length audio)%nat
      then firstn _silero_chunk_size audio
           :: windows fuel' (skipn _silero_chunk_size audio)
      else []
  end.

(** The loop is a left fold of its body over the windows. *)
Lemma while_loop_fold (now : Q) (audio_chunk : list Sample) :
  forall fuel pos fr,
    snd (while_loop fuel now audio_chunk pos fr)
    = fold_left (fun fr w => loop_body now w fr)
        (windows fuel (skipn pos audio_chunk)) fr.
Proof.
  pose proof chunk_size_pos as Hcs.
  induction fuel as [|fuel IH]; intros pos fr; [reflexivity|].
  cbn [while_loop windows]. rewrite length_skipn.
  destruct (Nat.leb_spec (pos + _silero_chunk_size) (length audio_chunk))
    as [Hle|Hgt];
    destruct (Nat.leb_spec _silero_chunk_size (length audio_chunk - pos))
    as [Hle'|Hgt']; try lia; [|reflexivity].
  cbn [fold_left]. rewrite IH, skipn_skipn.
  replace (_silero_chunk_size + pos)%nat with (pos + _silero_chunk_size)%nat
    by lia.
  reflexivity.
Qed.

(** Fuel beyond the number of windows changes nothing. *)
Lemma windows_fuel (fuel1 : nat) :
  forall fuel2 audio,
    (length audio < _silero_chunk_size * S fuel1)%nat ->
    (length audio < _silero_chunk_size * S fuel2)%nat ->
    windows fuel1 audio = windows fuel2 audio.
Proof.
  pose proof chunk_size_pos as Hcs.
  induction fuel1 as [|fuel1 IH]; intros fuel2 audio H1 H2.
  - destruct fuel2 as [|fuel2]; [reflexivity|]. cbn [windows].
    destruct (Nat.leb_spec _silero_chunk_size (length audio)); [lia|reflexivity].
  - destruct fuel2 as [|fuel2]; cbn [windows];
      destruct (Nat.leb_spec _silero_chunk_size (length audio)) as [Hle|Hgt];
      try reflexivity; try lia.
    f_equal. apply IH; rewrite length_skipn; rewrite Nat.mul_succ_r in *; lia.
Qed.

Lemma fuel_suffices (n fuel : nat) :
  (n < _silero_chunk_size + fuel)%nat ->
  (n < _silero_chunk_size * S fuel)%nat.
Proof. pose proof chunk_size_pos. nia. Qed.

Lemma enough_fuel (audio : list Sample) :
  (length audio < _silero_chunk_size * S (length audio))%nat.
Proof. pose proof chunk_size_pos. apply fuel_suffices. lia. Qed.

(** The windows of a block followed by more audio: those of the block,
    then those of its tail followed by the rest. *)
Lemma windows_app (n : nat) :
  forall front rest : list Sample,
    (length front <= n)%nat ->
    let tail :=
      skipn (_silero_chunk_size * (length front / _silero_chunk_size)) front in
    windows (length (front ++ rest)) (front ++ rest)
    = windows (length front) front
      ++ windows (length (tail ++ rest)) (tail ++ rest).
Proof.
  pose proof chunk_size_pos as Hcs.
  induction n as [|n IH]; intros front rest Hn; cbn zeta.
  - destruct front; [|cbn in Hn; lia]. cbn [length app windows].
    rewrite Nat.Div0.div_0_l, Nat.mul_0_r. reflexivity.
  - destruct (Nat.leb_spec _silero_chunk_size (length front)) as [Hle|Hgt].
    + set (front' := skipn _silero_chunk_size front).
      assert (Hlen' : length front' = (length front - _silero_chunk_size)%nat)
        by (unfold front'; apply length_skipn).
      assert (Hdiv : (length front / _silero_chunk_size
                      = S (length front' / _silero_chunk_size))%nat).
      { rewrite Hlen'.
        replace (length front)
          with (length front - _silero_chunk_size + 1 * _silero_chunk_size)%nat
          at 1 by lia.
        rewrite Nat.div_add by lia. lia. }
      assert (Htail : skipn (_silero_chunk_size
                             * (length front / _silero_chunk_size)) front
                      = skipn (_silero_chunk_size
                               * (length front' / _silero_chunk_size)) front').
      { rewrite Hdiv, Nat.mul_succ_r. unfold front'. rewrite skipn_skipn.
        reflexivity. }
      rewrite Htail.
      rewrite (windows_fuel (length (front ++ rest))
                 (S (length (front' ++ rest))) (front ++ rest)
                 (enough_fuel _)).
      2:{ apply fuel_suffices. rewrite !length_app, Hlen'. lia. }
      rewrite (windows_fuel (length front) (S (length front')) front
                 (enough_fuel _)).
      2:{ apply fuel_suffices. rewrite Hlen'. lia. }
      cbn [windows]. rewrite length_app.
      destruct (Nat.leb_spec _silero_chunk_size (length front + length rest));
        [|lia].
      destruct (Nat.leb_spec _silero_chunk_size (length front)); [|lia].
      rewrite firstn_app, skipn_app.
      replace (_silero_chunk_size - length front)%nat with 0%nat by lia.
      cbn [firstn skipn]. rewrite app_nil_r. fold front'.
      cbn [app]. f_equal. apply IH. lia.
    + rewrite (Nat.div_small (length front)) by lia.
      rewrite Nat.mul_0_r. cbn [skipn].
      rewrite (windows_fuel (length front) 0 front (enough_fuel _))
        by (rewrite Nat.mul_1_r; lia).
      reflexivity.
Qed.

(** What a frame carries over from earlier windows does not steer the
    body: a later utterance replaces [result], the log grows. *)
Definition carry (result : option (list Sample)) (log : list LogRecord)
    (fr : Frame) : Frame :=
  mkFrame (fr_self fr)
    (match fr_result fr with Some u => Some u | None => result end)
    (log ++ fr_log fr).

Lemma classify_carry (now : Q) (chunk : list Sample) (prob : Q)
    (self : SileroVAD) (res : option (list Sample)) (log : list LogRecord) :
  classify now chunk prob self res log
  = carry res log (classify now chunk prob self None []).
Proof.
  unfold classify, finalize_on_silence, carry.
  repeat (break_match; cbn [fr_self fr_result fr_log fst snd app] in * );
    repeat match goal with
      | H : (_, _) = (_, _) |- _ => inversion H; subst; clear H
      end;
    rewrite ?app_nil_r; try reflexivity.
Qed.

Lemma force_emit_carry (now : Q) (res : option (list Sample))
    (log : list LogRecord) (fr : Frame) :
  force_emit now (carry res log fr) = carry res log (force_emit now fr).
Proof.
  destruct fr as [self r l]. unfold force_emit, carry.
  cbn [fr_self fr_result fr_log].
  repeat (break_match; cbn [fr_self fr_result fr_log fst snd app] in * );
    repeat match goal with
      | H : (_, _) = (_, _) |- _ => inversion H; subst; clear H
      end;
    rewrite ?app_assoc; try reflexivity.
Qed.

Lemma loop_body_carry (now : Q) (chunk : list Sample) (self : SileroVAD)
    (res : option (list Sample)) (log : list LogRecord) :
  loop_body now chunk (mkFrame self res log)
  = carry res log (loop_body now chunk (mkFrame self None [])).
Proof.
  unfold loop_body. cbn [fr_self fr_result fr_log].
  destruct (_get_speech_prob self chunk) as [prob self'].
  rewrite classify_carry. apply force_emit_carry.
Qed.

Lemma carry_carry (r1 : option (list Sample)) (l1 : list LogRecord)
    (r2 : option (list Sample)) (l2 : list LogRecord) (fr : Frame) :
  carry r1 l1 (carry r2 l2 fr)
  = carry (match r2 with Some u => Some u | None => r1 end) (l1 ++ l2) fr.
Proof.
  unfold carry. cbn [fr_self fr_result fr_log]. rewrite app_assoc.
  destruct (fr_result fr), r2; reflexivity.
Qed.

Lemma fold_carry (now : Q) (ws : list (list Sample)) :
  forall self res log,
    fold_left (fun fr w => loop_body now w fr) ws (mkFrame self res log)
    = carry res log
        (fold_left (fun fr w => loop_body now w fr) ws (mkFrame self None [])).
Proof.
  induction ws as [|w ws IH]; intros self res log.
  - unfold carry. cbn. rewrite app_nil_r. reflexivity.
  - cbn [fold_left]. rewrite loop_body_carry.
    destruct (loop_body now w (mkFrame self None [])) as [self' r' l'].
    unfold carry at 1. cbn [fr_self fr_result fr_log].
    rewrite IH. rewrite (IH self' r' l'). rewrite carry_carry.
    destruct r'; reflexivity.
Qed.

(** The tail after the last whole window, for a block followed by more
    audio, is the tail of the block's own tail followed by the rest. *)
Lemma tail_app (front rest : list Sample) :
  let tail :=
    skipn (_silero_chunk_size * (length front / _silero_chunk_size)) front in
  skipn (_silero_chunk_size * (length (front ++ rest) / _silero_chunk_size))
        (front ++ rest)
  = skipn (_silero_chunk_size * (length (tail ++ rest) / _silero_chunk_size))
          (tail ++ rest).
Proof.
  pose proof chunk_size_pos as Hcs. cbn zeta.
  set (k := (length front / _silero_chunk_size)%nat).
  set (tail := skipn (_silero_chunk_size * k) front).
  pose proof (Nat.Div0.mul_div_le (length front) _silero_chunk_size) as Hle.
  fold k in Hle.
  assert (Hhead : length (firstn (_silero_chunk_size * k) front)
                  = (_silero_chunk_size * k)%nat)
    by (apply firstn_length_le; exact Hle).
  assert (Hsplit : front ++ rest
                   = firstn (_silero_chunk_size * k) front ++ (tail ++ rest)).
  { rewrite app_assoc. unfold tail. rewrite firstn_skipn. reflexivity. }
  assert (Hlen : length (front ++ rest)
                 = (k * _silero_chunk_size + length (tail ++ rest))%nat).
  { rewrite Hsplit at 1. rewrite length_app, Hhead. lia. }
  rewrite Hlen, Nat.div_add_l by lia.
  rewrite Hsplit at 1. rewrite skipn_app, Hhead.
  rewrite skipn_all2 by (rewrite Hhead; lia).
  cbn [app]. f_equal. lia.
Qed.

(** X26. Where a block is cut does not matter: two calls on [a] and then
    [b] at one clock reading leave the detector in the state of a single
    call on [a ++ b], log the same records in the same order, and return
    the second call's utterance if it has one, the first call's otherwise.
    No sample is lost or read twice at the cut. *)
Theorem process_chunk_split (self : SileroVAD) (now : Q)
    (a b : list Sample) :
  let '(self1, result1, log1) := process_chunk self now a in
  let '(self2, result2, log2) := process_chunk self1 now b in
  process_chunk self now (a ++ b)
  = (self2,
     match result2 with Some u => Some u | None => result1 end,
     log1 ++ log2).
Proof.
  rewrite (process_chunk_unfold self now a). cbn zeta.
  set (front := _leftover self ++ a).
  set (fr0 := mkFrame (set_leftover [] self) None []).
  assert (Hlo : _leftover (fr_self (snd (while_loop (length front) now front 0
                                           fr0))) = []).
  { apply (while_loop_invariant
             (fun _ fr => _leftover (fr_self fr) = []) now front);
      [|reflexivity].
    intros pos fr _. apply loop_body_leftover. }
  rewrite while_loop_fold in *. cbn [skipn] in *.
  set (step := fun fr w => loop_body now w fr) in *.
  destruct (fold_left step (windows (length front) front) fr0)
    as [mid result1 log1] eqn:Efront.
  cbn [fr_self fr_result fr_log] in *.
  rewrite (process_chunk_unfold (store_leftover front mid) now b). cbn zeta.
  assert (Hmid : set_leftover [] (store_leftover front mid) = mid).
  { unfold store_leftover. rewrite <- Hlo. destruct mid; reflexivity. }
  rewrite Hmid.
  change (_leftover (store_leftover front mid))
    with (skipn (_silero_chunk_size * (length front / _silero_chunk_size))
            front).
  set (tail := skipn (_silero_chunk_size * (length front / _silero_chunk_size))
                 front).
  rewrite while_loop_fold. cbn [skipn]. fold step.
  rewrite (process_chunk_unfold self now (a ++ b)). cbn zeta.
  rewrite app_assoc. fold front. fold fr0.
  rewrite while_loop_fold. cbn [skipn]. fold step.
  rewrite (windows_app (length front) front b (le_n _)).
  fold tail. rewrite fold_left_app, Efront.
  rewrite (fold_carry now (windows (length (tail ++ b)) (tail ++ b))
             mid result1 log1 : fold_left step _ _ = _).
  fold step.
  destruct (fold_left step (windows (length (tail ++ b)) (tail ++ b))
              (mkFrame mid None [])) as [self2 result2 log2].
  unfold carry. cbn [fr_self fr_result fr_log].
  unfold store_leftover. rewrite (tail_app front b). fold tail.
  reflexivity.
Qed.

(** *** Brief pauses, read off the chunk sequence *)

(** The score of a window and the model after it: what
    [_get_speech_prob] obtains, on the model alone. *)
Definition score (m : option Model) (chunk : list Sample)
  : Q * option Model :=
  match m with
  | Some m =>
      let '(prob, m') := model_call m chunk config.SAMPLE_RATE in
      (prob, Some m')
  | None => (energy_prob chunk, None)
  end.

Fixpoint score_all (m : option Model) (ws : list (list Sample))
  : list Q * option Model :=
  match ws with
  | [] => ([], m)
  | w :: ws' =>
      let '(prob, m') := score m w in
      let '(probs, m'') := score_all m' ws' in
      (prob :: probs, m'')
  end.

(** The tail that a call leaves for the next one. *)
Definition tail_of (audio : list Sample) : list Sample :=
  skipn (_silero_chunk_size * (length audio / _silero_chunk_size)) audio.

(** What a chunk sequence is to the detector: the audio is [leftover]
    followed by the chunks, cut into windows of 512 samples; a window is
    scored in the call that completes it, at the clock reading of that
    call. The list holds, for every window in order, that clock reading
    and the score. *)
Fixpoint scored_windows (m : option Model) (leftover : list Sample)
    (calls : list (Q * list Sample)) : list (Q * Q) :=
  match calls with
  | [] => []
  | (now, audio_chunk) :: calls' =>
      let audio := leftover ++ audio_chunk in
      let '(probs, m') := score_all m (windows (length audio) audio) in
      map (fun prob => (now, prob)) probs
      ++ scored_windows m' (tail_of audio) calls'
  end.

(** A pause is a run of windows under the threshold; [pause] is the clock
    reading of its first window, [None] after a window of speech. *)
Definition pause_step (pause : option Q) (now prob : Q) : option Q :=
  if Qge_bool prob config.VAD_THRESHOLD then None
  else match pause with
       | None => Some now
       | Some t => Some t
       end.

(** A window under the threshold comes less than [VAD_MIN_SILENCE_MS]
    after the first window of its pause. *)
Definition brief_step (pause : option Q) (now prob : Q) : bool :=
  if Qge_bool prob config.VAD_THRESHOLD then true
  else match pause with
       | None => true
       | Some t =>
           Qlt_bool ((now - t) * 1000) (inject_Z config.VAD_MIN_SILENCE_MS)
       end.

(** Every pause of the sequence stays shorter than
    [VAD_MIN_SILENCE_MS]. *)
Fixpoint pauses_brief (pause : option Q) (scored : list (Q * Q)) : bool :=
  match scored with
  | [] => true
  | (now, prob) :: rest =>
      brief_step pause now prob
      && pauses_brief (pause_step pause now prob) rest
  end.

Fixpoint pause_after (pause : option Q) (scored : list (Q * Q)) : option Q :=
  match scored with
  | [] => pause
  | (now, prob) :: rest => pause_after (pause_step pause now prob) rest
  end.

(** Every window is scored less than [MAX_SPEECH_DURATION_S] after the
    start of speech. *)
Definition within_max_duration (speech_start : option Q)
    (scored : list (Q * Q)) : bool :=
  match speech_start with
  | None => true
  | Some t =>
      forallb (fun s => Qlt_bool (fst s - t) config.MAX_SPEECH_DURATION_S)
              scored
  end.

Lemma pauses_brief_app (scored1 scored2 : list (Q * Q)) :
  forall pause,
    pauses_brief pause (scored1 ++ scored2)
    = pauses_brief pause scored1
      && pauses_brief (pause_after pause scored1) scored2.
Proof.
  induction scored1 as [|[now prob] rest IH]; intros pause; [reflexivity|].
  cbn [app pauses_brief pause_after]. rewrite IH, andb_assoc. reflexivity.
Qed.

Lemma within_max_duration_app (speech_start : option Q)
    (scored1 scored2 : list (Q * Q)) :
  within_max_duration speech_start (scored1 ++ scored2)
  = within_max_duration speech_start scored1
    && within_max_duration speech_start scored2.
Proof.
  unfold within_max_duration. destruct speech_start; [|reflexivity].
  apply forallb_app.
Qed.

Lemma _get_speech_prob_score (self : SileroVAD) (chunk : list Sample) :
  _get_speech_prob self chunk
  = (fst (score (model self) chunk),
     set_model (snd (score (model self) chunk)) self).
Proof.
  unfold _get_speech_prob, score. destruct self as [[m|] buf sp sil st lo]; cbn.
  - destruct (model_call m chunk config.SAMPLE_RATE). reflexivity.
  - reflexivity.
Qed.

(** One window, while speaking, in a brief pause or none, with the force
    emit not due: the window is appended, the silence timer follows the
    pause, and nothing else happens. *)
Lemma loop_body_paused (now : Q) (chunk : list Sample) (fr : Frame) :
  let self := fr_self fr in
  let prob := fst (score (model self) chunk) in
  _is_speaking self = true ->
  brief_step (_silence_start self) now prob = true ->
  within_max_duration (_speech_start self) [(now, prob)] = true ->
  let fr' := loop_body now chunk fr in
  _is_speaking (fr_self fr') = true /\
  model (fr_self fr') = snd (score (model self) chunk) /\
  _silence_start (fr_self fr') = pause_step (_silence_start self) now prob /\
  _speech_start (fr_self fr') = _speech_start self /\
  _speech_buffer (fr_self fr') = _speech_buffer self ++ [chunk] /\
  _leftover (fr_self fr') = _leftover self /\
  fr_result fr' = fr_result fr /\ fr_log fr' = fr_log fr.
Proof.
  cbn zeta. intros Hsp Hbrief Hmax. unfold loop_body.
  rewrite _get_speech_prob_score.
  set (prob := fst (score (model (fr_self fr)) chunk)) in *.
  set (m' := snd (score (model (fr_self fr)) chunk)).
  destruct fr as [[m buf sp sil st lo] res log].
  cbn [fr_self fr_result fr_log _is_speaking _silence_start _speech_start
       _speech_buffer _leftover model] in *.
  subst sp. clearbody prob m'.
  unfold brief_step, pause_step in *. unfold within_max_duration in Hmax.
  unfold classify, set_model; cbn.
  destruct (Qge_bool prob config.VAD_THRESHOLD); cbn.
  - unfold force_emit; cbn. destruct st as [t|]; [|repeat split].
    cbn in Hmax. rewrite andb_true_r, Qlt_bool_ge_bool in Hmax.
    apply negb_true_iff in Hmax. rewrite Hmax. repeat split.
  - destruct sil as [q|]; cbn.
    + pose proof Hbrief as Hge. rewrite Qlt_bool_ge_bool in Hge.
      apply negb_true_iff in Hge. rewrite Hge.
      unfold force_emit; cbn. destruct st as [t|]; [|repeat split].
      cbn in Hmax. rewrite andb_true_r, Qlt_bool_ge_bool in Hmax.
      apply negb_true_iff in Hmax. rewrite Hmax. repeat split.
    + unfold force_emit; cbn. destruct st as [t|]; [|repeat split].
      cbn in Hmax. rewrite andb_true_r, Qlt_bool_ge_bool in Hmax.
      apply negb_true_iff in Hmax. rewrite Hmax. repeat split.
Qed.

(** The same over the windows of one call. *)
Lemma fold_loop_body_paused (now : Q) (ws : list (list Sample)) :
  forall fr : Frame,
    let self := fr_self fr in
    let scored :=
      map (fun prob => (now, prob)) (fst (score_all (model self) ws)) in
    _is_speaking self = true ->
    pauses_brief (_silence_start self) scored = true ->
    within_max_duration (_speech_start self) scored = true ->
    let fr' := fold_left (fun fr w => loop_body now w fr) ws fr in
    _is_speaking (fr_self fr') = true /\
    model (fr_self fr') = snd (score_all (model self) ws) /\
    _silence_start (fr_self fr') = pause_after (_silence_start self) scored /\
    _speech_start (fr_self fr') = _speech_start self /\
    _speech_buffer (fr_self fr') = _speech_buffer self ++ ws /\
    _leftover (fr_self fr') = _leftover self /\
    fr_result fr' = fr_result fr /\ fr_log fr' = fr_log fr.
Proof.
  induction ws as [|w ws IH]; intros fr; cbn zeta.
  - intros Hsp _ _. cbn. rewrite app_nil_r. repeat split. exact Hsp.
  - cbn [score_all fold_left].
    destruct (score (model (fr_self fr)) w) as [prob m'] eqn:Es.
    destruct (score_all m' ws) as [probs m''] eqn:Ea.
    cbn [fst snd map pauses_brief pause_after]. intros Hsp Hbrief Hmax.
    apply andb_true_iff in Hbrief. destruct Hbrief as [Hb1 Hb2].
    change ((now, prob) :: map (fun prob0 => (now, prob0)) probs)
      with ([(now, prob)] ++ map (fun prob0 => (now, prob0)) probs) in Hmax.
    rewrite within_max_duration_app in Hmax.
    apply andb_true_iff in Hmax. destruct Hmax as [Hm1 Hm2].
    pose proof (loop_body_paused now w fr) as Hstep. cbn zeta in Hstep.
    rewrite Es in Hstep. cbn [fst snd] in Hstep.
    specialize (Hstep Hsp Hb1 Hm1).
    destruct Hstep as (K1 & K2 & K3 & K4 & K5 & K6 & K7 & K8).
    specialize (IH (loop_body now w fr)). cbn zeta in IH.
    rewrite K2, Ea, K3, K4 in IH. cbn [fst snd] in IH.
    specialize (IH K1 Hb2 Hm2).
    destruct IH as (I1 & I2 & I3 & I4 & I5 & I6 & I7 & I8).
    repeat split; try assumption; try congruence.
    rewrite I5, K5, <- app_assoc. reflexivity.
Qed.

(** The windows of a block and its tail make up the block. *)
Lemma concat_windows (n : nat) :
  forall audio : list Sample,
    (length audio <= n)%nat ->
    concat (windows (length audio) audio) ++ tail_of audio = audio.
Proof.
  pose proof chunk_size_pos as Hcs. unfold tail_of.
  induction n as [|n IH]; intros audio Hn.
  - destruct audio; [|cbn in Hn; lia]. reflexivity.
  - destruct (Nat.leb_spec _silero_chunk_size (length audio)) as [Hle|Hgt].
    + set (rest := skipn _silero_chunk_size audio).
      assert (Hlen' : length rest = (length audio - _silero_chunk_size)%nat)
        by (unfold rest; apply length_skipn).
      assert (Hdiv : (length audio / _silero_chunk_size
                      = S (length rest / _silero_chunk_size))%nat).
      { rewrite Hlen'.
        replace (length audio)
          with (length audio - _silero_chunk_size + 1 * _silero_chunk_size)%nat
          at 1 by lia.
        rewrite Nat.div_add by lia. lia. }
      assert (Htail : skipn (_silero_chunk_size
                             * (length audio / _silero_chunk_size)) audio
                      = skipn (_silero_chunk_size
                               * (length rest / _silero_chunk_size)) rest).
      { rewrite Hdiv, Nat.mul_succ_r. unfold rest. rewrite skipn_skipn.
        reflexivity. }
      rewrite Htail.
      rewrite (windows_fuel (length audio) (S (length rest)) audio
                 (enough_fuel _))
        by (apply fuel_suffices; rewrite Hlen'; lia).
      cbn [windows].
      destruct (Nat.leb_spec _silero_chunk_size (length audio)); [|lia].
      fold rest. cbn [concat]. rewrite <- app_assoc, IH by lia.
      apply firstn_skipn.
    + rewrite (Nat.div_small (length audio)) by lia.
      rewrite Nat.mul_0_r. cbn [skipn].
      rewrite (windows_fuel (length audio) 0 audio (enough_fuel _))
        by (rewrite Nat.mul_1_r; lia).
      reflexivity.
Qed.

(** One call, while speaking, on a chunk whose windows keep the pauses
    brief and the force emit not due. *)
Lemma process_chunk_paused (self : SileroVAD) (now : Q)
    (audio_chunk : list Sample) :
  let audio := _leftover self ++ audio_chunk in
  let ws := windows (length audio) audio in
  let scored :=
    map (fun prob => (now, prob)) (fst (score_all (model self) ws)) in
  _is_speaking self = true ->
  pauses_brief (_silence_start self) scored = true ->
  within_max_duration (_speech_start self) scored = true ->
  let '(self', result, log) := process_chunk self now audio_chunk in
  result = None /\ log = [] /\
  _is_speaking self' = true /\
  model self' = snd (score_all (model self) ws) /\
  _silence_start self' = pause_after (_silence_start self) scored /\
  _speech_start self' = _speech_start self /\
  _speech_buffer self' = _speech_buffer self ++ ws /\
  _leftover self' = tail_of audio.
Proof.
  cbn zeta. intros Hsp Hbrief Hmax.
  rewrite process_chunk_unfold. cbn zeta.
  set (audio := _leftover self ++ audio_chunk) in *.
  rewrite while_loop_fold. cbn [skipn].
  pose proof (fold_loop_body_paused now (windows (length audio) audio)
                (mkFrame (set_leftover [] self) None [])) as H.
  cbn zeta in H. cbn [fr_self fr_result fr_log] in H.
  change (model (set_leftover [] self)) with (model self) in H.
  change (_silence_start (set_leftover [] self))
    with (_silence_start self) in H.
  change (_speech_start (set_leftover [] self)) with (_speech_start self) in H.
  change (_speech_buffer (set_leftover [] self))
    with (_speech_buffer self) in H.
  specialize (H Hsp Hbrief Hmax).
  destruct H as (I1 & I2 & I3 & I4 & I5 & _ & I7 & I8).
  unfold store_leftover. fold (tail_of audio).
  repeat split; assumption.
Qed.


End SileroVAD.

Arguments process_chunk {Sample Model}.
Arguments feed {Sample Model}.
Arguments init {Sample Model}.
Arguments duration_of {Sample}.

(** *** Concrete runs

    Samples are full-scale ([true], amplitude 1.0) or zero ([false]); no
    torch model is loaded, so the energy fallback scores the windows: a
    window of full-scale samples has energy 1 and scores [min(20, 1) = 1],
    a window of zeros scores 0. *)

Definition energy_of_levels (chunk : list bool) : Q :=
  if forallb (fun loud => loud) chunk then 1 else 0.

Definition no_model_call (m : unit) (_ : list bool) (_ : Z) : Q * unit := (0, m).

Definition run_process_chunk :=
  process_chunk no_model_call (fun m : unit => m) energy_of_levels.

Definition run_feed :=
  feed no_model_call (fun m : unit => m) energy_of_levels.

(** Speech arriving in real time: call [k] comes at [0.03 * k] seconds with
    the 480 samples of one 30 ms block ([CHUNK_DURATION_MS]). *)
Definition paced_speech (calls : nat) : list (Q * list bool) :=
  map (fun k => (inject_Z (Z.of_nat k) * (3 # 100), repeat true 480))
      (seq 1 calls).

(** C1, counterexample. 502 blocks of speech fed in real time: the first
    window is scored in call 2, at 0.06 s, which starts the speech timer;
    call 502, at 15.06 s, scores window 470, appends it, and the force emit
    fires on an elapsed time of 15.0 s. The utterance it returns holds
    470 * 512 = 240640 samples, 15.04 s, more than
    [MAX_SPEECH_DURATION_S]. *)
Lemma paced_speech_overruns_max_duration :
  exists u log,
    nth_error (snd (run_feed init (paced_speech 502))) 501 = Some (Some u, log)
    /\ Z.of_nat (length u) = 240640%Z
    /\ (config.MAX_SPEECH_DURATION_S < duration_of u)%Q.
Proof.
  assert (H : match nth_error (snd (run_feed init (paced_speech 502))) 501 with
              | Some (Some u, _) =>
                  Z.of_nat (length u) = 240640%Z /\
                  (config.MAX_SPEECH_DURATION_S < duration_of u)%Q
              | _ => False
              end).
  { vm_compute. split; reflexivity. }
  destruct (nth_error (snd (run_feed init (paced_speech 502))) 501)
    as [[[u|] log]|]; try contradiction.
  exists u, log. split; [reflexivity|exact H].
Qed.

(** The detector after one window of speech scored at time 0. *)
Definition speaking_since_0 : SileroVAD bool unit :=
  fst (fst (run_process_chunk init 0 (repeat true 512))).

Arguments scored_windows {Sample Model}.



Arguments window_at {Sample}.
Arguments reset {Sample Model}.
Arguments set_leftover {Sample Model}.

(** Every window of a block of zeros scores 0 with the energy fallback. *)
Lemma zeros_score_nothing (n pos : nat) :
  (pos + 512 <= length (repeat false n))%nat ->
  (energy_of_levels (window_at (repeat false n) pos) < config.VAD_THRESHOLD)%Q.
Proof.
  intros Hpos. unfold energy_of_levels.
  pose proof (length_window_at bool (repeat false n) pos Hpos) as Hlen.
  destruct (window_at (repeat false n) pos) as [|b w] eqn:E;
    [discriminate Hlen|].
  assert (Hb : In b (repeat false n)).
  { unfold window_at in E.
    rewrite <- (firstn_skipn pos (repeat false n)). apply in_or_app. right.
    rewrite <- (firstn_skipn _silero_chunk_size (skipn pos (repeat false n))).
    apply in_or_app. left. rewrite E. now left. }
  apply repeat_spec in Hb. subst b. reflexivity.
Qed.

(** A new detector fed five chunks of speech of uneven sizes, then silence
    half a second and a second later. *)
Lemma utterances_are_whole_windows_witness :
  let calls := [(0, repeat true 480); (3 # 100, repeat true 4000);
                (6 # 100, repeat true 4000); (9 # 100, repeat true 700);
                (5 # 10, repeat false 600); (15 # 10, repeat false 600)] in
  Forall (fun out =>
            match fst out with
            | Some u => exists k, (0 < k)%nat /\ length u = (512 * k)%nat
            | None => True
            end) (snd (run_feed init calls)) /\
  exists u log, nth_error (snd (run_feed init calls)) 5 = Some (Some u, log)
                /\ length u = (512 * 20)%nat.
Proof.
  cbn zeta. split.
  - apply (utterances_are_whole_windows bool unit no_model_call (fun m => m)
             energy_of_levels init).
    constructor.
  - assert (H : match nth_error
                        (snd (run_feed init
                                [(0, repeat true 480);
                                 (3 # 100, repeat true 4000);
                                 (6 # 100, repeat true 4000);
                                 (9 # 100, repeat true 700);
                                 (5 # 10, repeat false 600);
                                 (15 # 10, repeat false 600)])) 5 with
                | Some (Some u, _) => length u = (512 * 20)%nat
                | _ => False
                end) by (vm_compute; reflexivity).
    destruct (nth_error _ 5) as [[[u|] log]|]; try contradiction.
    exists u, log. split; [reflexivity|exact H].
Defined.



(** One window of speech is buffered since 0 s; at 15 s comes another. The
    utterance has 1024 samples, 64 ms. *)
Lemma force_emit_returns_buffer_witness :
  snd (fst (run_process_chunk speaking_since_0 15 (repeat true 512)))
  = Some (repeat true 1024).
Proof.
  unfold run_process_chunk.
  rewrite (force_emit_returns_buffer bool unit no_model_call (fun m => m)
             energy_of_levels speaking_since_0 15 (repeat true 512) 0).
  - vm_compute. reflexivity.
  - vm_compute. reflexivity.
  - vm_compute. reflexivity.
  - vm_compute. discriminate.
  - vm_compute. reflexivity.
  - apply Nat.leb_le. vm_compute. reflexivity.
Defined.

End silero_vad.

(** ** Bounded queues and the event loop

    [asyncio.Queue] and [queue.Queue] behave alike on the operations used
    here: [full()] is false for a queue without bound ([maxsize <= 0]),
    otherwise it compares the size with [maxsize]; [put_nowait] raises on a
    full queue and appends otherwise. *)

Module pyqueue.

Record Queue (A : Type) : Type := mkQueue {
  maxsize : Z;
  items : list A
}.
Arguments mkQueue {A}.
Arguments maxsize {A}.
Arguments items {A}.

(** [QueueFull] of asyncio, [Full] of queue. *)
Inductive QueueFull : Type := QueueFull_raised.

Definition qsize {A} (q : Queue A) : Z := Z.of_nat (length (items q)).

Definition full {A} (q : Queue A) : bool :=
  if (maxsize q <=? 0)%Z then false else (maxsize q <=? qsize q)%Z.

Definition put_nowait {A} (q : Queue A) (item : A) : QueueFull + Queue A :=
  if full q then inl QueueFull_raised
  else inr (mkQueue (maxsize q) (items q ++ [item])).

(** The event loop as the capture callbacks see it: the callbacks handed to
    [call_soon_threadsafe] wait in [ready]; a closed loop raises
    [RuntimeError]. Every callback scheduled here is a [_safe_put] closure,
    which is determined by the chunk bound to its default argument. *)
Record EventLoop (A : Type) : Type := mkEventLoop {
  closed : bool;
  ready : list A
}.
Arguments mkEventLoop {A}.
Arguments closed {A}.
Arguments ready {A}.

Inductive RuntimeError : Type := RuntimeError_raised.

Definition call_soon_threadsafe {A} (loop : EventLoop A) (callback : A)
  : RuntimeError + EventLoop A :=
  if closed loop then inl RuntimeError_raised
  else inr (mkEventLoop (closed loop) (ready loop ++ [callback])).

(** [_safe_put], the closure both capture callbacks define. *)
Definition _safe_put {A} (audio_queue : Queue A) (chunk : A) : Queue A :=
  if negb (full audio_queue) then
    match put_nowait audio_queue chunk with
    | inr q => q
    | inl QueueFull_raised => audio_queue
    end
  else audio_queue.

(** [try: self.loop.call_soon_threadsafe(_safe_put) except RuntimeError: pass] *)
Definition schedule_put {A} (loop : EventLoop A) (chunk : A) : EventLoop A :=
  match call_soon_threadsafe loop chunk with
  | inr loop' => loop'
  | inl RuntimeError_raised => loop
  end.

(** The loop thread runs the waiting callbacks, oldest first. *)
Definition run_ready {A} (loop : EventLoop A) (audio_queue : Queue A)
  : EventLoop A * Queue A :=
  (mkEventLoop (closed loop) [], fold_left _safe_put (ready loop) audio_queue).

Lemma _safe_put_full {A} (q : Queue A) (chunk : A) :
  full q = true -> _safe_put q chunk = q.
Proof. unfold _safe_put. intros ->. reflexivity. Qed.

Lemma run_ready_full {A} (chunks : list A) (q : Queue A) :
  full q = true -> fold_left _safe_put chunks q = q.
Proof.
  intros Hfull. induction chunks as [|c chunks IH]; cbn.
  - reflexivity.
  - rewrite (_safe_put_full q c Hfull). exact IH.
Qed.

End pyqueue.

(** ** Blocks handed to the capture callbacks

    [indata] is a frames-by-channels array; the streams are opened with at
    least one channel, so a row is its first sample and the others. *)

Module indata.

Definition t : Type := list (Q * list Q).

(** [indata.shape[1]] *)
Definition shape1 (indata : t) : nat :=
  match indata with
  | [] => 1%nat
  | (_, others) :: _ => S (length others)
  end.

(** [indata.mean(axis=1)] *)
Definition mean_axis1 (indata : t) : list Q :=
  map (fun row =>
         (fold_left Qplus (snd row) (fst row))
         / inject_Z (Z.of_nat (S (length (snd row)))))
      indata.

(** [indata[:, 0].copy()] *)
Definition column0 (indata : t) : list Q := map fst indata.

(** The mono conversion of the loopback callbacks. *)
Definition to_mono (indata : t) : list Q :=
  if (1 <? shape1 indata)%nat then mean_axis1 indata else column0 indata.

End indata.

(** ** numpy and builtins used by the resampling step *)

Module numpy.

(** [int(x)] on a float: truncation toward zero. *)
Definition py_int (x : Q) : Z := Z.quot (Qnum x) (Zpos (Qden x)).

(** [round(x)] on a float: to the nearest integer, ties to the even one. *)
Definition py_round (x : Q) : Z :=
  let lower := Qfloor x in
  let twice_frac := (2 * (x - inject_Z lower))%Q in
  if Qlt_bool twice_frac 1 then lower
  else if Qlt_bool 1 twice_frac then (lower + 1)%Z
  else if Z.even lower then lower else (lower + 1)%Z.

(** *** Double precision

    A float operation returns the double nearest to its exact result. The
    53 bits of the mantissa are modelled, the range of the exponent is not:
    the numbers rounded here are sample rates, their quotients, and counts
    of samples, far inside it. *)

(** The binary exponent of a positive number: the [e] with
    [2^e <= x < 2^(e+1)]. *)
Definition exponent (x : Q) : Z :=
  let e0 := (Z.log2 (Qnum x) - Z.log2 (Zpos (Qden x)))%Z in
  if Qle_bool (2 ^ e0) x then e0 else (e0 - 1)%Z.

(** A positive number rounded to 53 significant bits, to the nearest, ties
    to the even mantissa. *)
Definition round53 (x : Q) : Q :=
  let e := exponent x in
  inject_Z (py_round (x * 2 ^ (52 - e))) * 2 ^ (e - 52).

(** The double nearest to [x]. *)
Definition float64 (x : Q) : Q :=
  if Qlt_bool 0 x then round53 x
  else if Qlt_bool x 0 then - round53 (- x)
  else 0.


(** [np.linspace] refuses a negative count. *)
Inductive ValueError : Type := ValueError_raised.

(** [np.arange(n)] *)
Definition arange (n : nat) : list Q :=
  map (fun i => inject_Z (Z.of_nat i)) (seq 0 n).

(** [np.linspace(start, stop, num)]: [num] evenly spaced points from
    [start] to [stop], both included. *)
Definition linspace (start stop : Q) (num : nat) : list Q :=
  match num with
  | 0%nat => []
  | 1%nat => [start]
  | _ =>
      let step := ((stop - start) / inject_Z (Z.of_nat (num - 1)))%Q in
      map (fun i => (start + inject_Z (Z.of_nat i) * step)%Q) (seq 0 num)
  end.

(** [np.interp(x, xp, fp)] at one point [x], for increasing [xp]: the value
    of the piecewise linear function through the points [(xp[i], fp[i])],
    constant outside of them. *)
Fixpoint interp1 (x : Q) (xp fp : list Q) : Q :=
  match xp, fp with
  | x0 :: xp', y0 :: fp' =>
      match xp', fp' with
      | x1 :: _, y1 :: _ =>
          if Qle_bool x x0 then y0
          else if Qlt_bool x x1
               then (y0 + (y1 - y0) / (x1 - x0) * (x - x0))%Q
               else interp1 x xp' fp'
      | _, _ => y0
      end
  | _, _ => 0%Q
  end.

Definition interp (x xp fp : list Q) : list Q :=
  map (fun xi => interp1 xi xp fp) x.

(** [np.linspace(start, stop, num)] called with an integer [num]:
    "Number of samples, %s, must be non-negative" for a negative one. *)
Definition linspace_checked (start stop : Q) (num : Z)
  : ValueError + list Q :=
  if (num <? 0)%Z then inl ValueError_raised
  else inr (linspace start stop (Z.to_nat num)).

Lemma length_arange (n : nat) : length (arange n) = n.
Proof. unfold arange. now rewrite length_map, length_seq. Qed.

Lemma length_linspace (start stop : Q) (num : nat) :
  length (linspace start stop num) = num.
Proof.
  unfold linspace. destruct num as [|[|num]]; try reflexivity.
  now rewrite length_map, length_seq.
Qed.

Lemma length_interp (x xp fp : list Q) : length (interp x xp fp) = length x.
Proof. unfold interp. apply length_map. Qed.

(** The broken line through the points [(offset + i, fp[i])], by the
    usual formula: with [i] the index at or below [x], the value is
    [fp[i] + (fp[i+1] - fp[i]) * (x - i)], and [fp[-1]] from the last index
    on. *)
Definition lerp_from (offset : Z) (fp : list Q) (x : Q) : Q :=
  let i := Z.to_nat (Qfloor x - offset) in
  if (S i <? length fp)%nat
  then (nth i fp 0 + (nth (S i) fp 0 - nth i fp 0) * (x - inject_Z (Qfloor x)))%Q
  else last fp 0%Q.

(** Linear interpolation over the sample index space [0, 1, ..]. *)
Definition lerp (fp : list Q) (x : Q) : Q := lerp_from 0 fp x.

Lemma Qfloor_unique (x : Q) (z : Z) :
  (inject_Z z <= x)%Q -> (x < inject_Z (z + 1))%Q -> Qfloor x = z.
Proof.
  intros Hlo Hhi.
  pose proof (Qfloor_le x) as Hfl. pose proof (Qlt_floor x) as Hfu.
  assert (H1 : (inject_Z (Qfloor x) < inject_Z (z + 1))%Q) by lra.
  assert (H2 : (inject_Z z < inject_Z (Qfloor x + 1))%Q) by lra.
  rewrite <- Zlt_Qlt in H1, H2. lia.
Qed.

Lemma inject_Z_succ (i : nat) :
  inject_Z (Z.of_nat (S i)) = (inject_Z (Z.of_nat i) + 1)%Q.
Proof.
  rewrite Nat2Z.inj_succ, <- Z.add_1_r, inject_Z_plus. reflexivity.
Qed.

(** [interp1] on the grid [offset, offset + 1, ..] is [lerp_from]. *)
Lemma interp1_on_grid (fp : list Q) :
  forall (offset : nat) (x : Q),
    fp <> [] ->
    (inject_Z (Z.of_nat offset) <= x)%Q ->
    (interp1 x (map (fun i => inject_Z (Z.of_nat i)) (seq offset (length fp))) fp
     == lerp_from (Z.of_nat offset) fp x)%Q.
Proof.
  induction fp as [|y0 fp IH]; intros offset x Hne Hlo; [contradiction|].
  destruct fp as [|y1 rest].
  - cbn. unfold lerp_from. cbn [length last].
    destruct (Nat.ltb_spec (S (Z.to_nat (Qfloor x - Z.of_nat offset))) 1);
      [lia|reflexivity].
  - cbn [length seq map interp1].
    destruct (Qle_bool x (inject_Z (Z.of_nat offset))) eqn:Ele.
    + apply Qle_bool_iff in Ele.
      assert (Hx : (x == inject_Z (Z.of_nat offset))%Q) by lra.
      assert (Hfl : Qfloor x = Z.of_nat offset).
      { rewrite Hx. apply Qfloor_Z. }
      unfold lerp_from. rewrite Hfl, Z.sub_diag. cbn. rewrite Hx. ring.
    + assert (Hgt : (inject_Z (Z.of_nat offset) < x)%Q).
      { apply (proj1 (Qge_bool_false (inject_Z (Z.of_nat offset)) x)).
        exact Ele. }
      destruct (Qlt_bool x (inject_Z (Z.of_nat (S offset)))) eqn:Elt.
      * apply Qlt_bool_true in Elt.
        assert (Hfl : Qfloor x = Z.of_nat offset).
        { apply Qfloor_unique; [lra|].
          rewrite Nat2Z.inj_succ, <- Z.add_1_r in Elt. exact Elt. }
        unfold lerp_from. rewrite Hfl, Z.sub_diag. cbn [Z.to_nat length].
        cbn [Nat.ltb Nat.leb nth]. rewrite inject_Z_succ. field. lra.
      * apply Qlt_bool_false in Elt.
        rewrite (IH (S offset) x); [|discriminate|exact Elt].
        assert (Hfl : (Z.of_nat (S offset) <= Qfloor x)%Z).
        { rewrite <- (Qfloor_Z (Z.of_nat (S offset))).
          apply Qfloor_resp_le. exact Elt. }
        unfold lerp_from.
        replace (Z.to_nat (Qfloor x - Z.of_nat offset))
          with (S (Z.to_nat (Qfloor x - Z.of_nat (S offset)))) by lia.
        set (i := Z.to_nat (Qfloor x - Z.of_nat (S offset))).
        change (length (y0 :: y1 :: rest)) with (S (length (y1 :: rest))).
        change (S (S i) <? S (length (y1 :: rest)))%nat
          with (S i <? length (y1 :: rest))%nat.
        destruct (S i <? length (y1 :: rest))%nat; reflexivity.
Qed.

Lemma interp1_arange (fp : list Q) (x : Q) :
  fp <> [] -> (0 <= x)%Q ->
  (interp1 x (arange (length fp)) fp == lerp fp x)%Q.
Proof.
  intros Hne Hx. unfold arange, lerp.
  apply (interp1_on_grid fp 0%nat x Hne). exact Hx.
Qed.

(** The points of [linspace] from 0 to a non-negative [stop] are not
    negative. *)
Lemma linspace_nonneg (stop : Q) (num : nat) :
  (0 <= stop)%Q -> Forall (fun x => (0 <= x)%Q) (linspace 0 stop num).
Proof.
  intros Hstop. unfold linspace. destruct num as [|[|num]].
  - constructor.
  - constructor; [lra|constructor].
  - apply Forall_forall. intros x Hin. apply in_map_iff in Hin.
    destruct Hin as (i & <- & _).
    assert (H1 : (0 <= inject_Z (Z.of_nat i))%Q).
    { change 0%Q with (inject_Z 0). rewrite <- Zle_Qle. lia. }
    assert (H2 : (0 <= (stop - 0) / inject_Z (Z.of_nat (S (S num) - 1)))%Q).
    { apply Qle_shift_div_l.
      - change 0%Q with (inject_Z 0). rewrite <- Zlt_Qlt. lia.
      - lra. }
    pose proof (Qmult_le_0_compat _ _ H1 H2). lra.
Qed.

(** *** Rounding to double precision *)

(** The doubles of Python for some quotients: [0.1], and the ratios of
    devices at 3.9 kHz, 48 kHz and 44.1 kHz; two integers above [2^53],
    rounded to the even neighbour. *)
Lemma float64_examples :
  float64 (1 # 10) == 3602879701896397 # 36028797018963968 /\
  float64 (16000 # 3900) == 288692283805801 # 70368744177664 /\
  float64 (16000 # 48000) == 6004799503160661 # 18014398509481984 /\
  float64 (16000 # 44100) == 3267918096958183 # 9007199254740992 /\
  float64 (inject_Z (2 ^ 53 + 1)) == inject_Z (2 ^ 53) /\
  float64 (inject_Z (2 ^ 53 + 3)) == inject_Z (2 ^ 53 + 4).
Proof. vm_compute. repeat split. Qed.

Lemma pow2_pos (k : Z) : 0 < 2 ^ k.
Proof. apply Qpower_0_lt. reflexivity. Qed.

Lemma pow2_plus (a b : Z) : 2 ^ (a + b) == 2 ^ a * 2 ^ b.
Proof. apply Qpower_plus. discriminate. Qed.

Lemma pow2_inject (k : Z) : (0 <= k)%Z -> 2 ^ k == inject_Z (2 ^ k).
Proof. intros Hk. rewrite Zpower_Qpower by exact Hk. reflexivity. Qed.

Lemma Qlt_bool_comp (a b c d : Q) :
  a == b -> c == d -> Qlt_bool a c = Qlt_bool b d.
Proof. intros H1 H2. unfold Qlt_bool. rewrite H1, H2. reflexivity. Qed.

(** [exponent] brackets a positive number between two powers of two. *)
Lemma exponent_spec (x : Q) :
  0 < x -> 2 ^ exponent x <= x /\ x < 2 ^ (exponent x + 1).
Proof.
  intros Hx. destruct x as [a b]. unfold exponent. cbn [Qnum Qden].
  assert (Ha : (0 < a)%Z).
  { unfold Qlt in Hx. cbn in Hx. lia. }
  set (la := Z.log2 a). set (lb := Z.log2 (Z.pos b)).
  pose proof (Z.log2_spec a Ha) as [Ha1 Ha2].
  pose proof (Z.log2_spec (Z.pos b) ltac:(lia)) as [Hb1 Hb2].
  pose proof (Z.log2_nonneg a) as Hla. pose proof (Z.log2_nonneg (Z.pos b)) as Hlb.
  fold la in Ha1, Ha2, Hla. fold lb in Hb1, Hb2, Hlb.
  rewrite <- Z.add_1_r in Ha2, Hb2.
  assert (Hab : a # b == inject_Z a / inject_Z (Z.pos b)) by apply Qmake_Qdiv.
  assert (Hbpos : 0 < inject_Z (Z.pos b)) by reflexivity.
  assert (Qa1 : 2 ^ la <= inject_Z a).
  { rewrite pow2_inject by lia. rewrite <- Zle_Qle. exact Ha1. }
  assert (Qa2 : inject_Z a < 2 ^ (la + 1)).
  { rewrite pow2_inject by lia. rewrite <- Zlt_Qlt. exact Ha2. }
  assert (Qb1 : 2 ^ lb <= inject_Z (Z.pos b)).
  { rewrite pow2_inject by lia. rewrite <- Zle_Qle. exact Hb1. }
  assert (Qb2 : inject_Z (Z.pos b) < 2 ^ (lb + 1)).
  { rewrite pow2_inject by lia. rewrite <- Zlt_Qlt. exact Hb2. }
  destruct (Qle_bool (2 ^ (la - lb)) (a # b)) eqn:E.
  - apply Qle_bool_iff in E. split; [exact E|].
    rewrite Hab. apply Qlt_shift_div_r; [exact Hbpos|].
    assert (Hsplit : 2 ^ (la + 1) == 2 ^ (la - lb + 1) * 2 ^ lb).
    { rewrite <- pow2_plus. replace (la - lb + 1 + lb)%Z with (la + 1)%Z by lia.
      reflexivity. }
    pose proof (pow2_pos (la - lb + 1)) as Hp.
    assert (H : 2 ^ (la - lb + 1) * 2 ^ lb
                <= 2 ^ (la - lb + 1) * inject_Z (Z.pos b)).
    { rewrite !(Qmult_comm (2 ^ (la - lb + 1))).
      apply Qmult_le_compat_r; [exact Qb1|]. apply Qlt_le_weak, Hp. }
    lra.
  - assert (Hlt : a # b < 2 ^ (la - lb)).
    { apply Qnot_le_lt. intros H. apply Qle_bool_iff in H. congruence. }
    split.
    + rewrite Hab. apply Qle_shift_div_l; [exact Hbpos|].
      assert (Hsplit : 2 ^ la == 2 ^ (la - lb - 1) * 2 ^ (lb + 1)).
      { rewrite <- pow2_plus.
        replace (la - lb - 1 + (lb + 1))%Z with la by lia. reflexivity. }
      pose proof (pow2_pos (la - lb - 1)) as Hp.
      assert (H : 2 ^ (la - lb - 1) * inject_Z (Z.pos b)
                  <= 2 ^ (la - lb - 1) * 2 ^ (lb + 1)).
      { rewrite !(Qmult_comm (2 ^ (la - lb - 1))).
        apply Qmult_le_compat_r; [lra|]. apply Qlt_le_weak, Hp. }
      lra.
    + replace (la - lb - 1 + 1)%Z with (la - lb)%Z by lia. exact Hlt.
Qed.

Lemma exponent_unique (x : Q) (e : Z) :
  2 ^ e <= x -> x < 2 ^ (e + 1) -> exponent x = e.
Proof.
  intros Hlo Hhi.
  assert (Hx : 0 < x) by (pose proof (pow2_pos e); lra).
  destruct (exponent_spec x Hx) as [Hlo' Hhi'].
  assert (H1 : (e < exponent x + 1)%Z).
  { apply (Qpower_lt_compat_l_inv 2); [lra|reflexivity]. }
  assert (H2 : (exponent x < e + 1)%Z).
  { apply (Qpower_lt_compat_l_inv 2); [lra|reflexivity]. }
  lia.
Qed.

Lemma exponent_comp (x y : Q) : 0 < x -> x == y -> exponent x = exponent y.
Proof.
  intros Hx Hxy. symmetry. destruct (exponent_spec x Hx) as [Hlo Hhi].
  apply exponent_unique; rewrite <- Hxy; assumption.
Qed.

Lemma py_round_comp (x y : Q) : x == y -> py_round x = py_round y.
Proof.
  intros Hxy. unfold py_round. rewrite (Qfloor_comp x y Hxy).
  rewrite (Qlt_bool_comp (2 * (x - inject_Z (Qfloor y)))
             (2 * (y - inject_Z (Qfloor y))) 1 1)
    by (rewrite ?Hxy; reflexivity).
  rewrite (Qlt_bool_comp 1 1 (2 * (x - inject_Z (Qfloor y)))
             (2 * (y - inject_Z (Qfloor y))))
    by (rewrite ?Hxy; reflexivity).
  reflexivity.
Qed.

Lemma py_round_inject (z : Z) : py_round (inject_Z z) = z.
Proof.
  unfold py_round. rewrite Qfloor_Z.
  assert (H : Qlt_bool (2 * (inject_Z z - inject_Z z)) 1 = true).
  { apply Qlt_bool_true. lra. }
  rewrite H. reflexivity.
Qed.

(** The nearest integer is within one half. *)
Lemma py_round_near (x : Q) :
  x - (1 # 2) <= inject_Z (py_round x) /\ inject_Z (py_round x) <= x + (1 # 2).
Proof.
  pose proof (Qfloor_le x) as Hlo. pose proof (Qlt_floor x) as Hhi.
  rewrite inject_Z_plus in Hhi. change (inject_Z 1) with 1 in Hhi.
  unfold py_round.
  destruct (Qlt_bool (2 * (x - inject_Z (Qfloor x))) 1) eqn:E1.
  - apply Qlt_bool_true in E1. lra.
  - apply Qlt_bool_false in E1.
    destruct (Qlt_bool 1 (2 * (x - inject_Z (Qfloor x)))) eqn:E2.
    + rewrite inject_Z_plus. change (inject_Z 1) with 1. lra.
    + apply Qlt_bool_false in E2.
      destruct (Z.even (Qfloor x));
        rewrite ?inject_Z_plus; change (inject_Z 1) with 1; lra.
Qed.

(** The unit roundoff of binary64, [2^-53]. *)
Definition eps : Q := 1 # 9007199254740992.

Lemma round53_comp (x y : Q) : 0 < x -> x == y -> round53 x == round53 y.
Proof.
  intros Hx Hxy. unfold round53. rewrite (exponent_comp x y Hx Hxy).
  rewrite (py_round_comp (x * 2 ^ (52 - exponent y))
             (y * 2 ^ (52 - exponent y))) by (rewrite Hxy; reflexivity).
  reflexivity.
Qed.

(** The relative error of rounding is at most [eps]. *)
Lemma round53_error (x : Q) :
  0 < x -> x * (1 - eps) <= round53 x /\ round53 x <= x * (1 + eps).
Proof.
  intros Hx. unfold round53.
  destruct (exponent_spec x Hx) as [Hlo _].
  set (e := exponent x) in *.
  set (s := x * 2 ^ (52 - e)).
  destruct (py_round_near s) as [Hn1 Hn2].
  set (z := inject_Z (py_round s)) in *.
  set (P := 2 ^ (e - 52)).
  assert (HP : 0 < P) by apply pow2_pos.
  assert (Hxs : x == s * P).
  { unfold s, P. rewrite <- Qmult_assoc, <- pow2_plus.
    replace (52 - e + (e - 52))%Z with 0%Z by lia.
    change (2 ^ 0) with 1. ring. }
  assert (He : 2 ^ e == P * 4503599627370496).
  { unfold P. change 4503599627370496 with (2 ^ 52).
    rewrite <- pow2_plus. replace (e - 52 + 52)%Z with e by lia. reflexivity. }
  assert (H1 : (s - (1 # 2)) * P <= z * P)
    by (apply Qmult_le_compat_r; [exact Hn1|lra]).
  assert (H2 : z * P <= (s + (1 # 2)) * P)
    by (apply Qmult_le_compat_r; [exact Hn2|lra]).
  unfold eps. split.
  - setoid_replace (x * (1 - (1 # 9007199254740992)))
      with (s * P - x * (1 # 9007199254740992)) by (rewrite Hxs; ring).
    setoid_replace ((s - (1 # 2)) * P) with (s * P - (1 # 2) * P) in H1 by ring.
    lra.
  - setoid_replace (x * (1 + (1 # 9007199254740992)))
      with (s * P + x * (1 # 9007199254740992)) by (rewrite Hxs; ring).
    setoid_replace ((s + (1 # 2)) * P) with (s * P + (1 # 2) * P) in H2 by ring.
    lra.
Qed.

Lemma float64_pos (x : Q) : 0 < x -> float64 x = round53 x.
Proof.
  intros Hx. unfold float64. rewrite (proj2 (Qlt_bool_true 0 x) Hx).
  reflexivity.
Qed.

Lemma float64_error (x : Q) :
  0 < x -> x * (1 - eps) <= float64 x /\ float64 x <= x * (1 + eps).
Proof. intros Hx. rewrite (float64_pos x Hx). apply round53_error, Hx. Qed.

Lemma float64_comp (x y : Q) : x == y -> float64 x == float64 y.
Proof.
  intros Hxy. unfold float64.
  rewrite (Qlt_bool_comp 0 0 x y) by (rewrite ?Hxy; reflexivity).
  rewrite (Qlt_bool_comp x y 0 0) by (rewrite ?Hxy; reflexivity).
  destruct (Qlt_bool 0 y) eqn:E1.
  - apply Qlt_bool_true in E1. apply round53_comp; [rewrite Hxy|]; assumption.
  - destruct (Qlt_bool y 0) eqn:E2; [|reflexivity].
    apply Qlt_bool_true in E2.
    rewrite (round53_comp (- x) (- y)); [reflexivity|rewrite Hxy; lra|].
    rewrite Hxy. reflexivity.
Qed.

(** An integer below [2^53] is a double: rounding leaves it as it is. *)
Lemma float64_integer (n : Z) :
  (0 <= n < 2 ^ 53)%Z -> float64 (inject_Z n) == inject_Z n.
Proof.
  intros [Hn0 Hn]. destruct (Z.eq_dec n 0) as [->|Hne]; [reflexivity|].
  assert (Hx : 0 < inject_Z n).
  { change 0 with (inject_Z 0). rewrite <- Zlt_Qlt. lia. }
  rewrite (float64_pos _ Hx). unfold round53.
  destruct (exponent_spec _ Hx) as [Hlo _].
  set (e := exponent (inject_Z n)) in *.
  assert (He : (e < 53)%Z).
  { apply (Qpower_lt_compat_l_inv 2); [|reflexivity].
    eapply Qle_lt_trans; [exact Hlo|].
    rewrite pow2_inject by lia. rewrite <- Zlt_Qlt. exact Hn. }
  assert (Hs : inject_Z n * 2 ^ (52 - e) == inject_Z (n * 2 ^ (52 - e))).
  { rewrite inject_Z_mult, pow2_inject by lia. reflexivity. }
  rewrite (py_round_comp _ _ Hs), py_round_inject.
  rewrite inject_Z_mult, <- pow2_inject by lia.
  rewrite <- Qmult_assoc, <- pow2_plus.
  replace (52 - e + (e - 52))%Z with 0%Z by lia.
  change (2 ^ 0) with 1. ring.
Qed.

(** [int] on a float that is not negative is the floor. *)
Lemma py_int_floor (x : Q) : 0 <= x -> py_int x = Qfloor x.
Proof.
  intros Hx. destruct x as [a b]. unfold py_int, Qfloor. cbn [Qnum Qden].
  apply Z.quot_div_nonneg; [|lia]. unfold Qle in Hx. cbn in Hx. lia.
Qed.

Lemma py_int_opp (x : Q) : py_int (- x) = (- py_int x)%Z.
Proof. unfold py_int. cbn. apply Z.quot_opp_l. lia. Qed.

Lemma py_int_comp (x y : Q) : x == y -> py_int x = py_int y.
Proof.
  intros Hxy. destruct (Qlt_le_dec x 0) as [Hneg|Hpos].
  - assert (Hx : py_int x = (- py_int (- x))%Z) by (rewrite py_int_opp; lia).
    assert (Hy : py_int y = (- py_int (- y))%Z) by (rewrite py_int_opp; lia).
    rewrite Hx, Hy, !py_int_floor by (rewrite <- ?Hxy; lra).
    rewrite (Qfloor_comp (- x) (- y)) by (rewrite Hxy; reflexivity).
    reflexivity.
  - rewrite !py_int_floor by (rewrite <- ?Hxy; lra).
    apply Qfloor_comp, Hxy.
Qed.

Lemma py_int_inject (z : Z) : py_int (inject_Z z) = z.
Proof. unfold py_int. cbn. apply Z.quot_1_r. Qed.

Lemma scaled_count_bounds (n t b : Z) :
  (0 < n)%Z -> (0 < t)%Z -> (0 < b)%Z -> (n * t < 2 ^ 51)%Z ->
  let count :=
    py_int (float64 (inject_Z n * float64 (inject_Z t / inject_Z b))) in
  ((n * t / b - 1 <= count <= n * t / b)%Z) /\
  ((n * t) mod b <> 0 -> count = n * t / b)%Z.
Proof.
  intros Hn Ht Hb Hbound. cbn zeta.
  set (SR := inject_Z b). set (V := inject_Z (n * t)).
  assert (HSR : 0 < SR) by (unfold SR; change 0 with (inject_Z 0);
                            rewrite <- Zlt_Qlt; lia).
  assert (HV0 : 1 <= V).
  { unfold V. change 1 with (inject_Z 1). rewrite <- Zle_Qle. nia. }
  assert (HV : V < 2251799813685248).
  { unfold V. change 2251799813685248 with (inject_Z (2 ^ 51)).
    rewrite <- Zlt_Qlt. exact Hbound. }
  assert (Hr : 0 < inject_Z t / SR).
  { apply Qlt_shift_div_l; [exact HSR|].
    rewrite Qmult_0_l. change 0 with (inject_Z 0). rewrite <- Zlt_Qlt. lia. }
  destruct (float64_error _ Hr) as [Hr1 Hr2].
  set (fr := float64 (inject_Z t / SR)) in *.
  assert (HrSR : inject_Z t / SR * SR == inject_Z t).
  { field. intros H. rewrite H in HSR. discriminate HSR. }
  assert (HN : 0 < inject_Z n).
  { change 0 with (inject_Z 0). rewrite <- Zlt_Qlt. lia. }
  assert (Hfr : 0 < fr).
  { eapply Qlt_le_trans; [|exact Hr1].
    apply Qmult_lt_0_compat; [exact Hr|reflexivity]. }
  assert (Hx : 0 < inject_Z n * fr) by (apply Qmult_lt_0_compat; assumption).
  destruct (float64_error _ Hx) as [Hx1 Hx2].
  set (fx := float64 (inject_Z n * fr)) in *.
  (* everything times the native rate *)
  assert (HW1 : V * ((1 - eps) * (1 - eps)) <= fx * SR).
  { assert (A : inject_Z t * (1 - eps) <= fr * SR).
    { rewrite <- HrSR.
      setoid_replace (inject_Z t / SR * SR * (1 - eps))
        with (inject_Z t / SR * (1 - eps) * SR) by ring.
      apply Qmult_le_compat_r; [exact Hr1|lra]. }
    assert (B : inject_Z n * (inject_Z t * (1 - eps)) <= inject_Z n * (fr * SR)).
    { rewrite !(Qmult_comm (inject_Z n)).
      apply Qmult_le_compat_r; [exact A|lra]. }
    assert (C : inject_Z n * fr * (1 - eps) * SR <= fx * SR)
      by (apply Qmult_le_compat_r; [exact Hx1|lra]).
    assert (D : inject_Z n * (inject_Z t * (1 - eps)) * (1 - eps)
                <= inject_Z n * (fr * SR) * (1 - eps)).
    { apply Qmult_le_compat_r; [exact B|unfold eps; lra]. }
    unfold V. rewrite inject_Z_mult.
    setoid_replace (inject_Z n * inject_Z t * ((1 - eps) * (1 - eps)))
      with (inject_Z n * (inject_Z t * (1 - eps)) * (1 - eps)) by ring.
    setoid_replace (inject_Z n * fr * (1 - eps) * SR)
      with (inject_Z n * (fr * SR) * (1 - eps)) in C by ring.
    lra. }
  assert (HW2 : fx * SR <= V * ((1 + eps) * (1 + eps))).
  { assert (A : fr * SR <= inject_Z t * (1 + eps)).
    { rewrite <- HrSR.
      setoid_replace (inject_Z t / SR * SR * (1 + eps))
        with (inject_Z t / SR * (1 + eps) * SR) by ring.
      apply Qmult_le_compat_r; [exact Hr2|lra]. }
    assert (B : inject_Z n * (fr * SR) <= inject_Z n * (inject_Z t * (1 + eps))).
    { rewrite !(Qmult_comm (inject_Z n)).
      apply Qmult_le_compat_r; [exact A|lra]. }
    assert (C : fx * SR <= inject_Z n * fr * (1 + eps) * SR)
      by (apply Qmult_le_compat_r; [exact Hx2|lra]).
    assert (D : inject_Z n * (fr * SR) * (1 + eps)
                <= inject_Z n * (inject_Z t * (1 + eps)) * (1 + eps)).
    { apply Qmult_le_compat_r; [exact B|unfold eps; lra]. }
    unfold V. rewrite inject_Z_mult.
    setoid_replace (inject_Z n * inject_Z t * ((1 + eps) * (1 + eps)))
      with (inject_Z n * (inject_Z t * (1 + eps)) * (1 + eps)) by ring.
    setoid_replace (inject_Z n * fr * (1 + eps) * SR)
      with (inject_Z n * (fr * SR) * (1 + eps)) in C by ring.
    lra. }
  unfold eps in HW1, HW2.
  assert (Hlow : V - 1 < fx * SR) by lra.
  assert (Hupp : fx * SR < V + 1) by lra.
  clear HW1 HW2.
  (* the integer quotient *)
  set (m := (n * t / b)%Z).
  pose proof (Z.div_mod (n * t) b ltac:(lia)) as Hdm.
  pose proof (Z.mod_pos_bound (n * t) b Hb) as Hrem.
  fold m in Hdm. set (rem := ((n * t) mod b)%Z) in *.
  assert (HVm : V == inject_Z m * SR + inject_Z rem).
  { unfold V, SR. rewrite <- inject_Z_mult, <- inject_Z_plus.
    rewrite Hdm at 1. rewrite (Z.mul_comm b m). reflexivity. }
  assert (Hrem1 : inject_Z rem + 1 <= SR).
  { unfold SR. change 1 with (inject_Z 1). rewrite <- inject_Z_plus, <- Zle_Qle.
    lia. }
  assert (Hrem0 : 0 <= inject_Z rem).
  { change 0 with (inject_Z 0). rewrite <- Zle_Qle. lia. }
  assert (Hfx0 : 0 <= fx).
  { apply Qlt_le_weak. eapply Qlt_le_trans; [|exact Hx1].
    apply Qmult_lt_0_compat; [exact Hx|reflexivity]. }
  rewrite (py_int_floor fx Hfx0).
  assert (Hlt : fx < inject_Z (m + 1)).
  { apply (proj1 (Qmult_lt_r _ _ SR HSR)).
    rewrite inject_Z_plus. change (inject_Z 1) with 1.
    setoid_replace ((inject_Z m + 1) * SR) with (inject_Z m * SR + SR) by ring.
    lra. }
  assert (Hge : inject_Z (m - 1) <= fx).
  { apply (proj1 (Qmult_le_r _ _ SR HSR)).
    unfold Z.sub. rewrite inject_Z_plus. change (inject_Z (- (1))) with (- 1).
    setoid_replace ((inject_Z m + - 1) * SR) with (inject_Z m * SR - SR) by ring.
    assert (1 <= SR) by lra. lra. }
  assert (Hfloor1 : (m - 1 <= Qfloor fx)%Z).
  { rewrite <- (Qfloor_Z (m - 1)). apply Qfloor_resp_le, Hge. }
  assert (Hfloor2 : (Qfloor fx < m + 1)%Z).
  { rewrite Zlt_Qlt. eapply Qle_lt_trans; [apply Qfloor_le|exact Hlt]. }
  split; [lia|].
  intros Hne.
  assert (Hge' : inject_Z m <= fx).
  { apply (proj1 (Qmult_le_r _ _ SR HSR)).
    assert (1 <= inject_Z rem).
    { change 1 with (inject_Z 1). rewrite <- Zle_Qle. lia. }
    lra. }
  assert (Hfloor3 : (m <= Qfloor fx)%Z).
  { rewrite <- (Qfloor_Z m). apply Qfloor_resp_le, Hge'. }
  lia.
Qed.

(** The count [int(n * (t / b))] in double precision, for a block of [n]
    samples and rates [t] and [b]: the integer quotient of [n * t] by [b],
    or one less; one less only when [b] divides [n * t]. *)
Lemma py_int_scaled_float64 (n t b : Z) :
  (0 < n)%Z -> (0 < t)%Z -> (0 < b)%Z -> (n * t < 2 ^ 51)%Z ->
  let count :=
    py_int (float64 (float64 (inject_Z n)
                     * float64 (inject_Z t / inject_Z b))) in
  ((n * t / b - 1 <= count <= n * t / b)%Z) /\
  ((n * t) mod b <> 0 -> count = n * t / b)%Z.
Proof.
  intros Hn Ht Hb Hbound. cbn zeta.
  assert (Hfn : float64 (inject_Z n) == inject_Z n).
  { apply float64_integer. split; [lia|].
    apply Z.le_lt_trans with (n * t)%Z; [nia|]. lia. }
  rewrite (py_int_comp _ (float64 (inject_Z n
                                   * float64 (inject_Z t / inject_Z b)))).
  - apply scaled_count_bounds; assumption.
  - apply float64_comp. rewrite Hfn. reflexivity.
Qed.

End numpy.

(** ** loopback_capture.py *)

Module loopback_capture.

Import pyqueue.

(** What a call leaves for an observer: the records it handed to
    [logger] and, for a callback that did not return, the exception that
    left it. *)
Inductive LogRecord : Type :=
| Loopback_capture_status
| Loopback_status
| Loopback_gate_set (duration_s : Q)
| Callback_raised (e : numpy.ValueError).

(** The fields the callbacks and the gate use. [audio_queue] and [loop] are
    the objects handed to [__init__], seen from the capture side. *)
Record LoopbackCapture : Type := mkLoopbackCapture {
  audio_queue : Queue (list Q);
  loop : EventLoop (list Q);
  _running : bool;
  _gate_until : Q
}.

(** [LoopbackCapture.__init__] *)
Definition init (audio_queue : Queue (list Q)) (loop : EventLoop (list Q))
  : LoopbackCapture :=
  {| audio_queue := audio_queue; loop := loop;
     _running := false; _gate_until := 0 |}.

Definition set_gate_until (v : Q) (self : LoopbackCapture) : LoopbackCapture :=
  {| audio_queue := audio_queue self; loop := loop self;
     _running := _running self; _gate_until := v |}.

Definition set_loop (v : EventLoop (list Q)) (self : LoopbackCapture)
  : LoopbackCapture :=
  {| audio_queue := audio_queue self; loop := v;
     _running := _running self; _gate_until := _gate_until self |}.

(** [max(a, b)] of Python: [b] when it is greater, else [a]. *)
Definition py_max (a b : Q) : Q := if Qlt_bool a b then b else a.

(** [LoopbackCapture.set_gate], with the clock reading [now]. *)
Definition set_gate (self : LoopbackCapture) (now : Q) (duration_s : Q)
  : LoopbackCapture * list LogRecord :=
  let gate_end := (now + duration_s + config.FEEDBACK_GATE_BUFFER_S)%Q in
  (set_gate_until (py_max (_gate_until self) gate_end) self,
   [Loopback_gate_set duration_s]).

(** [LoopbackCapture.is_gated], with the clock reading [now]. *)
Definition is_gated (self : LoopbackCapture) (now : Q) : bool :=
  Qlt_bool now (_gate_until self).

(** Arm requests one after the other, each with its clock reading. *)
Definition arm_all (self : LoopbackCapture) (calls : list (Q * Q))
  : LoopbackCapture :=
  fold_left (fun s call => fst (set_gate s (fst call) (snd call))) calls self.

(** [LoopbackCapture._audio_callback]; [frames] and [time_info] are not
    used by the body. [now] is what [time.monotonic()] returns inside
    [is_gated]. *)
Definition _audio_callback (self : LoopbackCapture) (indata : indata.t)
    (status : bool) (now : Q) : LoopbackCapture * list LogRecord :=
  let log := if status then [Loopback_capture_status] else [] in
  if negb (_running self) || is_gated self now then (self, log)
  else
    let audio_chunk := indata.to_mono indata in
    (set_loop (schedule_put (loop self) audio_chunk) self, log).

(** The resampling step of [resampling_callback] (lines 97-102).
    [len(mono) * ratio] is a product of floats: the length is converted,
    the product is rounded, and [int] truncates what comes out. *)
Definition resample (ratio : Q) (mono : list Q)
  : numpy.ValueError + list Q :=
  if (1 <? length mono)%nat then
    let new_len :=
      numpy.py_int
        (numpy.float64
           (numpy.float64 (inject_Z (Z.of_nat (length mono))) * ratio)) in
    match numpy.linspace_checked
            0 (inject_Z (Z.of_nat (length mono)) - 1) new_len with
    | inl e => inl e
    | inr indices =>
        inr (numpy.interp indices (numpy.arange (length mono)) mono)
    end
  else inr mono.

(** [resampling_callback], the closure over [ratio]. An exception of the
    resampling step leaves the callback before anything is scheduled. *)
Definition resampling_callback (ratio : Q) (self : LoopbackCapture)
    (indata : indata.t) (status : bool) (now : Q)
  : LoopbackCapture * list LogRecord :=
  let log := if status then [Loopback_status] else [] in
  if negb (_running self) || is_gated self now then (self, log)
  else
    let mono := indata.to_mono indata in
    match resample ratio mono with
    | inl e => (self, log ++ [Callback_raised e])
    | inr resampled =>
        (set_loop (schedule_put (loop self) resampled) self, log)
    end.

Inductive ZeroDivisionError : Type := ZeroDivisionError_raised.

Definition Callback : Type :=
  LoopbackCapture -> indata.t -> bool -> Q -> LoopbackCapture * list LogRecord.

(** [LoopbackCapture._make_resampling_callback]; [target_sr / native_sr]
    is the double nearest to the quotient of the two integers. *)
Definition _make_resampling_callback (native_sr : Z)
  : ZeroDivisionError + Callback :=
  let target_sr := config.SAMPLE_RATE in
  if (native_sr =? target_sr)%Z then inr _audio_callback
  else if (native_sr =? 0)%Z then inl ZeroDivisionError_raised
  else
    let ratio := numpy.float64 (inject_Z target_sr / inject_Z native_sr) in
    inr (resampling_callback ratio).

(** The loop thread runs the callbacks that wait. *)
Definition run_loop (self : LoopbackCapture) : LoopbackCapture :=
  let '(loop', queue') := run_ready (loop self) (audio_queue self) in
  {| audio_queue := queue'; loop := loop';
     _running := _running self; _gate_until := _gate_until self |}.

(** *** The feedback gate *)

Lemma py_max_cases (a b : Q) :
  (py_max a b = a /\ (b <= a)%Q) \/ (py_max a b = b /\ (a < b)%Q).
Proof.
  unfold py_max. destruct (Qlt_bool a b) eqn:E.
  - right. split; [reflexivity|]. apply Qlt_bool_true, E.
  - left. split; [reflexivity|]. apply Qlt_bool_false, E.
Qed.

Lemma py_max_ge_l (a b : Q) : (a <= py_max a b)%Q.
Proof. destruct (py_max_cases a b) as [[-> H]|[-> H]]; lra. Qed.

Lemma py_max_ge_r (a b : Q) : (b <= py_max a b)%Q.
Proof. destruct (py_max_cases a b) as [[-> H]|[-> H]]; lra. Qed.

Lemma py_max_absorb (a b : Q) : (b <= a)%Q -> py_max a b = a.
Proof.
  intros H. unfold py_max.
  rewrite (proj2 (Qlt_bool_false a b) H). reflexivity.
Qed.

Lemma arm_all_never_decreases (calls : list (Q * Q)) :
  forall self, (_gate_until self <= _gate_until (arm_all self calls))%Q.
Proof.
  unfold arm_all. induction calls as [|[now d] calls IH]; intros self; cbn.
  - lra.
  - eapply Qle_trans; [|apply IH]. cbn. apply py_max_ge_l.
Qed.

(** C2. [set_gate(d)] called at [now] sets [_gate_until] to the larger of its
    old value and [now + d + FEEDBACK_GATE_BUFFER_S]: the new value is one of
    the two and is below neither. So no sequence of arm requests ever moves
    [_gate_until] back, and a second request at the same instant for a
    shorter duration leaves it as it is, as does any later request that
    would end no later than the first. *)
Theorem set_gate_monotonic_max (self : LoopbackCapture) (now duration_s : Q) :
  let gate_end := (now + duration_s + config.FEEDBACK_GATE_BUFFER_S)%Q in
  let self' := fst (set_gate self now duration_s) in
  _gate_until self' = py_max (_gate_until self) gate_end /\
  (_gate_until self' = _gate_until self \/ _gate_until self' = gate_end) /\
  (_gate_until self <= _gate_until self')%Q /\
  (gate_end <= _gate_until self')%Q /\
  (forall calls : list (Q * Q),
      (_gate_until self <= _gate_until (arm_all self calls))%Q) /\
  (forall d2 : Q,
      (d2 < duration_s)%Q ->
      _gate_until (fst (set_gate self' now d2)) = _gate_until self') /\
  (forall now2 d2 : Q,
      (now2 + d2 <= now + duration_s)%Q ->
      _gate_until (fst (set_gate self' now2 d2)) = _gate_until self').
Proof.
  cbn zeta. cbn [set_gate fst set_gate_until _gate_until].
  split; [reflexivity|]. split.
  { destruct (py_max_cases (_gate_until self)
                (now + duration_s + config.FEEDBACK_GATE_BUFFER_S))
      as [[-> _]|[-> _]]; [left|right]; reflexivity. }
  split; [apply py_max_ge_l|]. split; [apply py_max_ge_r|]. split.
  { intros calls. apply arm_all_never_decreases. }
  assert (Hlater : forall now2 d2 : Q,
             (now2 + d2 <= now + duration_s)%Q ->
             py_max (py_max (_gate_until self)
                       (now + duration_s + config.FEEDBACK_GATE_BUFFER_S))
                    (now2 + d2 + config.FEEDBACK_GATE_BUFFER_S)
             = py_max (_gate_until self)
                 (now + duration_s + config.FEEDBACK_GATE_BUFFER_S)).
  { intros now2 d2 Hd. apply py_max_absorb.
    eapply Qle_trans; [|apply py_max_ge_r]. lra. }
  split.
  - intros d2 Hd. apply Hlater. lra.
  - exact Hlater.
Qed.

(** Armed for two seconds at time 0, then for one second at the same
    instant. *)
Lemma set_gate_monotonic_max_witness :
  let self := init (mkQueue config.QUEUE_MAX_SIZE []) (mkEventLoop false []) in
  let self' := fst (set_gate self 0 2) in
  (1 < 2)%Q /\
  _gate_until (fst (set_gate self' 0 1)) = _gate_until self'.
Proof.
  cbn zeta. split; [reflexivity|].
  pose proof (set_gate_monotonic_max
                (init (mkQueue config.QUEUE_MAX_SIZE []) (mkEventLoop false []))
                0 2) as (_ & _ & _ & _ & _ & Hshorter & _).
  apply Hshorter. reflexivity.
Defined.

(** *** The gated callbacks *)

Lemma is_gated_before (self : LoopbackCapture) (now : Q) :
  (now < _gate_until self)%Q -> is_gated self now = true.
Proof. intros H. apply Qlt_bool_true, H. Qed.

(** C3. A loopback callback invoked at a time before [_gate_until] drops the
    block: it returns the capture object as it was, so nothing is scheduled
    on the loop, nothing reaches the audio queue and no field changes. This
    holds for [_audio_callback], for [resampling_callback], and so for
    whatever [_make_resampling_callback] returns. *)
Theorem gated_callback_drops_block (self : LoopbackCapture)
    (indata : indata.t) (status : bool) (now : Q) :
  (now < _gate_until self)%Q ->
  fst (_audio_callback self indata status now) = self /\
  (forall ratio : Q,
      fst (resampling_callback ratio self indata status now) = self) /\
  (forall (native_sr : Z) (callback : Callback),
      _make_resampling_callback native_sr = inr callback ->
      fst (callback self indata status now) = self) /\
  audio_queue (run_loop (fst (_audio_callback self indata status now)))
  = audio_queue (run_loop self).
Proof.
  intros Hgate. pose proof (is_gated_before self now Hgate) as Hg.
  assert (H1 : fst (_audio_callback self indata status now) = self).
  { unfold _audio_callback. rewrite Hg, orb_true_r. reflexivity. }
  assert (H2 : forall ratio,
             fst (resampling_callback ratio self indata status now) = self).
  { intros ratio. unfold resampling_callback. rewrite Hg, orb_true_r.
    reflexivity. }
  split; [exact H1|]. split; [exact H2|]. split.
  - intros native_sr callback. unfold _make_resampling_callback.
    destruct (native_sr =? config.SAMPLE_RATE)%Z.
    + intros [= <-]. exact H1.
    + destruct (native_sr =? 0)%Z; [discriminate|].
      intros [= <-]. apply H2.
  - rewrite H1. reflexivity.
Qed.

(** A running capture armed until 2.3 s receives a stereo block at 1 s. *)
Lemma gated_callback_drops_block_witness :
  let self := {| audio_queue := mkQueue config.QUEUE_MAX_SIZE [];
                 loop := mkEventLoop false [];
                 _running := true; _gate_until := 23 # 10 |} in
  let block := [(1 # 2, [1 # 4]); (1 # 8, [3 # 8])] in
  (1 < _gate_until self)%Q /\
  fst (_audio_callback self block false 1) = self /\
  fst (resampling_callback (1 # 3) self block false 1) = self.
Proof.
  cbn zeta. split; [reflexivity|].
  pose proof (gated_callback_drops_block
                {| audio_queue := mkQueue config.QUEUE_MAX_SIZE [];
                   loop := mkEventLoop false [];
                   _running := true; _gate_until := 23 # 10 |}
                [(1 # 2, [1 # 4]); (1 # 8, [3 # 8])] false 1 eq_refl)
    as (H1 & H2 & _).
  split; [exact H1|exact (H2 (1 # 3))].
Defined.

(** *** The resampling step *)

Lemma Forall2_map_pointwise (f g : Q -> Q) (l : list Q) :
  Forall (fun x => (f x == g x)%Q) l -> Forall2 Qeq (map f l) (map g l).
Proof.
  induction 1 as [|x l Hx _ IH]; cbn; constructor; assumption.
Qed.

(** The resampled block is the interpolation of the block at the points
    of [linspace]. *)
Lemma resample_values (ratio : Q) (mono out : list Q) :
  (1 < length mono)%nat ->
  resample ratio mono = inr out ->
  Z.of_nat (length out)
  = numpy.py_int
      (numpy.float64
         (numpy.float64 (inject_Z (Z.of_nat (length mono))) * ratio)) /\
  Forall2 Qeq out
    (map (numpy.lerp mono)
         (numpy.linspace 0 (inject_Z (Z.of_nat (length mono)) - 1)
                         (length out))).
Proof.
  intros Hn. unfold resample, numpy.linspace_checked.
  destruct (Nat.ltb_spec 1 (length mono)) as [_|Hle]; [|lia].
  set (new_len := numpy.py_int _).
  destruct (Z.ltb_spec new_len 0) as [Hneg|Hpos]; [discriminate|].
  intros [= <-].
  rewrite numpy.length_interp, numpy.length_linspace.
  split; [apply Z2Nat.id, Hpos|].
  unfold numpy.interp. apply Forall2_map_pointwise.
  eapply Forall_impl; [|apply numpy.linspace_nonneg].
  - intros x Hx. apply numpy.interp1_arange; [|exact Hx].
    destruct mono; [cbn in Hn; lia|discriminate].
  - assert (H : (inject_Z 1 <= inject_Z (Z.of_nat (length mono)))%Q)
      by (rewrite <- Zle_Qle; lia).
    change (inject_Z 1) with 1%Q in H. lra.
Qed.

(** With a count that is not negative the step returns a block. *)
Lemma resample_returns (ratio : Q) (mono : list Q) :
  (0 <= numpy.py_int
          (numpy.float64
             (numpy.float64 (inject_Z (Z.of_nat (length mono))) * ratio)))%Z ->
  exists out, resample ratio mono = inr out.
Proof.
  intros Hpos. unfold resample, numpy.linspace_checked.
  destruct (1 <? length mono)%nat; [|eexists; reflexivity].
  destruct (Z.ltb_spec
              (numpy.py_int
                 (numpy.float64
                    (numpy.float64 (inject_Z (Z.of_nat (length mono)))
                     * ratio))) 0) as [Hneg|_]; [lia|].
  eexists. reflexivity.
Qed.

(** C4 (as the code has it). At a native rate above zero, with
    [ratio = SAMPLE_RATE / native_sr] as a double: a block of [n] samples,
    more than one and fewer than [2^32], is resampled to
    [int(n * ratio)] samples, the truncation of the float product. With
    [q = floor(n * SAMPLE_RATE / native_sr)] that count is [q], or [q - 1]:
    it is [q] whenever [n * SAMPLE_RATE / native_sr] is not an integer,
    and where it is one the rounding of [ratio] decides. Sample [k] of the
    result is the linear interpolation of the block at point [k] of
    [linspace(0, n - 1, new_len)]. A block of at most one sample, the
    empty block included, is passed on as it is. The step is a function of
    the block and the ratio alone. *)
Theorem resample_length_and_values (native_sr : Z) (mono : list Q) :
  (0 < native_sr)%Z ->
  let ratio :=
    numpy.float64 (inject_Z config.SAMPLE_RATE / inject_Z native_sr) in
  let n := Z.of_nat (length mono) in
  let q := (n * config.SAMPLE_RATE / native_sr)%Z in
  ((1 < n < 2 ^ 32)%Z ->
   exists out,
     resample ratio mono = inr out /\
     Z.of_nat (length out)
     = numpy.py_int (numpy.float64 (numpy.float64 (inject_Z n) * ratio)) /\
     (q - 1 <= Z.of_nat (length out) <= q)%Z /\
     ((n * config.SAMPLE_RATE) mod native_sr <> 0 ->
      Z.of_nat (length out) = q)%Z /\
     Forall2 Qeq out
       (map (numpy.lerp mono)
            (numpy.linspace 0 (inject_Z n - 1) (length out)))) /\
  ((n <= 1)%Z -> resample ratio mono = inr mono) /\
  resample ratio [] = inr [].
Proof.
  intros Hsr. cbn zeta. split; [|split].
  - intros [Hn Hbound].
    pose proof (numpy.py_int_scaled_float64
                  (Z.of_nat (length mono)) config.SAMPLE_RATE native_sr
                  ltac:(lia) ltac:(reflexivity) Hsr
                  ltac:(unfold config.SAMPLE_RATE; lia)) as [Hq Hexact].
    set (ratio := numpy.float64 (inject_Z config.SAMPLE_RATE
                                 / inject_Z native_sr)) in *.
    destruct (resample ratio mono) as [e|out] eqn:E.
    + exfalso. unfold resample, numpy.linspace_checked in E.
      destruct (Nat.ltb_spec 1 (length mono)) as [_|Hle]; [|lia].
      destruct (Z.ltb_spec
                  (numpy.py_int
                     (numpy.float64
                        (numpy.float64 (inject_Z (Z.of_nat (length mono)))
                         * ratio))) 0) as [Hneg|Hpos]; [|discriminate E].
      assert (Hq0 : (1 <= Z.of_nat (length mono) * config.SAMPLE_RATE
                          / native_sr \/
                     (Z.of_nat (length mono) * config.SAMPLE_RATE)
                       mod native_sr <> 0)%Z).
      { destruct (Z.eq_dec ((Z.of_nat (length mono) * config.SAMPLE_RATE)
                              mod native_sr) 0) as [Hz|Hnz]; [left|right; exact Hnz].
        pose proof (Z.div_mod (Z.of_nat (length mono) * config.SAMPLE_RATE)
                      native_sr ltac:(lia)) as Hdm.
        rewrite Hz in Hdm. unfold config.SAMPLE_RATE in *. nia. }
      destruct Hq0 as [H1|Hnz]; [lia|].
      specialize (Hexact Hnz).
      pose proof (Z.div_pos (Z.of_nat (length mono) * config.SAMPLE_RATE)
                    native_sr ltac:(unfold config.SAMPLE_RATE; lia) Hsr).
      lia.
    + exists out. split; [reflexivity|].
      destruct (resample_values ratio mono out ltac:(lia) E) as [Hlen Hval].
      split; [exact Hlen|]. rewrite Hlen.
      split; [exact Hq|]. split; [exact Hexact|exact Hval].
  - intros Hn. unfold resample.
    destruct (Nat.ltb_spec 1 (length mono)) as [Hlt|_]; [lia|reflexivity].
  - reflexivity.
Qed.

(** A block of five samples from a 48 kHz device: one sample comes out,
    the first of the block. *)
Lemma resample_length_and_values_witness :
  let mono := [0; 1 # 2; 1; 1 # 2; 0] in
  let ratio := numpy.float64 (inject_Z config.SAMPLE_RATE / inject_Z 48000) in
  (0 < 48000)%Z /\ (1 < Z.of_nat (length mono) < 2 ^ 32)%Z /\
  exists out,
    resample ratio mono = inr out /\
    Z.of_nat (length out) = 1%Z /\
    Forall2 Qeq out
      (map (numpy.lerp mono) (numpy.linspace 0 (5 - 1) (length out))).
Proof.
  cbn zeta.
  pose proof (resample_length_and_values 48000 [0; 1 # 2; 1; 1 # 2; 0] eq_refl)
    as [H _].
  assert (Hn : (1 < Z.of_nat (length [0; 1 # 2; 1; 1 # 2; 0]%Q) < 2 ^ 32)%Z)
    by (split; reflexivity).
  destruct (H Hn) as (out & Hout & _ & _ & Hexact & Hval).
  split; [reflexivity|]. split; [exact Hn|].
  exists out. split; [exact Hout|]. split; [|exact Hval].
  apply Hexact. vm_compute. discriminate.
Defined.

(** C4, counterexample. The length is a truncation, not a rounding, and
    the truncation is that of the float product. Five samples at 48 kHz:
    [int(5 * (16000 / 48000)) = int(1.67) = 1] sample, against
    [round(5 * 16000 / 48000) = 2]. The 30 ms block of a 22.05 kHz device,
    661 samples: 479 samples, against [round(479.64) = 480]. One sample at
    48 kHz is passed on, against [round(0.33) = 0]. The 30 ms block of a
    3.9 kHz device, 117 samples, where [117 * 16000 / 3900] is 480
    exactly: the double [16000 / 3900] is below the quotient, the product
    is [479.99999999999994], and 479 samples come out. *)
Lemma resample_truncates_not_rounds :
  let ratio_of (native_sr : Z) :=
    numpy.float64 (inject_Z config.SAMPLE_RATE / inject_Z native_sr) in
  let length_of (r : numpy.ValueError + list Q) :=
    match r with inr out => Some (length out) | inl _ => None end in
  (length_of (resample (ratio_of 48000%Z) [0; 1 # 2; 1; 1 # 2; 0])
   = Some 1%nat /\
   numpy.py_round (5 * inject_Z config.SAMPLE_RATE / inject_Z 48000) = 2%Z) /\
  (length_of (resample (ratio_of 22050%Z) (repeat (1 # 2) 661))
   = Some 479%nat /\
   numpy.py_round (661 * inject_Z config.SAMPLE_RATE / inject_Z 22050)
   = 480%Z) /\
  (length_of (resample (ratio_of 48000%Z) [1 # 2]) = Some 1%nat /\
   numpy.py_round (1 * inject_Z config.SAMPLE_RATE / inject_Z 48000) = 0%Z) /\
  (length_of (resample (ratio_of 3900%Z) (repeat (1 # 2) 117))
   = Some 479%nat /\
   (117 * config.SAMPLE_RATE / 3900 = 480)%Z /\
   ((117 * config.SAMPLE_RATE) mod 3900 = 0)%Z /\
   numpy.py_round (117 * inject_Z config.SAMPLE_RATE / inject_Z 3900)
   = 480%Z).
Proof. vm_compute. repeat split. Qed.

End loopback_capture.

(** ** mic_capture.py *)

Module mic_capture.

Import pyqueue.

Inductive LogRecord : Type := Mic_capture_status.

Record MicCapture : Type := mkMicCapture {
  audio_queue : Queue (list Q);
  loop : EventLoop (list Q);
  _running : bool
}.

(** [MicCapture._audio_callback]; [frames] and [time_info] are not used. *)
Definition _audio_callback (self : MicCapture) (indata : indata.t)
    (status : bool) : MicCapture * list LogRecord :=
  let log := if status then [Mic_capture_status] else [] in
  if negb (_running self) then (self, log)
  else
    let audio_chunk := indata.column0 indata in
    ({| audio_queue := audio_queue self;
        loop := schedule_put (loop self) audio_chunk;
        _running := _running self |}, log).

(** The loop thread runs the callbacks that wait. *)
Definition run_loop (self : MicCapture) : MicCapture :=
  let '(loop', queue') := run_ready (loop self) (audio_queue self) in
  {| audio_queue := queue'; loop := loop'; _running := _running self |}.

End mic_capture.

(** ** audio_player.py *)

Module audio_player.

Import pyqueue.

Inductive LogRecord : Type := Audio_play_queue_full.

(** The fields [play] uses. *)
Record AudioPlayer : Type := mkAudioPlayer {
  _play_queue : Queue (list Q);
  _running : bool
}.

(** [AudioPlayer.__init__]: [queue.Queue(maxsize=20)]. *)
Definition init : AudioPlayer :=
  {| _play_queue := mkQueue 20 []; _running := false |}.

(** [AudioPlayer.play]; [audio] may be [None]. *)
Definition play (self : AudioPlayer) (audio : option (list Q))
  : AudioPlayer * list LogRecord :=
  if negb config.ENABLE_TTS_OUTPUT then (self, [])
  else
    match audio with
    | None => (self, [])
    | Some samples =>
        if (length samples =? 0)%nat then (self, [])
        else
          match put_nowait (_play_queue self) samples with
          | inr q => ({| _play_queue := q; _running := _running self |}, [])
          | inl QueueFull_raised => (self, [Audio_play_queue_full])
          end
    end.

(** Clips played one after the other through [play]. *)
Definition play_all (self : AudioPlayer) (clips : list (list Q)) : AudioPlayer :=
  fold_left (fun s clip => fst (play s (Some clip))) clips self.

End audio_player.

(** ** Enqueue on a full queue *)

Module full_queue.

Import pyqueue.

Lemma loopback_run_loop_full (self : loopback_capture.LoopbackCapture) :
  full (loopback_capture.audio_queue self) = true ->
  loopback_capture.audio_queue (loopback_capture.run_loop self)
  = loopback_capture.audio_queue self.
Proof.
  intros Hfull. unfold loopback_capture.run_loop, run_ready. cbn.
  apply run_ready_full, Hfull.
Qed.

Lemma mic_run_loop_full (self : mic_capture.MicCapture) :
  full (mic_capture.audio_queue self) = true ->
  mic_capture.audio_queue (mic_capture.run_loop self)
  = mic_capture.audio_queue self.
Proof.
  intros Hfull. unfold mic_capture.run_loop, run_ready. cbn.
  apply run_ready_full, Hfull.
Qed.

Lemma mic_callback_queue (self : mic_capture.MicCapture) indata status :
  mic_capture.audio_queue (fst (mic_capture._audio_callback self indata status))
  = mic_capture.audio_queue self.
Proof.
  unfold mic_capture._audio_callback.
  destruct (negb (mic_capture._running self)); reflexivity.
Qed.

Lemma loopback_callback_queue (self : loopback_capture.LoopbackCapture)
    (callback : loopback_capture.Callback) indata status now :
  callback = loopback_capture._audio_callback \/
  (exists ratio, callback = loopback_capture.resampling_callback ratio) ->
  loopback_capture.audio_queue (fst (callback self indata status now))
  = loopback_capture.audio_queue self.
Proof.
  intros [->|[ratio ->]].
  - unfold loopback_capture._audio_callback.
    destruct (negb (loopback_capture._running self)
              || loopback_capture.is_gated self now); reflexivity.
  - unfold loopback_capture.resampling_callback.
    destruct (negb (loopback_capture._running self)
              || loopback_capture.is_gated self now); [reflexivity|].
    destruct (loopback_capture.resample ratio (indata.to_mono indata));
      reflexivity.
Qed.

Lemma play_full (player : audio_player.AudioPlayer) audio :
  full (audio_player._play_queue player) = true ->
  fst (audio_player.play player audio) = player.
Proof.
  intros Hfull. unfold audio_player.play, put_nowait. rewrite Hfull.
  destruct (negb config.ENABLE_TTS_OUTPUT); [reflexivity|].
  destruct audio as [samples|]; [|reflexivity].
  destruct (length samples =? 0)%nat; reflexivity.
Qed.

Lemma play_step (m : Z) (l : list (list Q)) (r : bool) (clip : list Q) :
  (0 < m)%Z -> clip <> [] ->
  fst (audio_player.play (audio_player.mkAudioPlayer (mkQueue m l) r)
         (Some clip))
  = audio_player.mkAudioPlayer
      (mkQueue m (if (m <=? Z.of_nat (length l))%Z then l else l ++ [clip])) r.
Proof.
  intros Hm Hclip. unfold audio_player.play, put_nowait, full, qsize.
  cbn [negb config.ENABLE_TTS_OUTPUT audio_player._play_queue maxsize items
       audio_player._running].
  destruct clip as [|x clip]; [contradiction|]. cbn [length Nat.eqb].
  destruct (Z.leb_spec m 0) as [|_]; [lia|].
  destruct (m <=? Z.of_nat (length l))%Z; reflexivity.
Qed.

(** Without a consumer, the play queue keeps the clips that came first. *)
Lemma play_all_keeps_oldest (clips : list (list Q)) :
  forall (m : Z) (l : list (list Q)) (r : bool),
    (0 < m)%Z -> (Z.of_nat (length l) <= m)%Z ->
    Forall (fun clip => clip <> []) clips ->
    audio_player._play_queue
      (audio_player.play_all (audio_player.mkAudioPlayer (mkQueue m l) r) clips)
    = mkQueue m (firstn (Z.to_nat m) (l ++ clips)).
Proof.
  unfold audio_player.play_all.
  induction clips as [|clip clips IH]; intros m l r Hm Hsize Hne.
  - cbn. rewrite app_nil_r, firstn_all2 by lia. reflexivity.
  - inversion Hne as [|? ? Hclip Hrest]; subst.
    cbn [fold_left]. rewrite (play_step m l r clip Hm Hclip).
    destruct (Z.leb_spec m (Z.of_nat (length l))) as [Hfull|Hroom].
    + rewrite (IH m l r Hm Hsize Hrest). rewrite !firstn_app.
      replace (Z.to_nat m - length l)%nat with 0%nat by lia.
      reflexivity.
    + rewrite (IH m (l ++ [clip]) r Hm); [| |exact Hrest].
      * rewrite <- app_assoc. reflexivity.
      * rewrite length_app. cbn. lia.
Qed.

(** C5. An enqueue on a full bounded queue returns without blocking and
    drops the incoming item, leaving the queue as it was. For a full queue
    [q]: [_safe_put] returns [q]; a microphone or loopback callback whose
    audio queue is [q], followed by the loop running every scheduled put,
    leaves [q]; [AudioPlayer.play] on a player whose play queue is [q]
    leaves the player as it was, with a warning for a clip it had to drop.
    The play queue of a new player holds 20 clips. *)
Theorem enqueue_on_full_queue_drops_newest (q : Queue (list Q)) :
  full q = true ->
  (forall chunk, _safe_put q chunk = q) /\
  (forall (mic : mic_capture.MicCapture) indata status,
      mic_capture.audio_queue mic = q ->
      mic_capture.audio_queue
        (mic_capture.run_loop
           (fst (mic_capture._audio_callback mic indata status))) = q) /\
  (forall (lb : loopback_capture.LoopbackCapture) indata status now,
      loopback_capture.audio_queue lb = q ->
      loopback_capture.audio_queue
        (loopback_capture.run_loop
           (fst (loopback_capture._audio_callback lb indata status now))) = q /\
      forall ratio,
        loopback_capture.audio_queue
          (loopback_capture.run_loop
             (fst (loopback_capture.resampling_callback ratio lb indata
                     status now))) = q) /\
  (forall (player : audio_player.AudioPlayer) audio,
      audio_player._play_queue player = q ->
      fst (audio_player.play player audio) = player /\
      (forall samples, audio = Some samples -> samples <> [] ->
       snd (audio_player.play player audio)
       = [audio_player.Audio_play_queue_full])) /\
  maxsize (audio_player._play_queue audio_player.init) = 20%Z /\
  (forall clips : list (list Q),
      Forall (fun clip => clip <> []) clips ->
      items (audio_player._play_queue
               (audio_player.play_all audio_player.init clips))
      = firstn 20 clips).
Proof.
  intros Hfull. split; [|split; [|split; [|split; [|split]]]].
  - intros chunk. apply _safe_put_full, Hfull.
  - intros mic indata status Hq.
    rewrite mic_run_loop_full; rewrite mic_callback_queue; congruence.
  - intros lb indata status now Hq. split; [|intros ratio].
    + rewrite loopback_run_loop_full;
        rewrite loopback_callback_queue; try congruence; now left.
    + rewrite loopback_run_loop_full;
        rewrite loopback_callback_queue; try congruence; right; now exists ratio.
  - intros player audio Hq. split.
    + apply play_full. congruence.
    + intros samples -> Hne. unfold audio_player.play, put_nowait.
      rewrite Hq, Hfull. cbn [negb config.ENABLE_TTS_OUTPUT].
      destruct samples; [contradiction|reflexivity].
  - reflexivity.
  - intros clips Hne. unfold audio_player.init.
    rewrite (play_all_keeps_oldest clips 20 [] false); cbn; try lia.
    + reflexivity.
    + exact Hne.
Qed.

(** A full queue of two chunks refuses a third. *)
Lemma enqueue_on_full_queue_drops_newest_witness :
  let q := mkQueue 2 [[1 # 2]; [1 # 4]] in
  full q = true /\ _safe_put q [1 # 8] = q.
Proof.
  cbn zeta. split; [reflexivity|].
  apply (enqueue_on_full_queue_drops_newest
           (mkQueue 2 [[1 # 2]; [1 # 4]]) eq_refl).
Defined.

End full_queue.

(** ** Python strings

    A [str] is a [string] whose characters are the code points below 256.
    [str.isspace] on that range: tab to carriage return, the four
    separators 0x1c to 0x1f, space, NEL (0x85) and the no-break space
    (0xa0). *)

Module pystr.

Import String Ascii.
Local Open Scope string_scope.

Definition isspace (c : ascii) : bool :=
  let n := nat_of_ascii c in
  ((9 <=? n) && (n <=? 13) || (28 <=? n) && (n <=? 32)
   || (n =? 133) || (n =? 160))%nat.

(** [s.lstrip()] *)
Fixpoint lstrip (s : string) : string :=
  match s with
  | EmptyString => EmptyString
  | String c s' => if isspace c then lstrip s' else s
  end.

(** [s.rstrip()] *)
Fixpoint rstrip (s : string) : string :=
  match s with
  | EmptyString => EmptyString
  | String c s' =>
      match rstrip s' with
      | EmptyString => if isspace c then EmptyString else String c EmptyString
      | rest => String c rest
      end
  end.

(** [s.strip()] *)
Definition strip (s : string) : string := rstrip (lstrip s).

(** The truth value of a string: it is not empty. *)
Definition truthy (s : string) : bool := negb (s =? "").

(** [sep.join(parts)] *)
Fixpoint join (sep : string) (parts : list string) : string :=
  match parts with
  | [] => ""
  | [part] => part
  | part :: parts' => part ++ sep ++ join sep parts'
  end.

(** An instance of [Exception], with its message. *)
Inductive PyException : Type :=
| RuntimeError (message : string)
| OtherException (message : string).

End pystr.

(** ** argos_translate.py *)

Module argos_translate.

Import String pystr.
Local Open Scope string_scope.

Section translate_text.

(** [argostranslate.translate.translate], which may raise; the import of
    the module, which may raise as well, is part of it. *)
Variable argos_translate : string -> string -> string -> PyException + string.

(** [translate_text] *)
Definition translate_text (text from_lang to_lang : string) : string :=
  if negb (truthy text) || negb (truthy (strip text)) then ""
  else if from_lang =? to_lang then text
  else
    match argos_translate (strip text) from_lang to_lang with
    | inr result => result
    | inl _ => "[Translation error: " ++ text ++ "]"
    end.

Lemma truthy_false (s : string) : truthy s = false <-> s = "".
Proof.
  unfold truthy. rewrite negb_false_iff. apply String.eqb_eq.
Qed.

(** C8 (as the code has it). With the source language equal to the target
    language, [translate_text] returns the text unchanged when the text has
    a character that is not white space, without calling the translator;
    a text that is empty or all white space comes back as the empty
    string. *)
Theorem translate_text_same_language (text lang : string) :
  (strip text <> "" -> translate_text text lang lang = text) /\
  (strip text = "" -> translate_text text lang lang = "").
Proof.
  unfold translate_text. split; intros H.
  - assert (Ht : text <> "") by (intros ->; apply H; reflexivity).
    destruct (truthy text) eqn:E1;
      [|apply truthy_false in E1; contradiction].
    destruct (truthy (strip text)) eqn:E2;
      [|apply truthy_false in E2; contradiction].
    cbn. rewrite String.eqb_refl. reflexivity.
  - apply truthy_false in H. rewrite H, orb_true_r. reflexivity.
Qed.

End translate_text.

(** A translator double that raises on every call. *)
Definition no_translator (_ _ _ : string) : PyException + string :=
  inl (OtherException "no language pack").

(** English to English, on a sentence and on two spaces. *)
Lemma translate_text_same_language_witness :
  strip "good morning" <> "" /\
  translate_text no_translator "good morning" "en" "en" = "good morning" /\
  strip "  " = "" /\
  translate_text no_translator "  " "en" "en" = "".
Proof.
  pose proof (translate_text_same_language no_translator "good morning" "en")
    as [H1 _].
  pose proof (translate_text_same_language no_translator "  " "en") as [_ H2].
  split; [discriminate|]. split; [apply H1; discriminate|].
  split; [reflexivity|]. apply H2. reflexivity.
Defined.

(** C8, counterexample. A text of one space passes [not text] and fails
    [not text.strip()]: the first guard returns the empty string before the
    languages are compared. *)
Lemma translate_text_blank_not_identity :
  translate_text no_translator " " "en" "en" = "" /\
  translate_text no_translator " " "en" "en" <> " ".
Proof. split; [reflexivity|discriminate]. Qed.

End argos_translate.

(** ** whisper_asr.py *)

Module whisper_asr.

Import String pystr.
Local Open Scope string_scope.

(** [LANG_MAP] *)
Definition LANG_MAP : list (string * string) :=
  [("en", "en"); ("ja", "ja"); ("hi", "hi")].

(** [d.get(key, default)] *)
Fixpoint dict_get (d : list (string * string)) (key default : string) : string :=
  match d with
  | [] => default
  | (k, v) :: d' => if k =? key then v else dict_get d' key default
  end.

(** The generator of segments that [model.transcribe] returns: it yields
    the text of a segment, ends, or raises while decoding. *)
Inductive Segments : Type :=
| Segments_end
| Segments_yield (text : string) (rest : Segments)
| Segments_raise (e : PyException).

Section WhisperASR.

(** The loaded [WhisperModel], the audio array and the [info] object. *)
Variable WhisperModel : Type.
Variable Audio : Type.
Variable Info : Type.

(** [self.model.transcribe(audio, language=..., ...)] *)
Variable model_transcribe :
  WhisperModel -> Audio -> string -> PyException + (Segments * Info).

Record WhisperASR : Type := mkWhisperASR {
  model : option WhisperModel
}.

(** The [for segment in segments] loop (lines 86-89). *)
Fixpoint collect_texts (segments : Segments) (texts : list string)
  : PyException + list string :=
  match segments with
  | Segments_end => inr texts
  | Segments_yield segment_text rest =>
      let text := strip segment_text in
      collect_texts rest (if truthy text then texts ++ [text] else texts)
  | Segments_raise e => inl e
  end.

(** The body of the [try] block. *)
Definition try_transcribe (m : WhisperModel) (audio : Audio)
    (whisper_lang : string) : PyException + string :=
  match model_transcribe m audio whisper_lang with
  | inl e => inl e
  | inr (segments, info) =>
      match collect_texts segments [] with
      | inl e => inl e
      | inr texts => inr (join " " texts)
      end
  end.

(** [WhisperASR.transcribe]: [inl] is an exception that leaves the method,
    [inr] the returned text. *)
Definition transcribe (self : WhisperASR) (audio : Audio) (language : string)
  : PyException + string :=
  match model self with
  | None => inl (RuntimeError "Whisper model not loaded. Call load() first.")
  | Some m =>
      let whisper_lang := dict_get LANG_MAP language language in
      match try_transcribe m audio whisper_lang with
      | inr full_text => inr full_text
      | inl _ => inr ""
      end
  end.

(** C9 (as the code has it). With a loaded model, [transcribe] never raises:
    it returns a text, and the text is empty whenever the model raised,
    at the call or while the segments were decoded. Without a loaded model
    it raises [RuntimeError]. *)
Theorem transcribe_with_model_never_raises (self : WhisperASR) (audio : Audio)
    (language : string) :
  let whisper_lang := dict_get LANG_MAP language language in
  (forall m, model self = Some m ->
     (exists text, transcribe self audio language = inr text) /\
     (forall e, model_transcribe m audio whisper_lang = inl e ->
                transcribe self audio language = inr "") /\
     (forall segments info e,
         model_transcribe m audio whisper_lang = inr (segments, info) ->
         collect_texts segments [] = inl e ->
         transcribe self audio language = inr "")) /\
  (model self = None ->
   transcribe self audio language
   = inl (RuntimeError "Whisper model not loaded. Call load() first.")).
Proof.
  cbn zeta. unfold transcribe, try_transcribe. split.
  - intros m ->. split; [|split].
    + destruct (model_transcribe m audio (dict_get LANG_MAP language language))
        as [e|[segments info]]; [eexists; reflexivity|].
      destruct (collect_texts segments []); eexists; reflexivity.
    + intros e ->. reflexivity.
    + intros segments info e -> ->. reflexivity.
  - intros ->. reflexivity.
Qed.

End WhisperASR.

(** A model double whose generator yields one segment and then raises. *)
Definition failing_model (_ : unit) (_ : list Q) (_ : string)
  : PyException + (Segments * unit) :=
  inr (Segments_yield " hello" (Segments_raise (OtherException "decoder")), tt).

(** The double is loaded; decoding raises after the first segment. *)
Lemma transcribe_with_model_never_raises_witness :
  transcribe unit (list Q) unit failing_model (mkWhisperASR unit (Some tt))
    [1 # 2; 1 # 4] "en" = inr "".
Proof.
  pose proof (transcribe_with_model_never_raises unit (list Q) unit
                failing_model (mkWhisperASR unit (Some tt)) [1 # 2; 1 # 4] "en")
    as [H _].
  destruct (H tt eq_refl) as (_ & _ & H3).
  apply (H3 _ tt (OtherException "decoder") eq_refl). reflexivity.
Defined.

(** C9, counterexample. [load()] was not called, or it failed on the CPU
    and left [self.model] at [None]: [transcribe] raises [RuntimeError]
    before it reaches the [try] block, for any audio and language. *)
Lemma transcribe_without_model_raises :
  transcribe unit (list Q) unit (fun _ _ _ => inr (Segments_end, tt))
    (mkWhisperASR unit None) [1 # 2; 1 # 4] "en"
  = inl (RuntimeError "Whisper model not loaded. Call load() first.").
Proof. reflexivity. Qed.

End whisper_asr.

(** ** More on the feedback gate and the capture callbacks *)

Module capture_facts.

Import pyqueue loopback_capture.

(** X5. After [set_gate(d)] at [now] the loopback is gated at every time
    before [now + d + FEEDBACK_GATE_BUFFER_S], and a time at which it was
    gated before the call stays gated. If no longer window was running, the
    gate opens from [now + d + FEEDBACK_GATE_BUFFER_S] on. *)
Theorem set_gate_covers_playback (self : LoopbackCapture)
    (now duration_s : Q) :
  let self' := fst (set_gate self now duration_s) in
  let gate_end := (now + duration_s + config.FEEDBACK_GATE_BUFFER_S)%Q in
  (forall t, (t < gate_end)%Q -> is_gated self' t = true) /\
  (forall t, is_gated self t = true -> is_gated self' t = true) /\
  ((_gate_until self <= gate_end)%Q ->
   forall t, (gate_end <= t)%Q -> is_gated self' t = false).
Proof.
  cbn zeta. unfold is_gated. cbn [set_gate fst set_gate_until _gate_until].
  set (gate_end := (now + duration_s + config.FEEDBACK_GATE_BUFFER_S)%Q).
  pose proof (py_max_ge_l (_gate_until self) gate_end) as Hl.
  pose proof (py_max_ge_r (_gate_until self) gate_end) as Hr.
  split; [|split].
  - intros t Ht. apply Qlt_bool_true. lra.
  - intros t Ht. apply Qlt_bool_true in Ht. apply Qlt_bool_true. lra.
  - intros Hold t Ht. apply Qlt_bool_false.
    destruct (py_max_cases (_gate_until self) gate_end) as [[-> H]|[-> H]]; lra.
Qed.

(** A two-second clip armed at 10 s: gated at 12.2 s, open at 12.3 s. *)
Lemma set_gate_covers_playback_witness :
  let self := init (mkQueue config.QUEUE_MAX_SIZE []) (mkEventLoop false []) in
  is_gated (fst (set_gate self 10 2)) (122 # 10) = true /\
  is_gated (fst (set_gate self 10 2)) (123 # 10) = false.
Proof.
  cbn zeta.
  pose proof (set_gate_covers_playback
                (init (mkQueue config.QUEUE_MAX_SIZE []) (mkEventLoop false []))
                10 2) as (H1 & _ & H3).
  split.
  - apply H1. reflexivity.
  - apply H3; vm_compute; discriminate.
Defined.

(** X6. A loopback callback never touches the audio queue, the running
    flag or the gate: all it can change is the list of callbacks waiting on
    the event loop, which grows by the one put it schedules or stays as it
    is. When the capture is stopped or the loop is closed, the capture
    object comes back unchanged. *)
Theorem loopback_callback_only_schedules (self : LoopbackCapture)
    (callback : Callback) (indata : indata.t) (status : bool) (now : Q) :
  callback = _audio_callback \/
  (exists ratio, callback = resampling_callback ratio) ->
  let self' := fst (callback self indata status now) in
  audio_queue self' = audio_queue self /\
  _running self' = _running self /\
  _gate_until self' = _gate_until self /\
  closed (loop self') = closed (loop self) /\
  (ready (loop self') = ready (loop self) \/
   exists chunk, ready (loop self') = ready (loop self) ++ [chunk]) /\
  (_running self = false \/ closed (loop self) = true -> self' = self).
Proof.
  assert (Hsched : forall chunk,
             let self' := set_loop (schedule_put (loop self) chunk) self in
             audio_queue self' = audio_queue self /\
             _running self' = _running self /\
             _gate_until self' = _gate_until self /\
             closed (loop self') = closed (loop self) /\
             (ready (loop self') = ready (loop self) \/
              exists c, ready (loop self') = ready (loop self) ++ [c]) /\
             (closed (loop self) = true -> self' = self)).
  { intros chunk. destruct self as [q [c r] run g].
    unfold schedule_put, call_soon_threadsafe, set_loop; cbn.
    destruct c; cbn; repeat split; try (intros; discriminate);
      [left; reflexivity|right; eexists; reflexivity]. }
  intros [->|[ratio ->]]; cbn zeta.
  - unfold _audio_callback.
    destruct (negb (_running self) || is_gated self now) eqn:E; cbn [fst].
    + repeat split; try (left; reflexivity).
    + apply orb_false_iff in E. destruct E as [E _].
      apply negb_false_iff in E.
      destruct (Hsched (indata.to_mono indata)) as (H1 & H2 & H3 & H4 & H5 & H6).
      repeat split; try assumption.
      intros [Hr|Hc]; [congruence|apply H6, Hc].
  - unfold resampling_callback.
    destruct (negb (_running self) || is_gated self now) eqn:E; cbn [fst].
    + repeat split; try (left; reflexivity).
    + apply orb_false_iff in E. destruct E as [E _].
      apply negb_false_iff in E.
      destruct (resample ratio (indata.to_mono indata)) as [e|resampled];
        cbn [fst].
      * repeat split; try (left; reflexivity).
      * destruct (Hsched resampled) as (H1 & H2 & H3 & H4 & H5 & H6).
        repeat split; try assumption.
        intros [Hr|Hc]; [congruence|apply H6, Hc].
Qed.

(** A stopped capture is handed a block. *)
Lemma loopback_callback_only_schedules_witness :
  let self := init (mkQueue config.QUEUE_MAX_SIZE []) (mkEventLoop false []) in
  fst (_audio_callback self [(1 # 2, [])] false 5) = self.
Proof.
  cbn zeta.
  apply (loopback_callback_only_schedules
           (init (mkQueue config.QUEUE_MAX_SIZE []) (mkEventLoop false []))
           _audio_callback [(1 # 2, [])] false 5 (or_introl eq_refl)).
  left. reflexivity.
Defined.

Lemma _safe_put_room {A} (q : Queue A) (chunk : A) :
  full q = false -> _safe_put q chunk = mkQueue (maxsize q) (items q ++ [chunk]).
Proof. unfold _safe_put, put_nowait. intros ->. reflexivity. Qed.

(** X7. A running, ungated loopback capture with an open, idle event loop
    and room in its queue delivers the block: once the loop has run the
    scheduled put, the queue holds one more chunk at its end, the mono
    conversion of the block for [_audio_callback] and its resampling for
    [resampling_callback], and nothing else has changed. Where the
    resampling raises, nothing is scheduled and the capture is as it was. *)
Theorem loopback_block_reaches_queue (self : LoopbackCapture)
    (indata : indata.t) (status : bool) (now : Q) :
  _running self = true ->
  (_gate_until self <= now)%Q ->
  loop self = mkEventLoop false [] ->
  full (audio_queue self) = false ->
  let delivered chunk :=
    {| audio_queue := mkQueue (maxsize (audio_queue self))
                              (items (audio_queue self) ++ [chunk]);
       loop := mkEventLoop false [];
       _running := true; _gate_until := _gate_until self |} in
  run_loop (fst (_audio_callback self indata status now))
  = delivered (indata.to_mono indata) /\
  (forall ratio resampled,
      resample ratio (indata.to_mono indata) = inr resampled ->
      run_loop (fst (resampling_callback ratio self indata status now))
      = delivered resampled) /\
  (forall ratio e,
      resample ratio (indata.to_mono indata) = inl e ->
      fst (resampling_callback ratio self indata status now) = self).
Proof.
  intros Hrun Hgate Hloop Hroom. cbn zeta.
  assert (Hg : is_gated self now = false) by (apply Qlt_bool_false, Hgate).
  unfold _audio_callback, resampling_callback. rewrite Hrun, Hg. cbn [negb orb fst].
  unfold run_loop, run_ready, set_loop, schedule_put, call_soon_threadsafe.
  cbn [loop audio_queue _running _gate_until]. rewrite Hloop, Hrun.
  cbn [closed ready app fold_left].
  split; [|split].
  - rewrite (_safe_put_room _ _ Hroom). reflexivity.
  - intros ratio resampled ->. cbn [fst loop audio_queue _running _gate_until
                                    closed ready app fold_left].
    rewrite (_safe_put_room _ _ Hroom). reflexivity.
  - intros ratio e ->. reflexivity.
Qed.

(** A stereo block at 3 s, on a capture whose gate ended at 2.3 s. *)
Lemma loopback_block_reaches_queue_witness :
  let self := {| audio_queue := mkQueue config.QUEUE_MAX_SIZE [[1 # 8]];
                 loop := mkEventLoop false [];
                 _running := true; _gate_until := 23 # 10 |} in
  items (audio_queue
           (run_loop (fst (_audio_callback self
                             [(1 # 2, [1 # 4]); (1 # 4, [0])] false 3))))
  = [[1 # 8]; indata.to_mono [(1 # 2, [1 # 4]); (1 # 4, [0])]].
Proof.
  cbn zeta.
  pose proof (loopback_block_reaches_queue
                {| audio_queue := mkQueue config.QUEUE_MAX_SIZE [[1 # 8]];
                   loop := mkEventLoop false [];
                   _running := true; _gate_until := 23 # 10 |}
                [(1 # 2, [1 # 4]); (1 # 4, [0])] false 3 eq_refl) as H.
  destruct H as [H _]; [vm_compute; discriminate|reflexivity|reflexivity|].
  rewrite H. reflexivity.
Defined.

(** X8. The microphone callback of a running capture with an open, idle
    event loop and room in its queue delivers the first channel of the
    block at the end of the queue; a stopped capture, or a closed loop,
    leaves the capture as it was. *)
Theorem mic_block_reaches_queue (self : mic_capture.MicCapture)
    (indata : indata.t) (status : bool) :
  (mic_capture._running self = true ->
   mic_capture.loop self = mkEventLoop false [] ->
   full (mic_capture.audio_queue self) = false ->
   mic_capture.run_loop (fst (mic_capture._audio_callback self indata status))
   = {| mic_capture.audio_queue :=
          mkQueue (maxsize (mic_capture.audio_queue self))
                  (items (mic_capture.audio_queue self)
                   ++ [indata.column0 indata]);
        mic_capture.loop := mkEventLoop false [];
        mic_capture._running := true |}) /\
  (mic_capture._running self = false \/
   closed (mic_capture.loop self) = true ->
   fst (mic_capture._audio_callback self indata status) = self).
Proof.
  split.
  - intros Hrun Hloop Hroom. unfold mic_capture._audio_callback.
    rewrite Hrun. cbn [negb fst].
    unfold mic_capture.run_loop, run_ready, schedule_put, call_soon_threadsafe.
    cbn [mic_capture.loop mic_capture.audio_queue mic_capture._running].
    rewrite Hloop. cbn [closed ready app fold_left].
    rewrite (_safe_put_room _ _ Hroom). reflexivity.
  - destruct self as [q [c r] run]. unfold mic_capture._audio_callback. cbn.
    intros [->| ->]; [reflexivity|].
    destruct run; reflexivity.
Qed.

(** A running microphone capture is handed a block of two frames. *)
Lemma mic_block_reaches_queue_witness :
  let self := {| mic_capture.audio_queue := mkQueue config.QUEUE_MAX_SIZE [];
                 mic_capture.loop := mkEventLoop false [];
                 mic_capture._running := true |} in
  items (mic_capture.audio_queue
           (mic_capture.run_loop
              (fst (mic_capture._audio_callback self
                      [(1 # 2, []); (1 # 4, [])] false))))
  = [[1 # 2; 1 # 4]].
Proof.
  cbn zeta.
  pose proof (mic_block_reaches_queue
                {| mic_capture.audio_queue := mkQueue config.QUEUE_MAX_SIZE [];
                   mic_capture.loop := mkEventLoop false [];
                   mic_capture._running := true |}
                [(1 # 2, []); (1 # 4, [])] false) as [H _].
  rewrite (H eq_refl eq_refl eq_refl). reflexivity.
Defined.

(** Puts on a bounded queue that nobody empties keep the oldest chunks. *)
Lemma safe_puts_keep_oldest {A} (chunks : list A) :
  forall (m : Z) (l : list A),
    (0 < m)%Z -> (Z.of_nat (length l) <= m)%Z ->
    fold_left _safe_put chunks (mkQueue m l)
    = mkQueue m (firstn (Z.to_nat m) (l ++ chunks)).
Proof.
  induction chunks as [|c chunks IH]; intros m l Hm Hsize.
  - cbn. rewrite app_nil_r, firstn_all2 by lia. reflexivity.
  - cbn [fold_left]. unfold _safe_put at 2, put_nowait, full, qsize.
    cbn [maxsize items].
    destruct (Z.leb_spec m 0) as [|_]; [lia|].
    destruct (Z.leb_spec m (Z.of_nat (length l))) as [Hfull|Hroom]; cbn [negb].
    + rewrite (IH m l Hm Hsize). rewrite !firstn_app.
      replace (Z.to_nat m - length l)%nat with 0%nat by lia. reflexivity.
    + rewrite (IH m (l ++ [c]) Hm) by (rewrite length_app; cbn; lia).
      rewrite <- app_assoc. reflexivity.
Qed.

(** X9. When the loop runs the puts that the capture callbacks scheduled,
    a bounded audio queue that holds no more than its capacity ends up with
    its old chunks followed by the scheduled ones, in order, cut at the
    capacity: the newest are dropped, and the queue stays within its
    capacity. *)
Theorem run_loop_keeps_oldest (self : LoopbackCapture) :
  (0 < maxsize (audio_queue self))%Z ->
  (qsize (audio_queue self) <= maxsize (audio_queue self))%Z ->
  let q' := audio_queue (run_loop self) in
  maxsize q' = maxsize (audio_queue self) /\
  items q' = firstn (Z.to_nat (maxsize (audio_queue self)))
                    (items (audio_queue self) ++ ready (loop self)) /\
  (qsize q' <= maxsize q')%Z /\
  ready (loop (run_loop self)) = [].
Proof.
  destruct self as [[m l] [c r] run g]. unfold qsize. cbn.
  intros Hm Hsize. unfold run_loop, run_ready. cbn.
  rewrite (safe_puts_keep_oldest r m l Hm Hsize). cbn.
  repeat split. rewrite length_firstn. lia.
Qed.

(** A queue of capacity 2 with one chunk, and three puts waiting. *)
Lemma run_loop_keeps_oldest_witness :
  let self := {| audio_queue := mkQueue 2 [[1 # 8]];
                 loop := mkEventLoop false [[1 # 4]; [1 # 2]; [1]];
                 _running := true; _gate_until := 0 |} in
  items (audio_queue (run_loop self)) = [[1 # 8]; [1 # 4]].
Proof.
  cbn zeta.
  pose proof (run_loop_keeps_oldest
                {| audio_queue := mkQueue 2 [[1 # 8]];
                   loop := mkEventLoop false [[1 # 4]; [1 # 2]; [1]];
                   _running := true; _gate_until := 0 |}) as H.
  destruct H as (_ & H & _); [reflexivity|vm_compute; discriminate|].
  rewrite H. reflexivity.
Defined.

(** [int(native_sr * config.CHUNK_DURATION_MS / 1000)], the block size
    both [_start_as_input_device] and [_start_as_wasapi_loopback] ask of
    the stream: an integer product, a true division, a truncation. *)
Definition blocksize (native_sr : Z) : Z :=
  numpy.py_int
    (numpy.float64 (inject_Z (native_sr * config.CHUNK_DURATION_MS) / 1000)).

(** At a multiple of 100 Hz the 30 ms are a whole number of frames. *)
Lemma blocksize_multiple_of_100 (k : Z) :
  (0 < k < 2 ^ 32)%Z -> blocksize (100 * k) = (3 * k)%Z.
Proof.
  intros Hk. unfold blocksize, config.CHUNK_DURATION_MS.
  assert (Hq : (inject_Z (100 * k * 30) / 1000 == inject_Z (3 * k))%Q).
  { replace (100 * k * 30)%Z with (3 * k * 1000)%Z by lia.
    rewrite inject_Z_mult. change (inject_Z 1000) with 1000%Q. field. }
  rewrite (numpy.py_int_comp _ (inject_Z (3 * k))).
  - apply numpy.py_int_inject.
  - rewrite (numpy.float64_comp _ _ Hq). apply numpy.float64_integer. lia.
Qed.

Lemma length_to_mono (indata : indata.t) :
  length (indata.to_mono indata) = length indata.
Proof.
  unfold indata.to_mono, indata.mean_axis1, indata.column0.
  destruct (1 <? indata.shape1 indata)%nat; apply length_map.
Qed.

(** X25. At a native rate that is a multiple of 100 Hz, a block of the
    size the stream was opened with reaches the loop as a chunk of 480
    samples, the 30 ms of [CHUNK_DURATION_MS] at [SAMPLE_RATE], or of 479:
    [int(len(mono) * ratio)] truncates a float product that can fall just
    below 480. The chunk has 480 samples at 16 kHz, where the block is
    passed on, and at every rate whose ratio [SAMPLE_RATE / native_sr] is
    a double. *)
Theorem stream_blocks_become_479_or_480_samples (native_sr : Z)
    (callback : Callback) (self : LoopbackCapture) (indata : indata.t)
    (status : bool) (now : Q) :
  (0 < native_sr < 2 ^ 32)%Z -> (native_sr mod 100 = 0)%Z ->
  _make_resampling_callback native_sr = inr callback ->
  Z.of_nat (length indata) = blocksize native_sr ->
  _running self = true -> (_gate_until self <= now)%Q ->
  loop self = mkEventLoop false [] ->
  let ratio := (inject_Z config.SAMPLE_RATE / inject_Z native_sr)%Q in
  exists chunk,
    ready (loop (fst (callback self indata status now))) = [chunk] /\
    (length chunk = 480 \/ length chunk = 479)%nat /\
    ((native_sr = config.SAMPLE_RATE \/ numpy.float64 ratio == ratio)%Q ->
     length chunk = 480%nat).
Proof.
  intros Hpos Hmod Hcb Hlen Hrun Hgate Hloop. cbn zeta.
  assert (Hg : is_gated self now = false) by (apply Qlt_bool_false, Hgate).
  assert (Hk : exists k, (0 < k < 2 ^ 32)%Z /\ native_sr = (100 * k)%Z).
  { exists (native_sr / 100)%Z.
    pose proof (Z.div_mod native_sr 100 ltac:(lia)) as H. split; lia. }
  destruct Hk as (k & Hk & ->).
  rewrite (blocksize_multiple_of_100 k Hk) in Hlen.
  unfold _make_resampling_callback in Hcb.
  destruct (Z.eqb_spec (100 * k) config.SAMPLE_RATE) as [Heq|Hne].
  - injection Hcb as <-. exists (indata.to_mono indata).
    unfold _audio_callback. rewrite Hrun, Hg. cbn [negb orb fst].
    unfold set_loop, schedule_put, call_soon_threadsafe. cbn [loop].
    rewrite Hloop. cbn [closed ready app]. split; [reflexivity|].
    rewrite length_to_mono. unfold config.SAMPLE_RATE in Heq.
    split; [left|intros _]; lia.
  - destruct (Z.eqb_spec (100 * k) 0) as [|_]; [lia|].
    injection Hcb as <-.
    set (ratio := (inject_Z config.SAMPLE_RATE / inject_Z (100 * k))%Q).
    set (mono := indata.to_mono indata).
    assert (Hmono : Z.of_nat (length mono) = (3 * k)%Z)
      by (unfold mono; rewrite length_to_mono; exact Hlen).
    pose proof (numpy.py_int_scaled_float64 (3 * k) config.SAMPLE_RATE
                  (100 * k) ltac:(lia) ltac:(reflexivity) ltac:(lia)
                  ltac:(unfold config.SAMPLE_RATE; lia)) as [Hq _].
    cbn zeta in Hq. fold ratio in Hq.
    assert (Hquot : (3 * k * config.SAMPLE_RATE / (100 * k) = 480)%Z).
    { unfold config.SAMPLE_RATE.
      replace (3 * k * 16000)%Z with (480 * (100 * k))%Z by lia.
      apply Z.div_mul. lia. }
    rewrite Hquot in Hq.
    destruct (resample_returns (numpy.float64 ratio) mono
                ltac:(rewrite Hmono; lia)) as [out Hout].
    destruct (resample_values (numpy.float64 ratio) mono out ltac:(lia) Hout)
      as [Hcount _].
    rewrite Hmono in Hcount.
    exists out. unfold resampling_callback. rewrite Hrun, Hg.
    change (negb true || false) with false. cbv iota.
    fold mono.
    match goal with
    | |- context [resample ?r mono] =>
        change (resample r mono) with (resample (numpy.float64 ratio) mono)
    end.
    rewrite Hout. cbn [fst].
    unfold set_loop, schedule_put, call_soon_threadsafe. cbn [loop].
    rewrite Hloop. cbn [closed ready app]. split; [reflexivity|].
    split; [lia|].
    intros [Heq|Hdouble]; [contradiction|].
    assert (Hprod : (numpy.float64 (inject_Z (3 * k))
                     * numpy.float64 ratio == inject_Z 480)%Q).
    { rewrite Hdouble.
      rewrite (numpy.float64_integer (3 * k)) by lia.
      unfold ratio, config.SAMPLE_RATE. rewrite !inject_Z_mult.
      change (inject_Z 3) with 3%Q. change (inject_Z 100) with 100%Q.
      change (inject_Z 16000) with 16000%Q. change (inject_Z 480) with 480%Q.
      field. intros H.
      assert (Hk0 : (0 < inject_Z k)%Q)
        by (change 0%Q with (inject_Z 0); rewrite <- Zlt_Qlt; lia).
      rewrite H in Hk0. discriminate Hk0. }
    rewrite (numpy.py_int_comp _ (inject_Z 480)) in Hcount.
    + rewrite numpy.py_int_inject in Hcount. lia.
    + rewrite (numpy.float64_comp _ _ Hprod).
      apply numpy.float64_integer. lia.
Qed.

(** A device at 3.9 kHz: blocks of 117 frames. *)
Lemma stream_blocks_become_479_or_480_samples_witness :
  let self := {| audio_queue := mkQueue config.QUEUE_MAX_SIZE [];
                 loop := mkEventLoop false [];
                 _running := true; _gate_until := 0 |} in
  let ratio := numpy.float64 (inject_Z config.SAMPLE_RATE / inject_Z 3900) in
  exists chunk,
    ready (loop (fst (resampling_callback ratio self
                        (repeat (1 # 2, []) 117) false 1))) = [chunk] /\
    (length chunk = 480 \/ length chunk = 479)%nat.
Proof.
  cbn zeta.
  pose proof (stream_blocks_become_479_or_480_samples 3900
                (resampling_callback
                   (numpy.float64 (inject_Z config.SAMPLE_RATE
                                   / inject_Z 3900)))
                {| audio_queue := mkQueue config.QUEUE_MAX_SIZE [];
                   loop := mkEventLoop false [];
                   _running := true; _gate_until := 0 |}
                (repeat (1 # 2, []) 117) false 1) as H.
  destruct H as (chunk & Hready & Hlen & _);
    try reflexivity; [split; reflexivity|vm_compute; discriminate|].
  exists chunk. split; [exact Hready|exact Hlen].
Defined.

(** That device gets 479 samples a block; one at 48 kHz gets 480. *)
Lemma native_rate_3900_gives_479 :
  let chunk_length native_sr frames :=
    match resample (numpy.float64 (inject_Z config.SAMPLE_RATE
                                   / inject_Z native_sr))
                   (repeat (1 # 2) frames) with
    | inr out => Some (length out)
    | inl _ => None
    end in
  blocksize 3900 = 117%Z /\ chunk_length 3900%Z 117%nat = Some 479%nat /\
  blocksize 48000 = 1440%Z /\ chunk_length 48000%Z 1440%nat = Some 480%nat.
Proof. vm_compute. repeat split. Qed.

End capture_facts.

(** ** More on the resampling step *)

Module resample_facts.

Import numpy loopback_capture.

Lemma last_in (l : list Q) : l <> [] -> In (last l 0%Q) l.
Proof.
  induction l as [|y l IH]; intros Hne; [contradiction|].
  destruct l as [|z l]; [now left|].
  right. apply IH. discriminate.
Qed.

Lemma last_nth (l : list Q) : last l 0%Q = nth (length l - 1) l 0%Q.
Proof.
  induction l as [|y l IH]; [reflexivity|].
  destruct l as [|z l]; [reflexivity|].
  change (last (y :: z :: l) 0%Q) with (last (z :: l) 0%Q). rewrite IH.
  cbn [length]. replace (S (S (length l)) - 1)%nat with (S (length l - 0)) by lia.
  cbn [nth]. rewrite Nat.sub_0_r.
  replace (S (length l) - 1)%nat with (length l) by lia. reflexivity.
Qed.

(** The fractional part of a float lies in [0, 1). *)
Lemma frac_bounds (x : Q) :
  (0 <= x - inject_Z (Qfloor x))%Q /\ (x - inject_Z (Qfloor x) < 1)%Q.
Proof.
  pose proof (Qfloor_le x) as Hl. pose proof (Qlt_floor x) as Hu.
  rewrite inject_Z_plus in Hu. change (inject_Z 1) with 1%Q in Hu.
  split; lra.
Qed.

(** A point of the broken line lies between the samples around it. *)
Lemma lerp_between (fp : list Q) (x lo hi : Q) :
  fp <> [] ->
  Forall (fun y => (lo <= y)%Q /\ (y <= hi)%Q) fp ->
  (lo <= lerp fp x)%Q /\ (lerp fp x <= hi)%Q.
Proof.
  intros Hne Hall. unfold lerp, lerp_from.
  rewrite Forall_forall in Hall.
  destruct (Nat.ltb_spec (S (Z.to_nat (Qfloor x - 0))) (length fp)) as [Hlt|Hge].
  - set (i := Z.to_nat (Qfloor x - 0)) in *.
    destruct (Hall (nth i fp 0%Q)) as [Ha1 Ha2]; [apply nth_In; lia|].
    destruct (Hall (nth (S i) fp 0%Q)) as [Hb1 Hb2]; [apply nth_In; lia|].
    destruct (frac_bounds x) as [Hf0 Hf1].
    set (a := nth i fp 0%Q) in *. set (b := nth (S i) fp 0%Q) in *.
    set (f := (x - inject_Z (Qfloor x))%Q) in *.
    assert (H1 : (0 <= (a - lo) * (1 - f))%Q)
      by (apply Qmult_le_0_compat; lra).
    assert (H2 : (0 <= (b - lo) * f)%Q) by (apply Qmult_le_0_compat; lra).
    assert (H3 : (0 <= (hi - a) * (1 - f))%Q)
      by (apply Qmult_le_0_compat; lra).
    assert (H4 : (0 <= (hi - b) * f)%Q) by (apply Qmult_le_0_compat; lra).
    split; lra.
  - apply Hall, last_in, Hne.
Qed.

(** X10. Resampling never leaves the range of its input: if every sample of
    the block lies between [lo] and [hi], so does every sample of the
    resampled block, for any ratio. A block within [-1, 1] stays within
    [-1, 1]. *)
Theorem resample_stays_in_range (ratio : Q) (mono out : list Q) (lo hi : Q) :
  Forall (fun y => (lo <= y)%Q /\ (y <= hi)%Q) mono ->
  resample ratio mono = inr out ->
  Forall (fun y => (lo <= y)%Q /\ (y <= hi)%Q) out.
Proof.
  intros Hall. unfold resample, linspace_checked.
  destruct (Nat.ltb_spec 1 (length mono)) as [Hlt|_];
    [|intros [= <-]; exact Hall].
  destruct (_ <? 0)%Z; [discriminate|]. intros [= <-].
  unfold interp. apply Forall_map.
  assert (Hne : mono <> []) by (destruct mono; [cbn in Hlt; lia|discriminate]).
  assert (Hstop : (0 <= inject_Z (Z.of_nat (length mono)) - 1)%Q).
  { assert (H : (inject_Z 1 <= inject_Z (Z.of_nat (length mono)))%Q)
      by (rewrite <- Zle_Qle; lia).
    change (inject_Z 1) with 1%Q in H. lra. }
  eapply Forall_impl; [|apply (linspace_nonneg _ _ Hstop)].
  intros x Hx. cbn beta.
  rewrite (interp1_arange mono x Hne Hx).
  apply lerp_between; assumption.
Qed.

(** Three samples within [-1, 1], resampled from 8 kHz. *)
Lemma resample_stays_in_range_witness :
  exists out,
    resample (float64 (inject_Z 16000 / inject_Z 8000)) [-1; 1 # 2; 1]
    = inr out /\
    Forall (fun y => (-1 <= y)%Q /\ (y <= 1)%Q) out.
Proof.
  eexists. split; [vm_compute; reflexivity|].
  eapply (resample_stays_in_range
            (float64 (inject_Z 16000 / inject_Z 8000)) [-1; 1 # 2; 1]).
  - repeat constructor; vm_compute; discriminate.
  - vm_compute. reflexivity.
Defined.

(** On a sample index the broken line takes the sample. *)
Lemma lerp_at_index (fp : list Q) (x : Q) (i : nat) :
  (x == inject_Z (Z.of_nat i))%Q -> (i < length fp)%nat ->
  (lerp fp x == nth i fp 0)%Q.
Proof.
  intros Hx Hi.
  assert (Hfl : Qfloor x = Z.of_nat i) by (rewrite Hx; apply Qfloor_Z).
  unfold lerp, lerp_from. rewrite Hfl, Z.sub_0_r, Nat2Z.id.
  destruct (Nat.ltb_spec (S i) (length fp)) as [Hlt|Hge].
  - rewrite Hx. ring.
  - rewrite last_nth. replace (length fp - 1)%nat with i by lia. reflexivity.
Qed.

Lemma Forall2_Qeq_nth (l1 l2 : list Q) :
  Forall2 Qeq l1 l2 -> forall k, (nth k l1 0 == nth k l2 0)%Q.
Proof.
  induction 1 as [|x y l1 l2 Hxy _ IH]; intros [|k]; cbn;
    try reflexivity; [exact Hxy|apply IH].
Qed.

(** Sample [k] of the resampled block, for a block of more than one
    sample: the interpolation at point [k] of [linspace]. *)
Lemma resample_nth (ratio : Q) (mono out : list Q) (k : nat) :
  (1 < length mono)%nat -> resample ratio mono = inr out ->
  (k < length out)%nat ->
  (nth k out 0
   == lerp mono (nth k (linspace 0 (inject_Z (Z.of_nat (length mono)) - 1)
                           (length out)) 0))%Q.
Proof.
  intros Hn Hout Hk.
  destruct (resample_values ratio mono out Hn Hout) as [_ Hval].
  rewrite (Forall2_Qeq_nth _ _ Hval k).
  set (pts := linspace 0 (inject_Z (Z.of_nat (length mono)) - 1) (length out)).
  rewrite (nth_indep _ 0%Q (lerp mono 0))
    by (rewrite length_map; unfold pts; rewrite length_linspace; exact Hk).
  rewrite (map_nth (lerp mono) pts 0%Q k). reflexivity.
Qed.

(** Point [k] of [linspace(0, stop, num)] for [num >= 2]. *)
Lemma linspace_nth (stop : Q) (num k : nat) :
  (2 <= num)%nat -> (k < num)%nat ->
  nth k (linspace 0 stop num) 0%Q
  = (0 + inject_Z (Z.of_nat k)
         * ((stop - 0) / inject_Z (Z.of_nat (num - 1))))%Q.
Proof.
  intros Hnum Hk. unfold linspace.
  destruct num as [|[|num]]; try lia.
  set (f := fun i : nat =>
              (0 + inject_Z (Z.of_nat i)
                   * ((stop - 0) / inject_Z (Z.of_nat (S (S num) - 1))))%Q).
  rewrite (nth_indep _ 0%Q (f 0%nat))
    by (rewrite length_map, length_seq; exact Hk).
  rewrite (map_nth f (seq 0 (S (S num))) 0%nat k).
  rewrite seq_nth by exact Hk. reflexivity.
Qed.

(** X11. Resampling keeps the ends of the block: the first sample of a
    resampled block that is not empty is the first sample of the block, and
    the last sample of a resampled block of two samples or more is the last
    sample of the block. *)
Theorem resample_keeps_endpoints (ratio : Q) (mono out : list Q) :
  resample ratio mono = inr out ->
  ((1 <= length out)%nat -> (nth 0 out 0 == nth 0 mono 0)%Q) /\
  ((2 <= length out)%nat ->
   (nth (length out - 1) out 0 == nth (length mono - 1) mono 0)%Q).
Proof.
  intros Hout.
  destruct (Nat.ltb_spec 1 (length mono)) as [Hn|Hn].
  2:{ unfold resample in Hout.
      destruct (Nat.ltb_spec 1 (length mono)); [lia|].
      injection Hout as <-. split; intros _; reflexivity. }
  split; intros Hm.
  - rewrite (resample_nth ratio mono out 0 Hn Hout) by lia.
    apply lerp_at_index; [|lia].
    destruct (length out) as [|[|m]] eqn:E; [lia| |].
    + reflexivity.
    + rewrite linspace_nth by lia. cbn [Z.of_nat]. unfold inject_Z at 1.
      ring.
  - rewrite (resample_nth ratio mono out _ Hn Hout) by lia.
    apply lerp_at_index; [|lia].
    set (m := length out) in *.
    rewrite linspace_nth by lia.
    assert (Hm1 : ~ (inject_Z (Z.of_nat (m - 1)) == 0)%Q).
    { change 0%Q with (inject_Z 0). rewrite inject_Z_injective. lia. }
    assert (Hlen : (inject_Z (Z.of_nat (length mono - 1))
                    == inject_Z (Z.of_nat (length mono)) - 1)%Q).
    { rewrite Nat2Z.inj_sub by lia. unfold Z.sub. rewrite inject_Z_plus.
      reflexivity. }
    rewrite Hlen. field. exact Hm1.
Qed.

(** Four samples brought from 8 kHz to 16 kHz: eight samples, with the
    same first and last. *)
Lemma resample_keeps_endpoints_witness :
  exists out,
    resample (float64 (inject_Z 16000 / inject_Z 8000))
             [1 # 2; 1; 1 # 4; 1 # 8] = inr out /\
    length out = 8%nat /\
    (nth 0 out 0 == 1 # 2)%Q /\ (nth 7 out 0 == 1 # 8)%Q.
Proof.
  eexists. split; [vm_compute; reflexivity|].
  match goal with
  | |- length ?out = _ /\ _ =>
      pose proof (resample_keeps_endpoints
                    (float64 (inject_Z 16000 / inject_Z 8000))
                    [1 # 2; 1; 1 # 4; 1 # 8] out) as H
  end.
  destruct H as [H1 H2]; [vm_compute; reflexivity|].
  split; [reflexivity|]. split.
  - apply H1. apply Nat.leb_le. reflexivity.
  - apply H2. apply Nat.leb_le. reflexivity.
Defined.

Lemma Forall2_nth_pointwise (out l : list Q) :
  length out = length l ->
  (forall k, (k < length l)%nat -> (nth k out 0 == nth k l 0)%Q) ->
  Forall2 Qeq out l.
Proof.
  revert l. induction out as [|y out IH]; intros [|z l] Hlen Hnth;
    try discriminate Hlen; constructor.
  - apply (Hnth 0%nat). cbn. lia.
  - apply IH; [cbn in Hlen; lia|].
    intros k Hk. apply (Hnth (S k)). cbn. lia.
Qed.

(** At a ratio of 1 the count is the length of the block, which is a
    double as long as it is below [2^53]. *)
Lemma count_at_equal_rates (n : Z) :
  (0 <= n < 2 ^ 53)%Z ->
  py_int (float64 (float64 (inject_Z n) * 1)) = n.
Proof.
  intros Hn. rewrite (py_int_comp _ (inject_Z n)); [apply py_int_inject|].
  rewrite (float64_comp _ (inject_Z n)).
  - apply float64_integer, Hn.
  - rewrite (float64_integer n Hn). ring.
Qed.

(** X12. At a ratio of 1 the resampling step returns the samples it was
    given, for any block of fewer than [2^53] samples: the guards that
    skip it when the rates are equal save work and change no sample. *)
Theorem resample_at_equal_rates (mono : list Q) :
  (Z.of_nat (length mono) < 2 ^ 53)%Z ->
  exists out, resample 1 mono = inr out /\ Forall2 Qeq out mono.
Proof.
  intros Hbound.
  pose proof (count_at_equal_rates (Z.of_nat (length mono)) ltac:(lia))
    as Hcount.
  destruct (resample_returns 1 mono ltac:(rewrite Hcount; lia))
    as [out Hout].
  exists out. split; [exact Hout|].
  destruct (Nat.ltb_spec 1 (length mono)) as [Hn|Hn].
  2:{ unfold resample in Hout.
      destruct (Nat.ltb_spec 1 (length mono)); [lia|].
      injection Hout as <-.
      clear. induction mono; constructor; [reflexivity|assumption]. }
  assert (Hlen : length out = length mono).
  { destruct (resample_values 1 mono out Hn Hout) as [Hl _].
    rewrite Hcount in Hl. lia. }
  apply Forall2_nth_pointwise; [exact Hlen|].
  intros k Hk. rewrite (resample_nth 1 mono out k Hn Hout) by lia.
  apply lerp_at_index; [|exact Hk].
  rewrite Hlen, linspace_nth by lia.
  assert (Hm1 : ~ (inject_Z (Z.of_nat (length mono - 1)) == 0)%Q).
  { change 0%Q with (inject_Z 0). rewrite inject_Z_injective. lia. }
  assert (Hsub : (inject_Z (Z.of_nat (length mono - 1))
                  == inject_Z (Z.of_nat (length mono)) - 1)%Q).
  { rewrite Nat2Z.inj_sub by lia. unfold Z.sub. rewrite inject_Z_plus.
    reflexivity. }
  rewrite <- Hsub. field. exact Hm1.
Qed.

(** A block of three samples. *)
Lemma resample_at_equal_rates_witness :
  exists out,
    resample 1 [1 # 2; 1 # 4; 1 # 8] = inr out /\
    Forall2 Qeq out [1 # 2; 1 # 4; 1 # 8].
Proof.
  apply (resample_at_equal_rates [1 # 2; 1 # 4; 1 # 8]). reflexivity.
Defined.

End resample_facts.

(** ** The playback worker of audio_player.py *)

Module player_loop.

Import pyqueue audio_player.

(** What one turn of the worker does, in order. *)
Inductive Event : Type :=
| Gate_set (duration : Q)
| Slept_50_ms
| Sd_play (audio : list Q)
| Playback_error (audio : list Q).

(** [q.get(timeout=0.5)]: the oldest item, or [None] for [queue.Empty]
    once the timeout has passed. *)
Definition get {A} (q : Queue A) : option (A * Queue A) :=
  match items q with
  | [] => None
  | item :: rest => Some (item, mkQueue (maxsize q) rest)
  end.

Section worker.

(** [sd.play(audio, samplerate=config.SAMPLE_RATE, blocking=True)] raised. *)
Variable sd_play_raises : list Q -> bool.

(** One turn of the [while self._running] loop of [_player_loop], taken
    with [_running] true. [loopback] is the object behind
    [self._loopback], shared with the capture side; [now] is the clock
    that [set_gate] reads. The queue holds arrays only: [play] never puts
    [None]. *)
Definition _player_loop_turn (self : AudioPlayer)
    (loopback : option loopback_capture.LoopbackCapture) (now : Q)
  : AudioPlayer * option loopback_capture.LoopbackCapture * list Event :=
  match get (_play_queue self) with
  | None => (self, loopback, [])
  | Some (audio, q) =>
      let self := {| _play_queue := q; _running := _running self |} in
      let duration :=
        (inject_Z (Z.of_nat (length audio)) / inject_Z config.SAMPLE_RATE)%Q in
      let '(loopback, armed) :=
        match loopback with
        | Some lb =>
            (Some (fst (loopback_capture.set_gate lb now duration)),
             [Gate_set duration; Slept_50_ms])
        | None => (None, [])
        end in
      (self, loopback,
       armed ++ [if sd_play_raises audio then Playback_error audio
                 else Sd_play audio])
  end.

(** [AudioPlayer._player_loop]: [while self._running], a turn. The method
    returns when it finds the flag false. While the flag is true it does
    not return; [nows] holds the clock readings of the turns that are
    followed, one each. *)
Fixpoint _player_loop (self : AudioPlayer)
    (loopback : option loopback_capture.LoopbackCapture) (nows : list Q)
  : AudioPlayer * option loopback_capture.LoopbackCapture * list Event :=
  match nows with
  | [] => (self, loopback, [])
  | now :: nows' =>
      if _running self then
        let '(self', loopback', events) :=
          _player_loop_turn self loopback now in
        let '(final, loopback'', events') :=
          _player_loop self' loopback' nows' in
        (final, loopback'', events ++ events')
      else (self, loopback, [])
  end.

(** [AudioPlayer.start] sets the flag and starts the thread that runs
    [_player_loop]. *)
Definition start (self : AudioPlayer) : AudioPlayer :=
  {| _play_queue := _play_queue self; _running := true |}.

(** The clips handed to [sd.play], in order. *)
Definition handed_to_sd_play (events : list Event) : list (list Q) :=
  flat_map (fun e => match e with
                     | Sd_play audio | Playback_error audio => [audio]
                     | _ => []
                     end) events.

Lemma handed_to_sd_play_app (a b : list Event) :
  handed_to_sd_play (a ++ b) = handed_to_sd_play a ++ handed_to_sd_play b.
Proof. unfold handed_to_sd_play. apply flat_map_app. Qed.

Lemma _player_loop_turn_plays (m : Z) (audio : list Q) (rest : list (list Q))
    (r : bool) loopback now :
  let out := _player_loop_turn (mkAudioPlayer (mkQueue m (audio :: rest)) r)
               loopback now in
  fst (fst out) = mkAudioPlayer (mkQueue m rest) r /\
  handed_to_sd_play (snd out) = [audio].
Proof.
  unfold _player_loop_turn, get. cbn.
  destruct loopback as [lb|]; cbn; destruct (sd_play_raises audio);
    split; reflexivity.
Qed.

(** With the flag false the method returns at once. *)
Lemma _player_loop_stopped (self : AudioPlayer) loopback (nows : list Q) :
  _running self = false ->
  _player_loop self loopback nows = (self, loopback, []).
Proof. intros H. destruct nows; cbn [_player_loop]; rewrite ?H; reflexivity. Qed.

(** Any number of turns of a running worker: each takes the oldest clip
    while there is one. *)
Lemma _player_loop_drains (nows : list Q) :
  forall (clips : list (list Q)) (m : Z) loopback,
    let out :=
      _player_loop (mkAudioPlayer (mkQueue m clips) true) loopback nows in
    handed_to_sd_play (snd out) = firstn (length nows) clips /\
    fst (fst out) = mkAudioPlayer (mkQueue m (skipn (length nows) clips)) true.
Proof.
  induction nows as [|now nows IH]; intros clips m loopback; cbn zeta.
  - split; reflexivity.
  - cbn [_player_loop length _running]. destruct clips as [|audio rest].
    + specialize (IH [] m loopback). cbn zeta in IH.
      change (_player_loop_turn (mkAudioPlayer (mkQueue m []) true)
                loopback now)
        with (mkAudioPlayer (mkQueue m []) true, loopback, @nil Event).
      cbv beta iota.
      destruct (_player_loop (mkAudioPlayer (mkQueue m []) true) loopback nows)
        as [[final loopback''] events'].
      cbn [fst snd app] in *. rewrite firstn_nil, skipn_nil in IH. exact IH.
    + pose proof (_player_loop_turn_plays m audio rest true loopback now)
        as [H1 H2].
      destruct (_player_loop_turn
                  (mkAudioPlayer (mkQueue m (audio :: rest)) true)
                  loopback now) as [[self' loopback'] events].
      cbn [fst snd] in H1, H2. subst self'.
      specialize (IH rest m loopback'). cbn zeta in IH.
      destruct (_player_loop (mkAudioPlayer (mkQueue m rest) true)
                  loopback' nows) as [[final loopback''] events'].
      cbn [fst snd firstn skipn] in *. destruct IH as [I1 I2].
      rewrite handed_to_sd_play_app, H2, I1. split; [reflexivity|exact I2].
Qed.

(** X13. A running worker plays the queue in order: as many turns as there
    are clips waiting hand exactly these clips to [sd.play], oldest first,
    and empty the queue, whether or not a playback raises. A worker whose
    flag is false returns at once: nothing is played and the queue is as
    it was. *)
Theorem player_plays_queue_in_order (clips : list (list Q)) (m : Z)
    loopback (nows : list Q) :
  length nows = length clips ->
  (let out :=
     _player_loop (mkAudioPlayer (mkQueue m clips) true) loopback nows in
   handed_to_sd_play (snd out) = clips /\
   fst (fst out) = mkAudioPlayer (mkQueue m []) true) /\
  _player_loop (mkAudioPlayer (mkQueue m clips) false) loopback nows
  = (mkAudioPlayer (mkQueue m clips) false, loopback, []).
Proof.
  intros Hlen. cbn zeta. split.
  - pose proof (_player_loop_drains nows clips m loopback) as [Hplayed Hleft].
    rewrite Hlen in Hplayed, Hleft.
    rewrite firstn_all in Hplayed. rewrite skipn_all in Hleft.
    split; [exact Hplayed|exact Hleft].
  - apply _player_loop_stopped. reflexivity.
Qed.

(** [play] on an empty array returns at once. *)
Lemma play_all_skips_empty (clips : list (list Q)) :
  forall self,
    play_all self clips
    = play_all self (filter (fun clip => negb (length clip =? 0)%nat) clips).
Proof.
  unfold play_all. induction clips as [|clip clips IH]; intros self.
  - reflexivity.
  - cbn [fold_left filter]. destruct clip as [|x clip]; cbn [length Nat.eqb negb].
    + assert (H : fst (play self (Some [])) = self).
      { unfold play. destruct (negb config.ENABLE_TTS_OUTPUT); reflexivity. }
      rewrite H. apply IH.
    + cbn [fold_left]. apply IH.
Qed.

(** [play] leaves the flag as it is. *)
Lemma play_all_running (clips : list (list Q)) :
  forall self, _running (play_all self clips) = _running self.
Proof.
  unfold play_all. induction clips as [|clip clips IH]; intros self;
    [reflexivity|].
  cbn [fold_left]. rewrite IH. unfold play.
  destruct (negb config.ENABLE_TTS_OUTPUT); [reflexivity|].
  destruct (length clip =? 0)%nat; [reflexivity|].
  destruct (put_nowait (_play_queue self) clip) as [[]|q]; reflexivity.
Qed.

(** X14. Clips given to [play] on a new player are played, once [start]
    has run, in the order of the calls: the worker hands to [sd.play] the
    first 20 clips that were not empty, and no others. As long as [start]
    has not run, [_player_loop] plays none of them. *)
Theorem clips_played_in_call_order (clips : list (list Q))
    loopback (nows : list Q) :
  let expected :=
    firstn 20 (filter (fun clip => negb (length clip =? 0)%nat) clips) in
  length nows = length expected ->
  handed_to_sd_play
    (snd (_player_loop (start (play_all init clips)) loopback nows))
  = expected /\
  snd (_player_loop (play_all init clips) loopback nows) = [].
Proof.
  cbn zeta. intros Hlen. split.
  - rewrite play_all_skips_empty.
    set (kept := filter (fun clip => negb (length clip =? 0)%nat) clips) in *.
    assert (Hne : Forall (fun clip => clip <> []) kept).
    { apply Forall_forall. intros clip Hin. apply filter_In in Hin.
      destruct Hin as [_ Hin]. destruct clip; [discriminate Hin|discriminate]. }
    pose proof (full_queue.play_all_keeps_oldest kept 20 [] false
                  ltac:(lia) ltac:(cbn; lia) Hne) as Hq.
    cbn [app] in Hq. change (Z.to_nat 20) with 20%nat in Hq.
    fold init in Hq.
    assert (Hp : start (play_all init kept)
                 = mkAudioPlayer (mkQueue 20 (firstn 20 kept)) true).
    { unfold start. rewrite Hq. reflexivity. }
    rewrite Hp.
    pose proof (_player_loop_drains nows (firstn 20 kept) 20 loopback)
      as [Hplayed _].
    rewrite Hlen, firstn_all in Hplayed. exact Hplayed.
  - rewrite _player_loop_stopped; [reflexivity|].
    rewrite play_all_running. reflexivity.
Qed.

(** X15. A turn of the worker that finds a clip arms the loopback gate
    before playing it: the gate is set for the clip's duration,
    [len(audio) / SAMPLE_RATE], then the worker sleeps, then it plays; the
    loopback is gated until [now + duration + FEEDBACK_GATE_BUFFER_S] at
    least. A worker without loopback plays at once. *)
Theorem worker_arms_gate_before_playing (m : Z) (audio : list Q)
    (rest : list (list Q)) (r : bool) (now : Q) :
  let self := mkAudioPlayer (mkQueue m (audio :: rest)) r in
  let duration :=
    (inject_Z (Z.of_nat (length audio)) / inject_Z config.SAMPLE_RATE)%Q in
  (forall lb,
      exists lb' played,
        _player_loop_turn self (Some lb) now
        = (mkAudioPlayer (mkQueue m rest) r, Some lb',
           [Gate_set duration; Slept_50_ms; played]) /\
        (played = Sd_play audio \/ played = Playback_error audio) /\
        (forall t, (t < now + duration + config.FEEDBACK_GATE_BUFFER_S)%Q ->
                   loopback_capture.is_gated lb' t = true) /\
        (loopback_capture._gate_until lb
         <= loopback_capture._gate_until lb')%Q) /\
  (exists played,
      _player_loop_turn self None now
      = (mkAudioPlayer (mkQueue m rest) r, None, [played]) /\
      (played = Sd_play audio \/ played = Playback_error audio)).
Proof.
  cbn zeta. unfold _player_loop_turn, get. cbn. split.
  - intros lb. eexists. eexists. split; [reflexivity|]. split.
    + destruct (sd_play_raises audio); [right|left]; reflexivity.
    + split.
      * intros t Ht. unfold loopback_capture.is_gated. apply Qlt_bool_true.
        cbn. eapply Qlt_le_trans; [exact Ht|].
        apply loopback_capture.py_max_ge_r.
      * cbn. apply loopback_capture.py_max_ge_l.
  - eexists. split; [reflexivity|].
    destruct (sd_play_raises audio); [right|left]; reflexivity.
Qed.

End worker.

(** Two clips wait; the worker takes two turns. *)
Lemma player_plays_queue_in_order_witness :
  handed_to_sd_play
    (snd (_player_loop (fun _ => false)
            (mkAudioPlayer (mkQueue 20 [[1 # 2]; [1 # 4; 1 # 8]]) true)
            None [0; 1]))
  = [[1 # 2]; [1 # 4; 1 # 8]].
Proof.
  apply (player_plays_queue_in_order (fun _ => false)
           [[1 # 2]; [1 # 4; 1 # 8]] 20 None [0; 1] eq_refl).
Defined.

(** Twenty-two clips, two of them empty, then twenty turns of the worker. *)
Lemma clips_played_in_call_order_witness :
  let clips := [[]; [1]] ++ repeat [1 # 2] 19 ++ [[]; [1 # 4]] in
  handed_to_sd_play
    (snd (_player_loop (fun _ => false) (start (play_all init clips)) None
            (repeat 0 20)))
  = [1] :: repeat [1 # 2] 19.
Proof.
  cbn zeta.
  destruct (clips_played_in_call_order (fun _ => false)
              ([[]; [1]] ++ repeat [1 # 2] 19 ++ [[]; [1 # 4]]) None
              (repeat 0 20)) as [H _].
  - vm_compute. reflexivity.
  - rewrite H. vm_compute. reflexivity.
Defined.

End player_loop.

(** ** More on the text wrappers *)

Module text_facts.

Import String Ascii pystr.
Local Open Scope string_scope.

Lemma lstrip_idempotent (s : string) : lstrip (lstrip s) = lstrip s.
Proof.
  induction s as [|c s IH]; [reflexivity|].
  cbn [lstrip]. destruct (isspace c) eqn:E; [exact IH|].
  cbn [lstrip]. rewrite E. reflexivity.
Qed.

Lemma rstrip_idempotent (s : string) : rstrip (rstrip s) = rstrip s.
Proof.
  induction s as [|c s IH]; [reflexivity|].
  cbn [rstrip]. destruct (rstrip s) as [|d r] eqn:E.
  - destruct (isspace c) eqn:Ec; [reflexivity|].
    cbn [rstrip]. rewrite Ec. reflexivity.
  - cbn [rstrip]. cbn [rstrip] in IH. rewrite IH. reflexivity.
Qed.

(** Stripping on the right keeps a first character that is not white
    space. *)
Lemma lstrip_rstrip (s : string) : lstrip s = s -> lstrip (rstrip s) = rstrip s.
Proof.
  destruct s as [|c s]; [reflexivity|].
  cbn [lstrip]. destruct (isspace c) eqn:Ec.
  - intros H. exfalso.
    assert (Hlen : (String.length (lstrip s) <= String.length s)%nat).
    { clear. induction s as [|d s IH]; cbn [lstrip]; [lia|].
      destruct (isspace d); cbn [String.length]; lia. }
    rewrite H in Hlen. cbn [String.length] in Hlen. lia.
  - intros _. cbn [rstrip].
    destruct (rstrip s); rewrite ?Ec; cbn [lstrip]; rewrite Ec; reflexivity.
Qed.

(** A text without white space at either end. *)
Definition trimmed (s : string) : Prop := lstrip s = s /\ rstrip s = s.

Lemma strip_trimmed (s : string) : trimmed (strip s).
Proof.
  unfold trimmed, strip. split.
  - apply lstrip_rstrip, lstrip_idempotent.
  - apply rstrip_idempotent.
Qed.

Lemma trimmed_strip (s : string) : trimmed s -> strip s = s.
Proof. unfold trimmed, strip. intros [-> ->]. reflexivity. Qed.

Lemma strip_idempotent (s : string) : strip (strip s) = strip s.
Proof. apply trimmed_strip, strip_trimmed. Qed.

Lemma rstrip_app (a b : string) :
  b <> "" -> rstrip b = b -> rstrip (a ++ b) = a ++ b.
Proof.
  intros Hne Hb. induction a as [|c a IH]; [exact Hb|].
  cbn [append rstrip]. rewrite IH.
  destruct (a ++ b) as [|d r] eqn:E; [|reflexivity].
  destruct a; [cbn in E; contradiction|discriminate E].
Qed.

Lemma lstrip_app (a b : string) :
  a <> "" -> lstrip a = a -> lstrip (a ++ b) = a ++ b.
Proof.
  intros Hne Ha. destruct a as [|c a]; [contradiction|].
  cbn [append lstrip] in *. destruct (isspace c) eqn:Ec; [|reflexivity].
  exfalso.
  assert (Hlen : (String.length (lstrip a) <= String.length a)%nat).
  { clear. induction a as [|d s IH]; cbn [lstrip]; [lia|].
    destruct (isspace d); cbn [String.length]; lia. }
  rewrite Ha in Hlen. cbn [String.length] in Hlen. lia.
Qed.

(** Joining trimmed, non-empty texts gives a trimmed text, empty only for
    an empty list. *)
Lemma join_trimmed (sep : string) (texts : list string) :
  Forall (fun t => t <> "" /\ trimmed t) texts ->
  trimmed (join sep texts) /\ (texts <> [] -> join sep texts <> "").
Proof.
  induction 1 as [|t texts [Hne [Hl Hr]] _ [[IHl IHr] IHne]].
  - split; [split; reflexivity|intros H; contradiction].
  - destruct texts as [|t' texts].
    + cbn [join]. split; [split; assumption|intros _; exact Hne].
    + change (join sep (t :: t' :: texts))
        with (t ++ sep ++ join sep (t' :: texts)).
      assert (Hrest : join sep (t' :: texts) <> "") by (apply IHne; discriminate).
      split; [split|].
      * apply lstrip_app; assumption.
      * rewrite (rstrip_app t).
        -- reflexivity.
        -- destruct sep; [exact Hrest|discriminate].
        -- apply rstrip_app; assumption.
      * intros _. destruct t; [contradiction|discriminate].
Qed.

(** X16. [LANG_MAP] maps every code it knows to itself, so with the
    default of [get] the language handed to the model is the language
    [transcribe] was given, for every code. *)
Theorem whisper_language_is_passed_on (language : string) :
  whisper_asr.dict_get whisper_asr.LANG_MAP language language = language.
Proof.
  unfold whisper_asr.LANG_MAP. cbn [whisper_asr.dict_get].
  repeat match goal with
         | |- context [String.eqb ?k language] =>
             destruct (String.eqb_spec k language); [assumption|]
         end.
  reflexivity.
Qed.

Section transcript.

Variable WhisperModel : Type.
Variable Audio : Type.
Variable Info : Type.
Variable model_transcribe :
  WhisperModel -> Audio -> string
  -> PyException + (whisper_asr.Segments * Info).

Lemma truthy_true (s : string) : truthy s = true <-> s <> "".
Proof.
  unfold truthy. rewrite negb_true_iff. split.
  - intros H ->. discriminate H.
  - intros H. destruct (String.eqb_spec s ""); [contradiction|reflexivity].
Qed.

Lemma collect_texts_trimmed (segments : whisper_asr.Segments) :
  forall texts out,
    Forall (fun t => t <> "" /\ trimmed t) texts ->
    whisper_asr.collect_texts segments texts = inr out ->
    Forall (fun t => t <> "" /\ trimmed t) out.
Proof.
  induction segments as [|segment_text rest IH|e]; intros texts out Hall;
    cbn [whisper_asr.collect_texts].
  - intros [= <-]. exact Hall.
  - apply IH. destruct (truthy (strip segment_text)) eqn:E; [|exact Hall].
    apply Forall_app. split; [exact Hall|].
    constructor; [|constructor]. split.
    + apply truthy_true, E.
    + apply strip_trimmed.
  - discriminate.
Qed.

(** X17. A text returned by [transcribe] has no white space at either end:
    stripping it changes nothing. So the pipeline's test
    [not transcript or not transcript.strip()] holds exactly when the
    transcript is empty. *)
Theorem transcript_is_stripped (self : whisper_asr.WhisperASR WhisperModel)
    (audio : Audio) (language text : string) :
  whisper_asr.transcribe WhisperModel Audio Info model_transcribe
    self audio language = inr text ->
  strip text = text /\
  (negb (truthy text) || negb (truthy (strip text)) = negb (truthy text)).
Proof.
  unfold whisper_asr.transcribe, whisper_asr.try_transcribe.
  destruct (whisper_asr.model WhisperModel self) as [m|]; [|discriminate].
  intros H.
  assert (Hs : strip text = text).
  { destruct (model_transcribe m audio
                (whisper_asr.dict_get whisper_asr.LANG_MAP language language))
      as [e|[segments info]].
    - injection H as <-. reflexivity.
    - destruct (whisper_asr.collect_texts segments []) as [e|texts] eqn:E.
      + injection H as <-. reflexivity.
      + injection H as <-. apply trimmed_strip.
        apply (join_trimmed " " texts).
        apply (collect_texts_trimmed segments [] texts); [constructor|exact E]. }
  split; [exact Hs|]. rewrite Hs. apply orb_diag.
Qed.

End transcript.

(** A model double that yields padded and blank segments. *)
Definition padded_model (_ : unit) (_ : list Q) (_ : string)
  : PyException + (whisper_asr.Segments * unit) :=
  inr (whisper_asr.Segments_yield "  good"
         (whisper_asr.Segments_yield "   "
            (whisper_asr.Segments_yield " morning "
               whisper_asr.Segments_end)), tt).

Lemma transcript_is_stripped_witness :
  whisper_asr.transcribe unit (list Q) unit padded_model
    (whisper_asr.mkWhisperASR unit (Some tt)) [1 # 2] "en"
  = inr "good morning" /\
  strip "good morning" = "good morning".
Proof.
  split; [reflexivity|].
  apply (transcript_is_stripped unit (list Q) unit padded_model
           (whisper_asr.mkWhisperASR unit (Some tt)) [1 # 2] "en"
           "good morning" eq_refl).
Defined.

Section translation.

Variable argos_translate : string -> string -> string -> PyException + string.

(** X18. Between two different languages, white space around the text does
    not reach the translator: if the translator returns for the stripped
    text, [translate_text] gives the same result for the text and for the
    stripped text; and a text of white space only gives the empty string
    without any call. *)
Theorem translate_text_ignores_outer_space (text from_lang to_lang : string) :
  from_lang <> to_lang ->
  (forall result,
      argos_translate (strip text) from_lang to_lang = inr result ->
      strip text <> "" ->
      argos_translate.translate_text argos_translate text from_lang to_lang
      = result /\
      argos_translate.translate_text argos_translate (strip text)
        from_lang to_lang = result) /\
  (strip text = "" ->
   argos_translate.translate_text argos_translate text from_lang to_lang = "").
Proof.
  intros Hlang. unfold argos_translate.translate_text. split.
  - intros result Hres Hne. rewrite strip_idempotent.
    assert (Ht : text <> "") by (intros ->; apply Hne; reflexivity).
    apply truthy_true in Hne. apply truthy_true in Ht.
    rewrite Hne, Ht. cbn [negb orb].
    assert (Ht' : truthy (strip text) = true) by exact Hne.
    destruct (String.eqb_spec from_lang to_lang); [contradiction|].
    rewrite Hres. split; reflexivity.
  - intros ->. rewrite orb_true_r. reflexivity.
Qed.

End translation.

(** A translator double that knows one sentence. *)
Definition phrase_book (text from_lang to_lang : string)
  : PyException + string :=
  if text =? "good morning" then inr "ohayou"
  else inl (OtherException "unknown").

Lemma translate_text_ignores_outer_space_witness :
  argos_translate.translate_text phrase_book "  good morning " "en" "ja"
  = "ohayou".
Proof.
  pose proof (translate_text_ignores_outer_space phrase_book
                "  good morning " "en" "ja") as [H _]; [discriminate|].
  apply (H "ohayou"); [reflexivity|discriminate].
Defined.

End text_facts.

(** ** Loading the recognizer: [WhisperASR.load] *)

Module whisper_load.

Import String pystr.
Local Open Scope string_scope.

(** config.py, Whisper settings. *)
Definition WHISPER_MODEL_SIZE : string := "small".
Definition WHISPER_DEVICE : string := "auto".
Definition WHISPER_COMPUTE_TYPE : string := "auto".

Section load.

Variable WhisperModel : Type.
Variable Audio : Type.
Variable Info : Type.

(** [WhisperModel(model_size, device=..., compute_type=...)] *)
Variable WhisperModel_new :
  string -> string -> string -> PyException + WhisperModel.

Variable model_transcribe :
  WhisperModel -> Audio -> string
  -> PyException + (whisper_asr.Segments * Info).

(** [WhisperASR.load]. [torch_cuda] is what the probe of lines 34-38 finds:
    [None] when [import torch] raises [ImportError], otherwise the value of
    [torch.cuda.is_available()]. *)
Definition load (self : whisper_asr.WhisperASR WhisperModel)
    (torch_cuda : option bool)
  : PyException + whisper_asr.WhisperASR WhisperModel :=
  let model_size := WHISPER_MODEL_SIZE in
  let device := WHISPER_DEVICE in
  let compute_type := WHISPER_COMPUTE_TYPE in
  let device :=
    if device =? "auto" then
      match torch_cuda with
      | Some available => if available then "cuda" else "cpu"
      | None => "cpu"
      end
    else device in
  let compute_type :=
    if compute_type =? "auto"
    then (if device =? "cuda" then "float16" else "int8")
    else compute_type in
  match WhisperModel_new model_size device compute_type with
  | inr m => inr (whisper_asr.mkWhisperASR WhisperModel (Some m))
  | inl _ =>
      if device =? "cuda" then
        match WhisperModel_new model_size "cpu" "int8" with
        | inr m => inr (whisper_asr.mkWhisperASR WhisperModel (Some m))
        | inl e => inl e
        end
      else inr self
  end.

(** [WhisperASR.__init__] *)
Definition new : whisper_asr.WhisperASR WhisperModel :=
  whisper_asr.mkWhisperASR WhisperModel None.

(** X19. [load] on a machine without CUDA builds the model for the CPU with
    int8, and when that construction raises it returns normally and leaves
    the recognizer without a model: the failure shows only later, when
    [transcribe] raises [RuntimeError]. With CUDA, a failed construction is
    retried once on the CPU with int8, and [load] raises only if the retry
    raises too. *)
Theorem load_failure_surfaces_at_transcribe (torch_cuda : option bool)
    (audio : Audio) (language : string) :
  (torch_cuda <> Some true ->
   match WhisperModel_new "small" "cpu" "int8" with
   | inr m => load new torch_cuda
              = inr (whisper_asr.mkWhisperASR WhisperModel (Some m))
   | inl _ =>
       load new torch_cuda = inr new /\
       whisper_asr.transcribe WhisperModel Audio Info model_transcribe
         new audio language
       = inl (RuntimeError "Whisper model not loaded. Call load() first.")
   end) /\
  (torch_cuda = Some true ->
   match WhisperModel_new "small" "cuda" "float16",
         WhisperModel_new "small" "cpu" "int8" with
   | inr m, _ => load new torch_cuda
                 = inr (whisper_asr.mkWhisperASR WhisperModel (Some m))
   | inl _, inr m => load new torch_cuda
                     = inr (whisper_asr.mkWhisperASR WhisperModel (Some m))
   | inl _, inl e => load new torch_cuda = inl e
   end).
Proof.
  unfold load, WHISPER_MODEL_SIZE, WHISPER_DEVICE, WHISPER_COMPUTE_TYPE.
  split.
  - intros Hcuda.
    assert (Hdev : match torch_cuda with
                   | Some available => if available then "cuda" else "cpu"
                   | None => "cpu"
                   end = "cpu")
      by (destruct torch_cuda as [[|]|]; [contradiction Hcuda| |]; reflexivity).
    cbn [String.eqb Ascii.eqb Bool.eqb]. cbn. rewrite Hdev. cbn.
    destruct (WhisperModel_new "small" "cpu" "int8"); [|reflexivity].
    split; reflexivity.
  - intros ->. cbn.
    destruct (WhisperModel_new "small" "cuda" "float16");
      destruct (WhisperModel_new "small" "cpu" "int8"); reflexivity.
Qed.

End load.

(** No CUDA, and a constructor double that finds no model file. *)
Lemma load_failure_surfaces_at_transcribe_witness :
  let no_files := fun _ _ _ : string =>
    @inl PyException unit (OtherException "model file not found") in
  load unit no_files (new unit) (Some false) = inr (new unit) /\
  whisper_asr.transcribe unit (list Q) unit
    (fun _ _ _ => inr (whisper_asr.Segments_end, tt)) (new unit) [1 # 2] "en"
  = inl (RuntimeError "Whisper model not loaded. Call load() first.").
Proof.
  cbn zeta.
  pose proof (load_failure_surfaces_at_transcribe unit (list Q) unit
                (fun _ _ _ => inl (OtherException "model file not found"))
                (fun _ _ _ => inr (whisper_asr.Segments_end, tt))
                (Some false) [1 # 2] "en") as [H _].
  apply H. discriminate.
Defined.

End whisper_load.

(** ** piper_tts.py *)

Module piper_tts.

Import String pystr.
Local Open Scope string_scope.

(** What the second [wave.open] reads back from the buffer the voice wrote. *)
Record WavData : Type := mkWavData {
  n_frames : Z;
  sample_width : Z;
  framerate : Z;
  raw_data : list Byte.byte
}.

Definition byte_value (b : Byte.byte) : Z := Z.of_N (Byte.to_N b).

(** A little-endian two's complement 16-bit integer. *)
Definition int16_le (b0 b1 : Byte.byte) : Z :=
  let u := (byte_value b0 + 256 * byte_value b1)%Z in
  if (u <? 32768)%Z then u else (u - 65536)%Z.

(** A little-endian two's complement 32-bit integer. *)
Definition int32_le (b0 b1 b2 b3 : Byte.byte) : Z :=
  let u := (byte_value b0 + 256 * byte_value b1
            + 65536 * byte_value b2 + 16777216 * byte_value b3)%Z in
  if (u <? 2147483648)%Z then u else (u - 4294967296)%Z.

(** [np.frombuffer(raw_data, dtype=np.int16)]: two bytes a sample;
    [ValueError] when a byte is left over. *)
Fixpoint frombuffer_int16 (raw : list Byte.byte) : PyException + list Z :=
  match raw with
  | [] => inr []
  | b0 :: b1 :: raw' =>
      match frombuffer_int16 raw' with
      | inr values => inr (int16_le b0 b1 :: values)
      | inl e => inl e
      end
  | [_] => inl (OtherException "buffer size must be a multiple of element size")
  end.

(** [np.frombuffer(raw_data, dtype=np.int32)] *)
Fixpoint frombuffer_int32 (raw : list Byte.byte) : PyException + list Z :=
  match raw with
  | [] => inr []
  | b0 :: b1 :: b2 :: b3 :: raw' =>
      match frombuffer_int32 raw' with
      | inr values => inr (int32_le b0 b1 b2 b3 :: values)
      | inl e => inl e
      end
  | _ => inl (OtherException "buffer size must be a multiple of element size")
  end.

(** Lines 95-100: the samples as floats. *)
Definition decode (sample_width : Z) (raw : list Byte.byte)
  : PyException + list Q :=
  if (sample_width =? 2)%Z then
    match frombuffer_int16 raw with
    | inr values => inr (map (fun v => inject_Z v / 32768)%Q values)
    | inl e => inl e
    end
  else if (sample_width =? 4)%Z then
    match frombuffer_int32 raw with
    | inr values => inr (map (fun v => inject_Z v / 2147483648)%Q values)
    | inl e => inl e
    end
  else
    match frombuffer_int16 raw with
    | inr values => inr (map (fun v => inject_Z v / 32768)%Q values)
    | inl e => inl e
    end.

(** Lines 102-106: the resampling to [SAMPLE_RATE]. The division raises on
    a rate of zero, [np.linspace] on a negative count and [np.interp] on an
    empty array of sample points. *)
Definition to_sample_rate (framerate : Z) (audio : list Q)
  : PyException + list Q :=
  if negb (framerate =? config.SAMPLE_RATE)%Z then
    if (framerate =? 0)%Z then inl (OtherException "division by zero")
    else
      let ratio :=
        numpy.float64 (inject_Z config.SAMPLE_RATE / inject_Z framerate) in
      let new_len :=
        numpy.py_int
          (numpy.float64
             (numpy.float64 (inject_Z (Z.of_nat (List.length audio)))
              * ratio)) in
      match numpy.linspace_checked
              0 (inject_Z (Z.of_nat (List.length audio)) - 1) new_len with
      | inl _ => inl (OtherException "Number of samples must be non-negative")
      | inr indices =>
          match audio with
          | [] => inl (OtherException "array of sample points is empty")
          | _ =>
              inr (numpy.interp indices (numpy.arange (List.length audio))
                                audio)
          end
      end
  else inr audio.

Section PiperTTS.

(** A loaded [PiperVoice]. *)
Variable Voice : Type.

(** [voice.synthesize(text, wav_file)] into the buffer, and the reading
    back of the buffer; either may raise. *)
Variable voice_synthesize : Voice -> string -> PyException + WavData.

Record PiperTTS : Type := mkPiperTTS {
  _voices : list (string * Voice);
  _piper_available : bool
}.

(** [self._voices.get(language)] *)
Fixpoint voices_get (voices : list (string * Voice)) (language : string)
  : option Voice :=
  match voices with
  | [] => None
  | (lang, voice) :: voices' =>
      if lang =? language then Some voice else voices_get voices' language
  end.

(** The body of the [try] block of [synthesize]. *)
Definition try_synthesize (voice : Voice) (text : string)
  : PyException + list Q :=
  match voice_synthesize voice text with
  | inl e => inl e
  | inr wav =>
      match decode (sample_width wav) (raw_data wav) with
      | inl e => inl e
      | inr audio => to_sample_rate (framerate wav) audio
      end
  end.

(** [PiperTTS.synthesize] *)
Definition synthesize (self : PiperTTS) (text language : string)
  : option (list Q) :=
  if negb (truthy text) || negb (truthy (strip text)) then None
  else if negb (_piper_available self) then None
  else
    match voices_get (_voices self) language with
    | None => None
    | Some voice =>
        match try_synthesize voice text with
        | inr audio => Some audio
        | inl _ => None
        end
    end.

Lemma byte_value_bounds (b : Byte.byte) : (0 <= byte_value b < 256)%Z.
Proof.
  unfold byte_value. pose proof (Byte.to_N_bounded b) as H. lia.
Qed.

Lemma int16_le_range (b0 b1 : Byte.byte) :
  (-32768 <= int16_le b0 b1 <= 32767)%Z.
Proof.
  unfold int16_le. cbv zeta.
  pose proof (byte_value_bounds b0). pose proof (byte_value_bounds b1).
  destruct (Z.ltb_spec (byte_value b0 + 256 * byte_value b1) 32768); lia.
Qed.

Lemma int32_le_range (b0 b1 b2 b3 : Byte.byte) :
  (-2147483648 <= int32_le b0 b1 b2 b3 <= 2147483647)%Z.
Proof.
  unfold int32_le. cbv zeta.
  pose proof (byte_value_bounds b0). pose proof (byte_value_bounds b1).
  pose proof (byte_value_bounds b2). pose proof (byte_value_bounds b3).
  destruct (Z.ltb_spec (byte_value b0 + 256 * byte_value b1
                        + 65536 * byte_value b2
                        + 16777216 * byte_value b3) 2147483648); lia.
Qed.

Lemma frombuffer_int16_range (raw : list Byte.byte) :
  forall values,
    frombuffer_int16 raw = inr values ->
    Forall (fun v => (-32768 <= v <= 32767)%Z) values.
Proof.
  remember (List.length raw) as n eqn:Hn.
  assert (Hle : (List.length raw <= n)%nat) by lia. clear Hn.
  revert raw Hle. induction n as [|n IHn]; intros raw Hle;
    assert (IH : forall raw', (List.length raw' < List.length raw)%nat ->
                 forall values, frombuffer_int16 raw' = inr values ->
                 Forall (fun v => (-32768 <= v <= 32767)%Z) values)
    by (intros raw' Hlt; first [apply IHn; lia | exfalso; lia]).
  all: destruct raw as [|b0 [|b1 raw']]; cbn [frombuffer_int16]; intros values;
    [intros [= <-]; constructor | discriminate | ].
  all: destruct (frombuffer_int16 raw') as [e|vs] eqn:E; [discriminate|];
    intros [= <-]; constructor;
    [apply int16_le_range | apply (IH raw'); [cbn; lia|exact E]].
Qed.

Lemma frombuffer_int32_range (raw : list Byte.byte) :
  forall values,
    frombuffer_int32 raw = inr values ->
    Forall (fun v => (-2147483648 <= v <= 2147483647)%Z) values.
Proof.
  remember (List.length raw) as n eqn:Hn.
  assert (Hle : (List.length raw <= n)%nat) by lia. clear Hn.
  revert raw Hle. induction n as [|n IHn]; intros raw Hle;
    assert (IH : forall raw', (List.length raw' < List.length raw)%nat ->
                 forall values, frombuffer_int32 raw' = inr values ->
                 Forall (fun v => (-2147483648 <= v <= 2147483647)%Z) values)
    by (intros raw' Hlt; first [apply IHn; lia | exfalso; lia]).
  all: destruct raw as [|b0 [|b1 [|b2 [|b3 raw']]]]; cbn [frombuffer_int32];
    intros values; try discriminate;
    [intros [= <-]; constructor | ].
  all: destruct (frombuffer_int32 raw') as [e|vs] eqn:E; [discriminate|];
    intros [= <-]; constructor;
    [apply int32_le_range | apply (IH raw'); [cbn; lia|exact E]].
Qed.

Definition unit_range (y : Q) : Prop := (-1 <= y)%Q /\ (y <= 1)%Q.

Lemma scaled_in_unit_range (values : list Z) (full_scale : Z) :
  (0 < full_scale)%Z ->
  Forall (fun v => (- full_scale <= v <= full_scale - 1)%Z) values ->
  Forall unit_range
         (map (fun v => inject_Z v / inject_Z full_scale)%Q values).
Proof.
  intros Hfs Hall. apply Forall_map. eapply Forall_impl; [|exact Hall].
  intros v [Hlo Hhi]. unfold unit_range.
  assert (Hpos : (0 < inject_Z full_scale)%Q)
    by (change 0%Q with (inject_Z 0); rewrite <- Zlt_Qlt; exact Hfs).
  split.
  - apply Qle_shift_div_l; [exact Hpos|].
    setoid_replace (-1 * inject_Z full_scale)%Q with (inject_Z (- full_scale))
      by (rewrite inject_Z_opp; ring).
    rewrite <- Zle_Qle. exact Hlo.
  - apply Qle_shift_div_r; [exact Hpos|].
    rewrite Qmult_1_l, <- Zle_Qle. lia.
Qed.

Lemma decode_range (sample_width : Z) (raw : list Byte.byte) (audio : list Q) :
  decode sample_width raw = inr audio -> Forall unit_range audio.
Proof.
  unfold decode.
  assert (H16 : forall values,
             frombuffer_int16 raw = inr values ->
             Forall unit_range (map (fun v => inject_Z v / 32768)%Q values)).
  { intros values Hv.
    apply (scaled_in_unit_range values 32768); [lia|].
    apply (frombuffer_int16_range raw values Hv). }
  destruct (sample_width =? 2)%Z; [|destruct (sample_width =? 4)%Z].
  - destruct (frombuffer_int16 raw) as [e|values]; [discriminate|].
    intros [= <-]. apply H16. reflexivity.
  - destruct (frombuffer_int32 raw) as [e|values] eqn:E; [discriminate|].
    intros [= <-].
    apply (scaled_in_unit_range values 2147483648); [lia|].
    apply (frombuffer_int32_range raw values E).
  - destruct (frombuffer_int16 raw) as [e|values]; [discriminate|].
    intros [= <-]. apply H16. reflexivity.
Qed.

Lemma to_sample_rate_range (framerate : Z) (audio out : list Q) :
  Forall unit_range audio ->
  to_sample_rate framerate audio = inr out -> Forall unit_range out.
Proof.
  intros Hall. unfold to_sample_rate.
  destruct (negb (framerate =? config.SAMPLE_RATE)%Z);
    [|intros [= <-]; exact Hall].
  destruct (framerate =? 0)%Z; [discriminate|].
  unfold numpy.linspace_checked.
  destruct (_ <? 0)%Z; [discriminate|].
  destruct audio as [|y audio]; [discriminate|].
  intros [= <-]. unfold numpy.interp. apply Forall_map.
  set (fp := y :: audio) in *.
  assert (Hstop : (0 <= inject_Z (Z.of_nat (List.length fp)) - 1)%Q).
  { assert (H : (inject_Z 1 <= inject_Z (Z.of_nat (List.length fp)))%Q)
      by (rewrite <- Zle_Qle; cbn [fp List.length]; lia).
    change (inject_Z 1) with 1%Q in H. lra. }
  eapply Forall_impl; [|apply (numpy.linspace_nonneg _ _ Hstop)].
  intros x Hx. cbn beta.
  pose proof (numpy.interp1_arange fp x ltac:(discriminate) Hx) as Heq.
  destruct (resample_facts.lerp_between fp x (-1) 1 ltac:(discriminate) Hall)
    as [Hlo Hhi].
  unfold unit_range. change (S (List.length audio)) with (List.length fp).
  rewrite Heq. split; assumption.
Qed.

(** X20. Whatever the voice writes, the audio [synthesize] returns lies
    within [-1, 1]: 16-bit and 32-bit samples are scaled by their full
    scale, and the resampling to [SAMPLE_RATE] does not leave the range. *)
Theorem synthesized_audio_in_unit_range (self : PiperTTS)
    (text language : string) (audio : list Q) :
  synthesize self text language = Some audio ->
  Forall (fun y => (-1 <= y)%Q /\ (y <= 1)%Q) audio.
Proof.
  unfold synthesize, try_synthesize.
  destruct (negb (truthy text) || negb (truthy (strip text))); [discriminate|].
  destruct (negb (_piper_available self)); [discriminate|].
  destruct (voices_get (_voices self) language) as [voice|]; [|discriminate].
  destruct (voice_synthesize voice text) as [e|wav]; [discriminate|].
  destruct (decode (sample_width wav) (raw_data wav)) as [e|decoded] eqn:Ed;
    [discriminate|].
  destruct (to_sample_rate (framerate wav) decoded) as [e|out] eqn:Er;
    [discriminate|].
  intros [= <-].
  apply (to_sample_rate_range (framerate wav) decoded out); [|exact Er].
  apply (decode_range _ _ _ Ed).
Qed.

End PiperTTS.

(** A voice double that writes two 16-bit samples at 16 kHz: the lowest
    and the highest value. *)
Definition two_samples (_ : unit) (_ : string) : PyException + WavData :=
  inr (mkWavData 2 2 16000 [Byte.x00; Byte.x80; Byte.xff; Byte.x7f]).

Lemma synthesized_audio_in_unit_range_witness :
  let tts := mkPiperTTS unit [("en", tt)] true in
  synthesize unit two_samples tts "hello" "en" = Some [-32768 # 32768; 32767 # 32768]
  /\ Forall (fun y => (-1 <= y)%Q /\ (y <= 1)%Q) [-32768 # 32768; 32767 # 32768].
Proof.
  cbn zeta. split; [vm_compute; reflexivity|].
  apply (synthesized_audio_in_unit_range unit two_samples
           (mkPiperTTS unit [("en", tt)] true) "hello" "en").
  vm_compute. reflexivity.
Defined.

End piper_tts.

(** ** channel.py *)

Module channel.

Import String pystr pyqueue.
Local Open Scope string_scope.

(** What a turn of the pipeline loop does that others can see. *)
Inductive Event : Type :=
| Subtitles_show (channel original translated source_lang target_lang : string)
| Pipeline_error (e : PyException)
| Slept_100_ms.

Section ChannelPipeline.

(** The collaborators: the torch model of the detector, the Whisper model,
    the Argos translator and the Piper voices. *)
Variable Model : Type.
Variable model_call : Model -> list Q -> Z -> Q * Model.
Variable model_reset_states : Model -> Model.
Variable energy_prob : list Q -> Q.
Variable WhisperModel : Type.
Variable Info : Type.
Variable model_transcribe :
  WhisperModel -> list Q -> string
  -> PyException + (whisper_asr.Segments * Info).
Variable argos_translate : string -> string -> string -> PyException + string.
Variable Voice : Type.
Variable voice_synthesize : Voice -> string -> PyException + piper_tts.WavData.

(** The fields of [ChannelPipeline] that [run] reads. The [vad] handed to
    [__init__] is not one of them: [run] builds its own detector. *)
Record ChannelPipeline : Type := mkChannelPipeline {
  name : string;
  source_lang : string;
  target_lang : string;
  asr : whisper_asr.WhisperASR WhisperModel;
  tts : piper_tts.PiperTTS Voice
}.

(** The objects a turn updates: the audio queue it shares with the capture,
    the detector local to [run], and the player it shares with the other
    channel. *)
Record Shared : Type := mkShared {
  audio_queue : Queue (list Q);
  channel_vad : silero_vad.SileroVAD Q Model;
  audio_player : audio_player.AudioPlayer
}.

(** Lines 98-145: what is done with a complete utterance. [inl] is an
    exception on its way to the handler of line 149. *)
Definition process_utterance (self : ChannelPipeline)
    (player : audio_player.AudioPlayer) (utterance : list Q)
  : PyException + (audio_player.AudioPlayer * list Event) :=
  match whisper_asr.transcribe WhisperModel (list Q) Info model_transcribe
          (asr self) utterance (source_lang self) with
  | inl e => inl e
  | inr transcript =>
      if negb (truthy transcript) || negb (truthy (strip transcript))
      then inr (player, [])
      else
        let translated :=
          argos_translate.translate_text argos_translate transcript
            (source_lang self) (target_lang self) in
        if negb (truthy translated) then inr (player, [])
        else
          let shown :=
            Subtitles_show (name self) transcript translated
              (source_lang self) (target_lang self) in
          if config.ENABLE_TTS_OUTPUT then
            match piper_tts.synthesize Voice voice_synthesize (tts self)
                    translated (target_lang self) with
            | Some tts_audio =>
                inr (fst (audio_player.play player (Some tts_audio)), [shown])
            | None => inr (player, [shown])
            end
          else inr (player, [shown])
  end.

(** One turn of the [while self._running] loop of [run], with the clock
    reading [now] of the detector. An empty queue stands for the timeout of
    [wait_for]. *)
Definition run_turn (self : ChannelPipeline) (shared : Shared) (now : Q)
  : Shared * list Event :=
  match player_loop.get (audio_queue shared) with
  | None => (shared, [])
  | Some (audio_chunk, q) =>
      let '(vad, utterance, _) :=
        silero_vad.process_chunk model_call model_reset_states energy_prob
          (channel_vad shared) now audio_chunk in
      match utterance with
      | None => (mkShared q vad (audio_player shared), [])
      | Some utterance =>
          match process_utterance self (audio_player shared) utterance with
          | inr (player, events) => (mkShared q vad player, events)
          | inl e =>
              (mkShared q vad (audio_player shared),
               [Pipeline_error e; Slept_100_ms])
          end
      end
  end.

(** [self.asr.transcribe(utterance, self.source_lang)] *)
Definition transcribe_of (self : ChannelPipeline) (utterance : list Q)
  : PyException + string :=
  whisper_asr.transcribe WhisperModel (list Q) Info model_transcribe
    (asr self) utterance (source_lang self).

(** X21. On a channel whose source and target languages are the same,
    every subtitle shows the transcript as its own translation: the
    translator is not called and the text is passed on unchanged, to the
    subtitles and to the synthesis. *)
Theorem same_language_channel_echoes (self : ChannelPipeline)
    (player player' : audio_player.AudioPlayer) (utterance : list Q)
    (events : list Event) :
  source_lang self = target_lang self ->
  process_utterance self player utterance = inr (player', events) ->
  events = [] \/
  exists transcript,
    transcribe_of self utterance = inr transcript /\
    events = [Subtitles_show (name self) transcript transcript
                (source_lang self) (target_lang self)] /\
    player' = match piper_tts.synthesize Voice voice_synthesize (tts self)
                      transcript (target_lang self) with
              | Some tts_audio =>
                  fst (audio_player.play player (Some tts_audio))
              | None => player
              end.
Proof.
  intros Hlang. unfold process_utterance. fold (transcribe_of self utterance).
  destruct (transcribe_of self utterance) as [e|transcript]; [discriminate|].
  unfold argos_translate.translate_text.
  destruct (negb (truthy transcript) || negb (truthy (strip transcript))) eqn:E.
  - intros [= <- <-]. left. reflexivity.
  - rewrite Hlang, String.eqb_refl.
    apply orb_false_iff in E. destruct E as [E _]. rewrite E.
    cbn [config.ENABLE_TTS_OUTPUT].
    destruct (piper_tts.synthesize Voice voice_synthesize (tts self)
                transcript (target_lang self)) eqn:Es;
      intros [= <- <-]; right; exists transcript; rewrite Es;
      repeat split; reflexivity.
Qed.

(** X22. With a recognizer whose model was not loaded, every utterance the
    detector completes ends in the error handler of the loop: nothing is
    shown, nothing is queued for playback, the loop logs the
    [RuntimeError], sleeps and goes on; the chunk is consumed and the
    detector has advanced all the same. *)
Theorem unloaded_recognizer_drops_utterances (self : ChannelPipeline)
    (shared : Shared) (now : Q) (audio_chunk : list Q)
    (rest : list (list Q)) :
  whisper_asr.model WhisperModel (asr self) = None ->
  items (audio_queue shared) = audio_chunk :: rest ->
  let '(vad, utterance, _) :=
    silero_vad.process_chunk model_call model_reset_states energy_prob
      (channel_vad shared) now audio_chunk in
  run_turn self shared now
  = (mkShared (mkQueue (maxsize (audio_queue shared)) rest) vad
       (audio_player shared),
     match utterance with
     | Some _ =>
         [Pipeline_error
            (pystr.RuntimeError "Whisper model not loaded. Call load() first.");
          Slept_100_ms]
     | None => []
     end).
Proof.
  intros Hmodel Hitems. unfold run_turn, player_loop.get. rewrite Hitems.
  destruct (silero_vad.process_chunk model_call model_reset_states energy_prob
              (channel_vad shared) now audio_chunk) as [[vad utterance] log].
  destruct utterance as [u|]; [|reflexivity].
  unfold process_utterance, whisper_asr.transcribe. rewrite Hmodel.
  reflexivity.
Qed.

(** X23. Between two different languages, when the translator raises, the
    pipeline goes on with the marked text [translate_text] returns: the
    subtitle shows "[Translation error: <transcript>]" as the translation,
    and the same marked text is what the synthesis is asked to speak and
    the player to play. *)
Theorem translation_error_is_shown_and_spoken (self : ChannelPipeline)
    (player : audio_player.AudioPlayer) (utterance : list Q)
    (transcript : string) (e : PyException) :
  source_lang self <> target_lang self ->
  transcribe_of self utterance = inr transcript ->
  strip transcript <> "" ->
  argos_translate (strip transcript) (source_lang self) (target_lang self)
  = inl e ->
  let marked := "[Translation error: " ++ transcript ++ "]" in
  process_utterance self player utterance
  = inr (match piper_tts.synthesize Voice voice_synthesize (tts self)
                 marked (target_lang self) with
         | Some tts_audio => fst (audio_player.play player (Some tts_audio))
         | None => player
         end,
         [Subtitles_show (name self) transcript marked
            (source_lang self) (target_lang self)]).
Proof.
  intros Hlang Htr Hne Herr. cbn zeta. unfold process_utterance.
  fold (transcribe_of self utterance). rewrite Htr.
  assert (Ht : transcript <> "") by (intros ->; apply Hne; reflexivity).
  apply text_facts.truthy_true in Hne. apply text_facts.truthy_true in Ht.
  unfold argos_translate.translate_text. rewrite Hne, Ht. cbn [negb orb].
  destruct (String.eqb_spec (source_lang self) (target_lang self));
    [contradiction|].
  rewrite Herr.
  set (marked := "[Translation error: " ++ transcript ++ "]").
  assert (Hm : truthy marked = true) by reflexivity.
  rewrite Hm. cbn [negb config.ENABLE_TTS_OUTPUT].
  destruct (piper_tts.synthesize Voice voice_synthesize (tts self)
              marked (target_lang self)); reflexivity.
Qed.

(** X24. A block that a running, ungated loopback capture hands to an
    empty queue is the chunk the pipeline feeds to its detector on its
    next turn: the detector moves as [process_chunk] says on the mono
    conversion of the block, and the queue is empty again. *)
Theorem captured_block_feeds_detector (self : ChannelPipeline)
    (lb : loopback_capture.LoopbackCapture) (indata : indata.t)
    (status : bool) (t now : Q)
    (vad : silero_vad.SileroVAD Q Model) (player : audio_player.AudioPlayer) :
  loopback_capture._running lb = true ->
  (loopback_capture._gate_until lb <= t)%Q ->
  loopback_capture.loop lb = mkEventLoop false [] ->
  items (loopback_capture.audio_queue lb) = [] ->
  (0 < maxsize (loopback_capture.audio_queue lb))%Z ->
  let lb' :=
    loopback_capture.run_loop
      (fst (loopback_capture._audio_callback lb indata status t)) in
  let shared' :=
    fst (run_turn self
           (mkShared (loopback_capture.audio_queue lb') vad player) now) in
  channel_vad shared'
  = fst (fst (silero_vad.process_chunk model_call model_reset_states
                energy_prob vad now (indata.to_mono indata))) /\
  items (audio_queue shared') = [].
Proof.
  intros Hrun Hgate Hloop Hitems Hmax. cbn zeta.
  assert (Hg : loopback_capture.is_gated lb t = false)
    by (apply Qlt_bool_false, Hgate).
  unfold loopback_capture._audio_callback. rewrite Hrun, Hg. cbn [negb orb fst].
  unfold loopback_capture.run_loop, run_ready, loopback_capture.set_loop,
    schedule_put, call_soon_threadsafe.
  cbn [loopback_capture.loop loopback_capture.audio_queue
       loopback_capture._running loopback_capture._gate_until].
  rewrite Hloop. cbn [closed ready app fold_left].
  destruct (loopback_capture.audio_queue lb) as [m l] eqn:Eq.
  cbn [items maxsize] in Hitems, Hmax. subst l.
  unfold _safe_put, put_nowait, full, qsize. cbn [maxsize items List.length].
  destruct (Z.leb_spec m 0) as [|_]; [lia|].
  destruct (Z.leb_spec m (Z.of_nat 0)) as [|_]; [cbn in *; lia|].
  cbn [negb app]. unfold run_turn, player_loop.get.
  cbn [audio_queue items maxsize channel_vad audio_player].
  destruct (silero_vad.process_chunk model_call model_reset_states energy_prob
              vad now (indata.to_mono indata)) as [[vad' utterance] log].
  destruct utterance as [u|]; [|split; reflexivity].
  destruct (process_utterance self player u) as [e|[player' events]];
    split; reflexivity.
Qed.

End ChannelPipeline.

(** *** Concrete pipelines

    Doubles for the collaborators: the energy fallback on blocks of
    full-scale samples and of zeros, a recognizer that hears " hello ", a
    translator without language packs and the two-sample voice. *)

Definition level_prob (chunk : list Q) : Q :=
  if forallb (fun x => Qle_bool 1 x) chunk then 1 else 0.

Definition hears_hello (_ : unit) (_ : list Q) (_ : string)
  : PyException + (whisper_asr.Segments * unit) :=
  inr (whisper_asr.Segments_yield " hello " whisper_asr.Segments_end, tt).

Definition demo_process_utterance
    (translator : string -> string -> string -> PyException + string) :=
  process_utterance unit unit hears_hello translator unit piper_tts.two_samples.

Definition demo_run_turn :=
  run_turn unit (fun m _ _ => (0, m)) (fun m => m) level_prob unit unit
    hears_hello argos_translate.no_translator unit piper_tts.two_samples.

Definition demo_pipeline (name source target : string) (loaded : bool)
  : ChannelPipeline unit unit :=
  mkChannelPipeline unit unit name source target
    (whisper_asr.mkWhisperASR unit (if loaded then Some tt else None))
    (piper_tts.mkPiperTTS unit [("en", tt)] true).

(** Sixteen windows of speech buffered since 0 s, silent since 1 s. *)
Definition about_to_finalize : silero_vad.SileroVAD Q unit :=
  silero_vad.mkSileroVAD Q unit None (repeat (repeat 1 512) 16) true
    (Some 1) (Some 0) [].

(** English to English: the subtitle repeats "hello" and the clip is
    queued. *)
Lemma same_language_channel_echoes_witness :
  demo_process_utterance argos_translate.no_translator
    (demo_pipeline "loopback" "en" "en" true) audio_player.init [1]
  = inr (audio_player.mkAudioPlayer
           (mkQueue 20 [[-32768 # 32768; 32767 # 32768]]) false,
         [Subtitles_show "loopback" "hello" "hello" "en" "en"]) /\
  ([Subtitles_show "loopback" "hello" "hello" "en" "en"] = [] \/
   exists transcript,
     transcribe_of unit unit hears_hello unit
       (demo_pipeline "loopback" "en" "en" true) [1] = inr transcript /\
     [Subtitles_show "loopback" "hello" "hello" "en" "en"]
     = [Subtitles_show "loopback" transcript transcript "en" "en"] /\
     audio_player.mkAudioPlayer
       (mkQueue 20 [[-32768 # 32768; 32767 # 32768]]) false
     = match piper_tts.synthesize unit piper_tts.two_samples
               (piper_tts.mkPiperTTS unit [("en", tt)] true) transcript "en" with
       | Some tts_audio =>
           fst (audio_player.play audio_player.init (Some tts_audio))
       | None => audio_player.init
       end).
Proof.
  split; [vm_compute; reflexivity|].
  apply (same_language_channel_echoes unit unit hears_hello
           argos_translate.no_translator unit piper_tts.two_samples
           (demo_pipeline "loopback" "en" "en" true) audio_player.init
           (audio_player.mkAudioPlayer
              (mkQueue 20 [[-32768 # 32768; 32767 # 32768]]) false)
           [1] [Subtitles_show "loopback" "hello" "hello" "en" "en"] eq_refl).
  vm_compute. reflexivity.
Defined.

(** A pipeline whose recognizer has no model gets the chunk that completes
    an utterance. *)
Lemma unloaded_recognizer_drops_utterances_witness :
  snd (demo_run_turn (demo_pipeline "mic" "en" "ja" false)
         (mkShared unit (mkQueue 50 [repeat 0 600]) about_to_finalize
            audio_player.init) 2)
  = [Pipeline_error
       (pystr.RuntimeError "Whisper model not loaded. Call load() first.");
     Slept_100_ms].
Proof.
  pose proof (unloaded_recognizer_drops_utterances unit (fun m _ _ => (0, m))
                (fun m => m) level_prob unit unit hears_hello
                argos_translate.no_translator unit piper_tts.two_samples
                (demo_pipeline "mic" "en" "ja" false)
                (mkShared unit (mkQueue 50 [repeat 0 600]) about_to_finalize
                   audio_player.init) 2 (repeat 0 600) [] eq_refl eq_refl) as H.
  destruct (silero_vad.process_chunk (fun (m : unit) _ _ => (0, m))
              (fun m => m) level_prob
              (channel_vad unit
                 (mkShared unit (mkQueue 50 [repeat 0 600]) about_to_finalize
                    audio_player.init)) 2 (repeat 0 600))
    as [[vad utterance] log] eqn:E.
  unfold demo_run_turn. rewrite H.
  assert (Hu : utterance <> None).
  { assert (Hs : snd (fst (silero_vad.process_chunk (fun (m : unit) _ _ => (0, m))
              (fun m => m) level_prob
              (channel_vad unit
                 (mkShared unit (mkQueue 50 [repeat 0 600]) about_to_finalize
                    audio_player.init)) 2 (repeat 0 600))) <> None)
      by (vm_compute; discriminate).
    rewrite E in Hs. exact Hs. }
  destruct utterance; [reflexivity|contradiction].
Defined.

(** Japanese to English without language packs: the marked text is shown,
    synthesized by the English voice and queued. *)
Lemma translation_error_is_shown_and_spoken_witness :
  demo_process_utterance argos_translate.no_translator
    (demo_pipeline "loopback" "ja" "en" true) audio_player.init [1]
  = inr (audio_player.mkAudioPlayer
           (mkQueue 20 [[-32768 # 32768; 32767 # 32768]]) false,
         [Subtitles_show "loopback" "hello" "[Translation error: hello]"
            "ja" "en"]).
Proof.
  unfold demo_process_utterance.
  rewrite (translation_error_is_shown_and_spoken unit unit hears_hello
             argos_translate.no_translator unit piper_tts.two_samples
             (demo_pipeline "loopback" "ja" "en" true) audio_player.init [1]
             "hello" (OtherException "no language pack")).
  - reflexivity.
  - discriminate.
  - reflexivity.
  - discriminate.
  - reflexivity.
Defined.

(** A running loopback capture with an empty queue gets a mono block of
    two frames; the idle detector keeps both samples as leftover. *)
Lemma captured_block_feeds_detector_witness :
  let lb := {| loopback_capture.audio_queue := mkQueue 50 [];
               loopback_capture.loop := mkEventLoop false [];
               loopback_capture._running := true;
               loopback_capture._gate_until := 0 |} in
  let lb' :=
    loopback_capture.run_loop
      (fst (loopback_capture._audio_callback lb [(1, []); (0, [])] false 3)) in
  silero_vad._leftover Q unit
    (channel_vad unit
       (fst (demo_run_turn (demo_pipeline "loopback" "ja" "en" true)
               (mkShared unit (loopback_capture.audio_queue lb')
                  silero_vad.init audio_player.init) 3)))
  = [1; 0].
Proof.
  cbn zeta.
  pose proof (captured_block_feeds_detector unit (fun m _ _ => (0, m))
                (fun m => m) level_prob unit unit hears_hello
                argos_translate.no_translator unit piper_tts.two_samples
                (demo_pipeline "loopback" "ja" "en" true)
                {| loopback_capture.audio_queue := mkQueue 50 [];
                   loopback_capture.loop := mkEventLoop false [];
                   loopback_capture._running := true;
                   loopback_capture._gate_until := 0 |}
                [(1, []); (0, [])] false 3 3 silero_vad.init audio_player.init
                eq_refl) as H.
  destruct H as [H _]; [vm_compute; discriminate|reflexivity|reflexivity
                       |reflexivity|].
  unfold demo_run_turn. rewrite H. vm_compute. reflexivity.
Defined.

End channel.
